(** * onyxhikes: the GPS segment matcher of [scripts/main.js] and of its
    older variant, embedded in Rocq.

    JavaScript numbers are IEEE 754 binary64 values: they are modelled by the
    primitive [float] type, so that [NaN], the infinities and rounding behave
    as in the engine.  Array indices and lengths are natural numbers.
    [Math.pow(x, 2)] is taken to be the correctly rounded square [x * x] and
    [Math.sqrt] the correctly rounded square root.  Console output is not
    modelled; the evaluation of a logged expression is modelled where it can
    raise an exception.

    Besides the matcher and the assembler, the file embeds the waypoint
    functions of [scripts/main.js], the great-circle distances (with the
    engine's sine, cosine and arc sine as parameters), the colour and
    elevation lookups and the numeric loop of the elevation chart.  The code
    that drives the map, the page and the animation is not embedded. *)

From Stdlib Require Import String Ascii.
From Stdlib Require Import Floats ZArith QArith Qround List Lia Bool Arith.
From Stdlib Require Import Sorted Permutation.
Import ListNotations.

Close Scope Q_scope.

Set Warnings "-inexact-float".

(** ** JavaScript numbers *)

Module Number.

Open Scope float_scope.

(** [Number.MAX_VALUE], the largest finite double. *)
Definition MAX_VALUE : float := 0x1.fffffffffffffp+1023.

(** An integer used as a number ([i / steps], [count / length]). *)
Definition of_nat (n : nat) : float :=
  PrimFloat.of_uint63 (Uint63.of_Z (Z.of_nat n)).

(** [Math.pow(x, 2)]. *)
Definition pow2 (x : float) : float := x * x.

(** [Math.abs]. *)
Definition abs (x : float) : float := PrimFloat.abs x.

(** [x > y] is [y < x]; both are false when an operand is [NaN]. *)
Definition gtb (x y : float) : bool := y <? x.

End Number.

(** ** The order of doubles

    The comparisons of the primitive type are specified through
    [SpecFloat.SFcompare]; the definitions below read that comparison as a
    lexicographic order on integer triples. *)

Section FloatRank.

Open Scope Z_scope.

(** A double that is not [NaN] is ranked by a triple of integers, compared
    lexicographically: the class (negative infinity, negative, zero,
    positive, positive infinity), then exponent and mantissa. *)
Definition rank (a : spec_float) : option (Z * Z * Z) :=
  match a with
  | S754_nan => None
  | S754_zero _ => Some (0, 0, 0)
  | S754_infinity true => Some (-2, 0, 0)
  | S754_infinity false => Some (2, 0, 0)
  | S754_finite true m e => Some (-1, - e, Z.neg m)
  | S754_finite false m e => Some (1, e, Z.pos m)
  end.

Definition lexcmp (a b : Z * Z * Z) : comparison :=
  let '(a1, a2, a3) := a in
  let '(b1, b2, b3) := b in
  match a1 ?= b1 with
  | Eq => match a2 ?= b2 with Eq => a3 ?= b3 | c => c end
  | c => c
  end.

(** A double other than [NaN]. *)
Definition is_number (x : float) : Prop := rank (Prim2SF x) <> None.

End FloatRank.


(** ** Exceptions

    A call either completes with a value or raises a [TypeError] (a property
    read on [undefined]). *)

Inductive Completion (A : Type) : Type :=
| Normal (v : A)
| TypeError.

Arguments Normal {A} v.
Arguments TypeError {A}.

Definition bind {A B : Type} (c : Completion A) (k : A -> Completion B)
  : Completion B :=
  match c with
  | Normal v => k v
  | TypeError => TypeError
  end.

Notation "x <- c ;; k" := (bind c (fun x => k))
  (at level 61, c at next level, right associativity).

(** [a[i]] followed by a property read: an index out of range raises. *)
Definition read {A : Type} (a : list A) (i : nat) : Completion A :=
  match nth_error a i with
  | Some v => Normal v
  | None => TypeError
  end.

(** ** Data *)

(** A [[lat, lon]] array. *)
Definition Coord : Type := (float * float)%type.

(** A point of a parsed GPX track. *)
Record GpxPoint : Type := mkGpxPoint { lat : float; lon : float }.

(** [p => [p.lat, p.lon]]. *)
Definition coordOf (p : GpxPoint) : Coord := (lat p, lon p).

(** [track.distance] as the GPX parser fills it. *)
Record TrackDistance : Type := mkTrackDistance {
  total : float;
  cumul : list float
}.

Record Track : Type := mkTrack {
  track_name : option string;
  points : list GpxPoint;
  distance : TrackDistance
}.

(** The parser object; only its tracks are read by the functions below. *)
Record GpxParser : Type := mkGpxParser { tracks : list Track }.

(** The module-level variables read by the matcher and the assembler. *)
Record Globals : Type := mkGlobals {
  trailGpxParser : option GpxParser;
  gpxTrailPoints : list Coord
}.

Record LatLon : Type := mkLatLon { latitude : float; longitude : float }.

(** An entry of [route.json]. *)
Record RouteSegment : Type := mkRouteSegment {
  name : string;
  start_location : string;
  finish_location : string;
  rd_distance : float;
  notes : string;
  start_coords : LatLon;
  finish_coords : LatLon
}.

(** The object made by [buildSegmentObject].  Its [elevation] and
    [highlights] fields are static lookups by [id] with a default; they are
    left out. *)
Record Segment : Type := mkSegment {
  id : nat;
  seg_name : string;
  seg_start_location : string;
  seg_finish_location : string;
  seg_distance : float;
  seg_notes : string;
  coordinates : list Coord;
  startCoords : Coord;
  endCoords : Coord
}.

(** The counters logged at the end of [processSegmentData]. *)
Record Summary : Type := mkSummary {
  gpxMatchCount : nat;
  interpolatedCount : nat;
  coverage : float
}.

(** What a run of [processSegmentData] leaves behind: the new value of
    [coloradoTrailSegments], and the summary when the run reaches it. *)
Record Outcome : Type := mkOutcome {
  coloradoTrailSegments : list Segment;
  summary : option Summary
}.

(** ** Arrays *)

(** [a.slice(from, to)] for indices that are not negative. *)
Definition slice {A : Type} (a : list A) (from to : nat) : list A :=
  skipn from (firstn to a).

(** [a[i] = v] for [i] inside the array. *)
Fixpoint assign {A : Type} (a : list A) (i : nat) (v : A) : list A :=
  match a, i with
  | [], _ => []
  | _ :: a', O => v :: a'
  | x :: a', S i' => x :: assign a' i' v
  end.

(** The pairs [(i, a[i])] in index order. *)
Definition entries {A : Type} (a : list A) : list (nat * A) :=
  combine (seq 0 (length a)) a.

(** The values of [i] taken by [for (let i = from; i < to; i++)]. *)
Definition range (from to : nat) : list nat := seq from (to - from).

(** ** Geometry *)

Section Geometry.

Open Scope float_scope.

Definition calculateDistance (coord1 coord2 : Coord) : float :=
  sqrt (Number.pow2 (fst coord1 - fst coord2) +
        Number.pow2 (snd coord1 - snd coord2)).

(** [total += calculateDistance(coordinates[i-1], coordinates[i])] for
    [i] from 1. *)
Definition calculateTotalDistance (coordinates : list Coord) : float :=
  fold_left (fun total '(prev, cur) => total + calculateDistance prev cur)
    (combine coordinates (tl coordinates)) 0.

(** One iteration of either scan of [findClosestPointIndex]; the state is
    [(minDistance, closestIndex)]. *)
Definition closer (targetCoord : Coord) (st : float * nat)
  (e : nat * Coord) : float * nat :=
  let distance := calculateDistance (snd e) targetCoord in
  if distance <? fst st then (distance, fst e) else st.

(** [Math.max(1, Math.floor(coordinates.length / 1000))]: the quotient of
    two integers, rounded down. *)
Definition searchStep (coordinates : list Coord) : nat :=
  Nat.max 1 (length coordinates / 1000)%nat.

Definition searchRadius (coordinates : list Coord) : nat :=
  Nat.max 50 (searchStep coordinates * 2)%nat.

(** First pass: every [searchStep]-th entry. *)
Definition coarsePass (coordinates : list Coord) (targetCoord : Coord)
  : float * nat :=
  fold_left (closer targetCoord)
    (filter (fun e => fst e mod searchStep coordinates =? 0)%nat
       (entries coordinates))
    (Number.MAX_VALUE, O).

Definition findClosestPointIndex (coordinates : list Coord)
  (targetCoord : Coord) : nat :=
  let closestIndex := snd (coarsePass coordinates targetCoord) in
  (* Math.max(0, closestIndex - searchRadius): subtraction on [nat] stops
     at 0 *)
  let searchStart := (closestIndex - searchRadius coordinates)%nat in
  let searchEnd :=
    Nat.min (length coordinates)
      (closestIndex + searchRadius coordinates)%nat in
  snd (fold_left (closer targetCoord)
         (slice (entries coordinates) searchStart searchEnd)
         (Number.MAX_VALUE, closestIndex)).

End Geometry.

(** ** Sampling and interpolation *)

Section Sampling.

(** A rational rounded to the nearest integer, halves going up. *)
Definition roundHalfUp (q : Q) : Z := Qfloor (q + (1 # 2)).

(** [Math.round(x)] of a double: the nearest integer, halves going up.  A
    finite double is [v * 2^e] for an integer [v]: with [0 <= e] it is an
    integer already, otherwise the result is
    [floor (v * 2^e + 1/2) = floor ((v + 2^(-e-1)) / 2^(-e))].  Zeros give
    [0]; the sampler never rounds an infinity or a NaN. *)
Definition Math_round (x : float) : Z :=
  match Prim2SF x with
  | S754_finite s m e =>
      let v := if s then Z.neg m else Z.pos m in
      if (0 <=? e)%Z then (v * 2 ^ e)%Z
      else ((v + 2 ^ (- e - 1)) / 2 ^ (- e))%Z
  | _ => 0%Z
  end.

(** The index of the sampler with the quotient and the product taken in
    exact rational arithmetic. *)
Definition exactIndex (len targetPoints i : nat) : nat :=
  let step := (inject_Z (Z.of_nat len - 1) / inject_Z (Z.of_nat targetPoints - 1))%Q in
  Z.to_nat (roundHalfUp (inject_Z (Z.of_nat i) * step)%Q).

(** The index [Math.round(i * step)] with
    [step = (length - 1) / (targetPoints - 1)]: the quotient and the product
    are the two double operations of the source, each rounded; the two
    subtractions are exact on integers.  A JavaScript array has fewer than
    [2^32] elements, and so have [length], [targetPoints] and [i] inside the
    loop; beyond that bound, which no array reaches, the index is taken
    exactly. *)
Definition sampleIndex (len targetPoints i : nat) : nat :=
  if (Z.of_nat len <? 2 ^ 32)%Z then
    let step := (Number.of_nat (len - 1) / Number.of_nat (targetPoints - 1))%float in
    Z.to_nat (Math_round (Number.of_nat i * step)%float)
  else exactIndex len targetPoints i.

(** [coordinates[index]] is read with [nth]: the index lies inside the array
    (lemma [sampleIndex_lt] below), so the default is never returned and no
    slot of the result is [undefined]. *)
Definition intelligentSample {A : Type} (coordinates : list A)
  (targetPoints : nat) : list A :=
  if length coordinates <=? targetPoints then coordinates
  else
    match coordinates with
    | [] => []
    | first :: _ =>
        let result := [first] in
        let result :=
          fold_left
            (fun result i =>
               result ++
               [nth (sampleIndex (length coordinates) targetPoints i)
                  coordinates first])
            (range 1 (targetPoints - 1)) result in
        result ++ [last coordinates first]
    end.

Open Scope float_scope.

Definition steps : nat := 10.

(** The point [[lat, lon]] computed by iteration [i] of the loop of
    [createInterpolatedPath]. *)
Definition interpolatedPoint (startCoords endCoords : Coord) (i : nat) : Coord :=
  let ratio := Number.of_nat i / Number.of_nat steps in
  let lat := fst startCoords + (fst endCoords - fst startCoords) * ratio in
  let lon := snd startCoords + (snd endCoords - snd startCoords) * ratio in
  (lat, lon).

Definition createInterpolatedPath (startCoords endCoords : Coord)
  : list Coord :=
  let path := [startCoords] in
  let path :=
    fold_left
      (fun path i => path ++ [interpolatedPoint startCoords endCoords i])
      (range 1 steps) path in
  path ++ [endCoords].

End Sampling.

(** ** The matcher *)

(** The two files differ in what they do with the end points of a matched
    path: [unnamed/part_000] overwrites them with the target coordinates,
    [scripts/main.js] keeps the recorded ones. *)
Inductive Variant : Type :=
| part_000
| main_js.

(** An element of the array made by [findNearbyIndices]. *)
Record Nearby : Type := mkNearby { index : nat; nb_distance : float }.

Section Matcher.

Open Scope float_scope.

Variable variant : Variant.

(** [finalPath[0] = targetStart; finalPath[finalPath.length - 1] = targetEnd]
    in [unnamed/part_000]; nothing in [scripts/main.js]. *)
Definition adjustEndpoints (path : list Coord) (targetStart targetEnd : Coord)
  : list Coord :=
  match variant with
  | part_000 =>
      let path := assign path 0 targetStart in
      assign path (length path - 1) targetEnd
  | main_js => path
  end.

Definition windingRatio (finalPath : list Coord) (targetStart targetEnd : Coord)
  : float :=
  let straightDistance := calculateDistance targetStart targetEnd in
  let trailDistance := calculateTotalDistance finalPath in
  trailDistance / straightDistance.

(** [gpxCoords.slice(startIdx, endIdx + 1)] once the two indices are put
    in order. *)
Definition rawGpsSegment (gpxCoords : list Coord) (startIdx endIdx : nat)
  : list Coord :=
  let '(startIdx, endIdx) :=
    if (endIdx <? startIdx)%nat then (endIdx, startIdx)
    else (startIdx, endIdx) in
  slice gpxCoords startIdx (endIdx + 1).

(** The candidate whose winding is tested: the raw segment, sampled when
    it has more than 300 points, with its end points treated as the
    variant does. *)
Definition finalPath (rawGpsSegment : list Coord)
  (targetStart targetEnd : Coord) : list Coord :=
  let finalPath :=
    if (300 <? length rawGpsSegment)%nat
    then intelligentSample rawGpsSegment 200
    else rawGpsSegment in
  adjustEndpoints finalPath targetStart targetEnd.

(** [None] is the [null] the function returns for a rejected candidate. *)
Definition extractGpsTrackBetweenPoints (gpxCoords : list Coord)
  (startIdx endIdx : nat) (targetStart targetEnd : Coord)
  : option (list Coord) :=
  let rawGpsSegment := rawGpsSegment gpxCoords startIdx endIdx in
  if (length rawGpsSegment <? 2)%nat then None
  else
    let finalPath := finalPath rawGpsSegment targetStart targetEnd in
    let windingRatio := windingRatio finalPath targetStart targetEnd in
    if Number.gtb windingRatio 0.5 && (windingRatio <? 10)
    then Some finalPath
    else None.

(** The index pairs of the nested loops of [findSegmentByDistance], in the
    order the loops visit them. *)
Definition distancePairs (n : nat) : list (nat * nat) :=
  flat_map (fun i => map (pair i) (range (i + 10) n)) (range 0 (n - 10)).

(** [calculateDistance(startCoords, endCoords) * 111000]. *)
Definition targetDistance (startCoords endCoords : Coord) : float :=
  calculateDistance startCoords endCoords * 111000.

(** The relative error of the distance covered between indices [i] and [j].
    A read past the end of the array is [undefined], which the subtraction
    turns into [NaN]. *)
Definition distanceRatio (cumulativeDistances : list float)
  (targetDistance : float) (i j : nat) : float :=
  let segmentDistance :=
    nth j cumulativeDistances nan - nth i cumulativeDistances nan in
  Number.abs (segmentDistance - targetDistance) / targetDistance.

(** [points.slice(i, j + 1).map(p => [p.lat, p.lon])]. *)
Definition segmentCoords (points : list GpxPoint) (i j : nat) : list Coord :=
  map coordOf (slice points i (j + 1)).

(** The test at which the loops of [findSegmentByDistance] return: within 50%
    of the target distance, with a slice of two points or more. *)
Definition budgetHit (track : Track) (startCoords endCoords : Coord)
  (ij : nat * nat) : bool :=
  (distanceRatio (cumul (distance track))
     (targetDistance startCoords endCoords) (fst ij) (snd ij) <? 0.5)
  && (2 <=? length (segmentCoords (points track) (fst ij) (snd ij)))%nat.

Definition findSegmentByDistance (track : Track)
  (startCoords endCoords : Coord) : option (list Coord) :=
  let points := points track in
  let cumulativeDistances := cumul (distance track) in
  if negb (length cumulativeDistances =? length points)%nat then None
  else
    match find (budgetHit track startCoords endCoords)
            (distancePairs (length points)) with
    | Some (i, j) =>
        Some (adjustEndpoints (segmentCoords points i j) startCoords endCoords)
    | None => None
    end.

(** [options.sort((a, b) => a.distance - b.distance)]: a stable sort;
    [a] goes after [b] when the difference is positive. *)
Fixpoint insertNearby (a : Nearby) (sorted : list Nearby) : list Nearby :=
  match sorted with
  | [] => [a]
  | b :: rest =>
      if 0 <? nb_distance a - nb_distance b
      then b :: insertNearby a rest
      else a :: sorted
  end.

Definition sortNearby (options : list Nearby) : list Nearby :=
  fold_right insertNearby [] options.

Definition findNearbyIndices (gpxCoords : list Coord) (targetCoord : Coord)
  (maxDistance : float) : list Nearby :=
  let options :=
    fold_left
      (fun options e =>
         let distance := calculateDistance (snd e) targetCoord in
         if distance <=? maxDistance
         then options ++ [mkNearby (fst e) distance]
         else options)
      (entries gpxCoords) [] in
  sortNearby options.

Definition maxDistance : float := 3.0.

(** Approach 2: the double loop over the nearby start and end points; the
    state is [(bestPath, bestScore)]. *)
Definition bestCombination (gpxCoords : list Coord)
  (nearbyStartPoints nearbyEndPoints : list Nearby)
  (startCoords endCoords : Coord) : option (list Coord) * float :=
  fold_left
    (fun best startPoint =>
       fold_left
         (fun best endPoint =>
            if negb (index startPoint =? index endPoint)%nat then
              match extractGpsTrackBetweenPoints gpxCoords
                      (index startPoint) (index endPoint)
                      startCoords endCoords with
              | Some path =>
                  if (2 <=? length path)%nat then
                    let score := nb_distance startPoint + nb_distance endPoint in
                    if score <? snd best then (Some path, score) else best
                  else best
              | None => best
              end
            else best)
         nearbyEndPoints best)
    nearbyStartPoints (None, Number.MAX_VALUE).

(** Approach 3, reading the global parser. *)
Definition distanceApproach (g : Globals) (startCoords endCoords : Coord)
  : Completion (option (list Coord)) :=
  match trailGpxParser g with
  | None => TypeError
  | Some parser =>
      track <- read (tracks parser) 0 ;;
      Normal (findSegmentByDistance track startCoords endCoords)
  end.

Definition findGpxSegmentForCoordinates (g : Globals)
  (allPoints : list GpxPoint) (startCoords endCoords : Coord)
  : Completion (option (list Coord)) :=
  let gpxCoords := map coordOf allPoints in
  let bestStartIdx := findClosestPointIndex gpxCoords startCoords in
  let bestEndIdx := findClosestPointIndex gpxCoords endCoords in
  closestStart <- read gpxCoords bestStartIdx ;;
  closestEnd <- read gpxCoords bestEndIdx ;;
  let startDist := calculateDistance closestStart startCoords in
  let endDist := calculateDistance closestEnd endCoords in
  if (startDist <=? maxDistance) && (endDist <=? maxDistance) then
    Normal (extractGpsTrackBetweenPoints gpxCoords bestStartIdx bestEndIdx
              startCoords endCoords)
  else
    let nearbyStartPoints :=
      firstn 5 (findNearbyIndices gpxCoords startCoords maxDistance) in
    let nearbyEndPoints :=
      firstn 5 (findNearbyIndices gpxCoords endCoords maxDistance) in
    match
      (if (0 <? length nearbyStartPoints)%nat && (0 <? length nearbyEndPoints)%nat
       then fst (bestCombination gpxCoords nearbyStartPoints nearbyEndPoints
                   startCoords endCoords)
       else None)
    with
    | Some bestPath => Normal (Some bestPath)
    | None => distanceApproach g startCoords endCoords
    end.

End Matcher.

(** ** The assembler *)

Definition buildSegmentObject (rd : RouteSegment) (index : nat)
  (coords : list Coord) (startCoords endCoords : Coord) : Segment :=
  {| id := index + 1;
     seg_name := name rd;
     seg_start_location := start_location rd;
     seg_finish_location := finish_location rd;
     seg_distance := rd_distance rd;
     seg_notes := notes rd;
     coordinates := coords;
     startCoords := startCoords;
     endCoords := endCoords |}.

Definition startCoordsOf (segment : RouteSegment) : Coord :=
  (latitude (start_coords segment), longitude (start_coords segment)).

Definition endCoordsOf (segment : RouteSegment) : Coord :=
  (latitude (finish_coords segment), longitude (finish_coords segment)).

(** The segment made when no GPS path is used. *)
Definition interpolatedSegment (segment : RouteSegment) (index : nat) : Segment :=
  let startCoords := startCoordsOf segment in
  let endCoords := endCoordsOf segment in
  buildSegmentObject segment index
    (createInterpolatedPath startCoords endCoords) startCoords endCoords.

(** The branch taken when no GPX data is available: [routeData.map(...)] and
    an early [return], before any counter exists. *)
Definition withoutGpx (routeData : list RouteSegment) : Outcome :=
  {| coloradoTrailSegments :=
       map (fun e => interpolatedSegment (snd e) (fst e)) (entries routeData);
     summary := None |}.

(** The state of the main loop of [processSegmentData]. *)
Record Tally : Type := mkTally {
  segments : list Segment;
  matched : nat;
  interpolated : nat
}.

Definition summarize (t : Tally) : Outcome :=
  {| coloradoTrailSegments := segments t;
     summary :=
       Some {| gpxMatchCount := matched t;
               interpolatedCount := interpolated t;
               coverage :=
                 (Number.of_nat (matched t) / Number.of_nat (length (segments t))
                  * 100)%float |} |}.

Definition pushMatched (t : Tally) (s : Segment) : Tally :=
  {| segments := segments t ++ [s];
     matched := matched t + 1;
     interpolated := interpolated t |}.

Definition pushInterpolated (t : Tally) (s : Segment) : Tally :=
  {| segments := segments t ++ [s];
     matched := matched t;
     interpolated := interpolated t + 1 |}.

Module Part000.

(** One iteration of the loop over [routeData]. *)
Definition processOne (g : Globals) (allPoints : list GpxPoint)
  (acc : Completion Tally) (e : nat * RouteSegment) : Completion Tally :=
  t <- acc ;;
  let '(i, segmentData) := e in
  let startCoords := startCoordsOf segmentData in
  let endCoords := endCoordsOf segmentData in
  segmentPath <-
    findGpxSegmentForCoordinates part_000 g allPoints startCoords endCoords ;;
  match segmentPath with
  | Some (first :: rest) =>
      if 2 <=? length (first :: rest) then
        Normal (pushMatched t
                  (buildSegmentObject segmentData i (first :: rest) first
                     (last rest first)))
      else Normal (pushInterpolated t (interpolatedSegment segmentData i))
  | _ => Normal (pushInterpolated t (interpolatedSegment segmentData i))
  end.

Definition processSegmentData (g : Globals) (routeData : list RouteSegment)
  : Completion Outcome :=
  match trailGpxParser g with
  | None => Normal (withoutGpx routeData)
  | Some parser =>
      if length (gpxTrailPoints g) =? 0 then Normal (withoutGpx routeData)
      else
        track <- read (tracks parser) 0 ;;
        let allPoints := points track in
        (* the expressions logged before the loop *)
        _ <- read allPoints 0 ;;
        _ <- read allPoints (length allPoints - 1) ;;
        _ <- read routeData 0 ;;
        _ <- read routeData (length routeData - 1) ;;
        t <- fold_left (processOne g allPoints) (entries routeData)
               (Normal (mkTally [] 0 0)) ;;
        Normal (summarize t)
  end.

End Part000.

Module MainJs.

Open Scope string_scope.

Definition SEGMENT_ORDER : list string :=
  ["01"; "02"; "03"; "04"; "05"; "06"; "07"; "08"; "09"; "10"; "11";
   "CW01"; "CW02"; "CW03"; "CW05"].

(** [toLowerCase] on the ASCII letters, which is all that a comparison
    with the entries of [SEGMENT_ORDER] can see. *)
Definition lowerAscii (c : ascii) : ascii :=
  let n := nat_of_ascii c in
  if ((65 <=? n) && (n <=? 90))%nat then ascii_of_nat (n + 32)%nat else c.

Fixpoint toLowerCase (s : string) : string :=
  match s with
  | EmptyString => EmptyString
  | String c s' => String (lowerAscii c) (toLowerCase s')
  end.

Definition startsWith (s searchString : string) : bool :=
  String.prefix searchString s.

Record TrackMapping : Type := mkTrackMapping {
  gpxTrackIndex : nat;
  tm_name : option string;
  segmentNumber : string
}.

(** [track.name && track.name.toLowerCase().startsWith(...)]. *)
Definition nameMatches (targetSegment : string) (e : nat * Track) : bool :=
  match track_name (snd e) with
  | Some n =>
      negb (String.eqb n "") &&
      startsWith (toLowerCase n) (toLowerCase targetSegment)
  | None => false
  end.

(** One entry per element of [SEGMENT_ORDER]; [None] is the pushed
    [null]. *)
Definition CORRECT_TRACK_ORDER (parser : GpxParser)
  : list (option TrackMapping) :=
  map (fun targetSegment =>
         match find (nameMatches targetSegment) (entries (tracks parser)) with
         | Some (foundTrackIndex, track) =>
             Some (mkTrackMapping foundTrackIndex (track_name track)
                     targetSegment)
         | None => None
         end)
    SEGMENT_ORDER.

(** One iteration of the loop over [routeData]. *)
Definition processOne (parser : GpxParser) (t : Tally)
  (e : nat * RouteSegment) : Tally :=
  let '(i, segmentData) := e in
  let trackMapping :=
    match nth_error (CORRECT_TRACK_ORDER parser) i with
    | Some (Some m) => Some m
    | _ => None
    end in
  match trackMapping with
  | Some m =>
      match nth_error (tracks parser) (gpxTrackIndex m) with
      | Some gpxTrack =>
          let trackCoords := map coordOf (points gpxTrack) in
          match trackCoords with
          | gpxStartCoords :: rest =>
              if (2 <=? length trackCoords)%nat then
                pushMatched t
                  (buildSegmentObject segmentData i trackCoords
                     gpxStartCoords (last rest gpxStartCoords))
              else pushInterpolated t (interpolatedSegment segmentData i)
          | [] => pushInterpolated t (interpolatedSegment segmentData i)
          end
      | None => pushInterpolated t (interpolatedSegment segmentData i)
      end
  | None => pushInterpolated t (interpolatedSegment segmentData i)
  end.

Definition processSegmentData (g : Globals) (routeData : list RouteSegment)
  : Completion Outcome :=
  match trailGpxParser g with
  | None => Normal (withoutGpx routeData)
  | Some parser =>
      Normal (summarize
                (fold_left (processOne parser) (entries routeData)
                   (mkTally [] 0 0)))
  end.

End MainJs.

(** ** Waypoints ([scripts/main.js]) *)

(** A waypoint of the parsed GPX file. *)
Record Waypoint : Type := mkWaypoint {
  wp_name : option string;
  wp_lat : float;
  wp_lon : float
}.

Section Waypoints.

Open Scope float_scope.

(** The module-level variables, and [trailGpxParser.waypoints], which the
    record [GpxParser] does not carry: it is read only once the parser object
    is known to exist. *)
Variable g : Globals.
Variable waypoints : list Waypoint.

(** One iteration of the loop of [findClosestWaypoint]; the state is
    [(closest, minDistance)]. *)
Definition closerWaypoint (targetCoords : Coord)
  (st : option Waypoint * float) (waypoint : Waypoint)
  : option Waypoint * float :=
  let distance :=
    calculateDistance (wp_lat waypoint, wp_lon waypoint) targetCoords in
  if distance <? snd st then (Some waypoint, distance) else st.

(** The loop of [findClosestWaypoint] and its final test. *)
Definition closestWaypoint (targetCoords : Coord) : option Waypoint :=
  let '(closest, minDistance) :=
    fold_left (closerWaypoint targetCoords) waypoints
      (None, Number.MAX_VALUE) in
  if minDistance <? 0.5 then closest else None.

Definition findClosestWaypoint (targetCoords : Coord)
  : Completion (option Waypoint) :=
  match trailGpxParser g with
  | None => TypeError
  | Some _ =>
      if (length waypoints =? 0)%nat then Normal None
      else Normal (closestWaypoint targetCoords)
  end.

Definition extractSegmentUsingWaypoints (startCoords endCoords : Coord)
  : Completion (option (list Coord)) :=
  match trailGpxParser g with
  | None => TypeError
  | Some parser =>
      match tracks parser with
      | [] => Normal None
      | mainTrack :: _ =>
          if (length (points mainTrack) =? 0)%nat then Normal None
          else
            let trackCoords := map coordOf (points mainTrack) in
            startWaypoint <- findClosestWaypoint startCoords ;;
            endWaypoint <- findClosestWaypoint endCoords ;;
            let fallback :=
              findGpxSegmentForCoordinates main_js g (points mainTrack)
                startCoords endCoords in
            match startWaypoint, endWaypoint with
            | Some startWaypoint, Some endWaypoint =>
                let startIdx :=
                  findClosestPointIndex trackCoords
                    (wp_lat startWaypoint, wp_lon startWaypoint) in
                let endIdx :=
                  findClosestPointIndex trackCoords
                    (wp_lat endWaypoint, wp_lon endWaypoint) in
                if (startIdx <? endIdx)%nat then
                  let segmentPath := slice trackCoords startIdx (endIdx + 1) in
                  (* the two end points are logged *)
                  _ <- read segmentPath 0 ;;
                  _ <- read segmentPath (length segmentPath - 1) ;;
                  Normal (Some segmentPath)
                else fallback
            | _, _ => fallback
            end
      end
  end.

End Waypoints.

(** ** Great-circle distances *)

Section Haversine.

Open Scope float_scope.

(** The trigonometric functions of the engine. *)
Variable Math_sin : float -> float.
Variable Math_cos : float -> float.
Variable Math_asin : float -> float.

(** [Math.PI]. *)
Definition Math_PI : float := 0x1.921fb54442d18p+1.

(** [Math.min(a, b)]: [NaN] when an argument is [NaN], and [-0] below
    [+0]. *)
Definition Math_min (a b : float) : float :=
  if is_nan a || is_nan b then nan
  else if b <? a then b
  else if a <? b then a
  else if get_sign a then a else b.

Definition toRad (d : float) : float := d * Math_PI / 180.

Definition haversineMeters (a b : Coord) : float :=
  let R := 6371000 in
  let dLat := toRad (fst b - fst a) in
  let dLon := toRad (snd b - snd a) in
  let lat1 := toRad (fst a) in
  let lat2 := toRad (fst b) in
  let s :=
    Number.pow2 (Math_sin (dLat / 2))
    + Math_cos lat1 * Math_cos lat2 * Number.pow2 (Math_sin (dLon / 2)) in
  2 * R * Math_asin (Math_min 1 (sqrt s)).

(** The iteration [i] of the loop of [computeCumulativeMeters], for the step
    from [coords[i - 1]] to [coords[i]]: [e] is [(i - 1, (coords[i - 1],
    coords[i]))].  A read of [cum] past its end is [undefined], [NaN] in the
    sum. *)
Definition accumulate (cum : list float) (e : nat * (Coord * Coord))
  : list float :=
  assign cum (fst e + 1)
    (nth (fst e) cum nan + haversineMeters (fst (snd e)) (snd (snd e))).

Definition computeCumulativeMeters (coords : list Coord) : list float :=
  if (length coords =? 0)%nat then []
  else
    let cum := repeat 0 (length coords) in
    fold_left accumulate (entries (combine coords (tl coords))) cum.

End Haversine.

(** ** Presentation: colours, elevation figures and the elevation chart *)

Section Presentation.

Open Scope float_scope.

Definition colors : list string :=
  ["#4CAF50"; "#2196F3"; "#FF9800"; "#9C27B0"; "#F44336";
   "#009688"; "#795548"; "#607D8B"; "#E91E63"; "#3F51B5";
   "#8BC34A"; "#FFC107"; "#673AB7"; "#00BCD4"; "#FF5722"]%string.

(** [colors[index % colors.length]]; [None] is [undefined]. *)
Definition getSegmentColor (index : nat) : option string :=
  nth_error colors (index mod length colors).

Record Elevation : Type := mkElevation {
  gain : float;
  loss : float;
  minElevation : float;
  maxElevation : float
}.

(** [elevationData[segmentId] || {...}] for a segment identifier that is a
    natural number.  The two files differ in the entry of segment 15. *)
Definition getSegmentElevationData (variant : Variant) (segmentId : nat)
  : Elevation :=
  match segmentId with
  | 1 => mkElevation 1580 760 5440 6280
  | 2 => mkElevation 2390 980 5520 7040
  | 3 => mkElevation 1980 1540 6120 7760
  | 4 => mkElevation 2980 2240 6520 8920
  | 5 => mkElevation 2440 1900 7280 10040
  | 6 => mkElevation 4200 3680 8400 12040
  | 7 => mkElevation 1840 2420 9200 11760
  | 8 => mkElevation 3280 2680 9600 12600
  | 9 => mkElevation 2180 2540 9840 12460
  | 10 => mkElevation 1940 2100 9600 11920
  | 11 => mkElevation 3420 2980 9200 12600
  | 12 => mkElevation 2680 3180 8800 11680
  | 13 => mkElevation 3840 3240 8400 12200
  | 14 => mkElevation 2280 3680 7800 10840
  | 15 =>
      match variant with
      | part_000 => mkElevation 1680 1480 8200 10120
      | main_js => mkElevation 1680 2180 8200 11200
      end
  | _ => mkElevation 2000 1500 8000 10000
  end%nat.

Definition chartHeight : float := 120.
Definition chartWidth : float := 280.
Definition numPoints : nat := 20.

(** The pair [(x, y)] computed by iteration [i] of the loop of
    [createElevationChart], before it is formatted into the path of the
    drawing. *)
Definition chartPoint (elevation : Elevation) (i : nat) : float * float :=
  let minElevation := minElevation elevation in
  let maxElevation := maxElevation elevation in
  let elevationRange := maxElevation - minElevation in
  let progress := Number.of_nat i / Number.of_nat numPoints in
  let elevationAtPoint :=
    if progress <? 0.6
    then minElevation + (maxElevation - minElevation) * (progress / 0.6)
    else maxElevation
         - (maxElevation - minElevation) * ((progress - 0.6) / 0.4) * 0.7 in
  let x := progress * chartWidth in
  let y :=
    chartHeight - ((elevationAtPoint - minElevation) / elevationRange)
                  * chartHeight in
  (x, y).

(** The points of the profile, for [i] from [0] to [numPoints]. *)
Definition chartPoints (elevation : Elevation) : list (float * float) :=
  map (chartPoint elevation) (range 0 (numPoints + 1)).

End Presentation.

(** ** Tracks and routes used as examples *)


(** A short track along a meridian, recorded a little inside the targets
    [(0, 0)] and [(0, 1)]. *)
Definition straightTrack : list GpxPoint :=
  [mkGpxPoint 0 0.125; mkGpxPoint 0 0.5; mkGpxPoint 0 0.875]%float.

(** A track of eleven points going north along a meridian, a hundredth of
    a degree apart, with the cumulative distances in metres a GPX parser
    gives for it (about 1111.95 m for each step). *)
Definition meridianTrack : Track :=
  {| track_name := Some "Colorado Trail"%string;
     points :=
       [mkGpxPoint 40.00 (-105); mkGpxPoint 40.01 (-105);
        mkGpxPoint 40.02 (-105); mkGpxPoint 40.03 (-105);
        mkGpxPoint 40.04 (-105); mkGpxPoint 40.05 (-105);
        mkGpxPoint 40.06 (-105); mkGpxPoint 40.07 (-105);
        mkGpxPoint 40.08 (-105); mkGpxPoint 40.09 (-105);
        mkGpxPoint 40.10 (-105)]%float;
     distance :=
       {| total := 11119.5%float;
          cumul :=
            [0; 1111.95; 2223.9; 3335.85; 4447.8; 5559.75; 6671.7; 7783.65;
             8895.6; 10007.55; 11119.5]%float |} |}.

(** The module-level variables once that track is loaded. *)
Definition meridianGlobals : Globals :=
  {| trailGpxParser := Some {| tracks := [meridianTrack] |};
     gpxTrailPoints := map coordOf (points meridianTrack) |}.

(** Four recorded points with a detour: from the origin twenty degrees out
    and back to one degree, then to an eighth of a degree. *)
Definition detourTrack : list GpxPoint :=
  [mkGpxPoint 0 0; mkGpxPoint 0 20; mkGpxPoint 0 1; mkGpxPoint 0 0.125]%float.

(** The module-level variables once that track is loaded, with the
    cumulative distances in metres along the equator. *)
Definition detourGlobals : Globals :=
  {| trailGpxParser :=
       Some {| tracks :=
                 [{| track_name := Some "Colorado Trail"%string;
                     points := detourTrack;
                     distance :=
                       {| total := 4433897.1%float;
                          cumul := [0; 2223898.5; 4336601.6; 4433897.1]%float |}
                  |}] |};
     gpxTrailPoints := map coordOf detourTrack |}.

(** Three entries of a route file. *)
Definition exampleRoute : list RouteSegment :=
  [ {| name := "Waterton Canyon to South Platte River";
       start_location := "Waterton Canyon Trailhead";
       finish_location := "South Platte River Trailhead";
       rd_distance := 16.8%float; notes := "";
       start_coords := {| latitude := 39.491%float; longitude := (-105.094)%float |};
       finish_coords := {| latitude := 39.401%float; longitude := (-105.172)%float |} |};
    {| name := "South Platte River to Little Scraggy";
       start_location := "South Platte River Trailhead";
       finish_location := "Little Scraggy Trailhead";
       rd_distance := 11.5%float; notes := "";
       start_coords := {| latitude := 39.401%float; longitude := (-105.172)%float |};
       finish_coords := {| latitude := 39.345%float; longitude := (-105.257)%float |} |};
    {| name := "Little Scraggy to Rolling Creek";
       start_location := "Little Scraggy Trailhead";
       finish_location := "Rolling Creek Trailhead";
       rd_distance := 12.2%float; notes := "";
       start_coords := {| latitude := 39.345%float; longitude := (-105.257)%float |};
       finish_coords := {| latitude := 39.339%float; longitude := (-105.384)%float |} |} ]%string.

(** ** Vocabulary of the statements *)

(** The first and the last point of a path. *)
Definition firstPoint (path : list Coord) : option Coord := nth_error path 0.

Definition lastPoint (path : list Coord) : option Coord :=
  nth_error path (length path - 1).

(** The end points of [path] are two recorded points of [pts], in track
    order. *)
Definition recordedEndpoints (pts : list GpxPoint) (path : list Coord) : Prop :=
  exists i j, i < j < length pts /\
    firstPoint path = option_map coordOf (nth_error pts i) /\
    lastPoint path = option_map coordOf (nth_error pts j).

(** The track read by approach 3: [trailGpxParser.tracks[0]]. *)
Definition firstTrack (g : Globals) : option Track :=
  match trailGpxParser g with
  | Some parser => nth_error (tracks parser) 0
  | None => None
  end.

(** Classes of doubles that make the winding ratio a division by zero. *)
Definition zero_or_nan (x : float) : Prop :=
  Prim2SF x = S754_zero false \/ Prim2SF x = S754_nan.

(** The planar distance of an entry to the target. *)
Definition entryDistance (targetCoord : Coord) (e : nat * Coord) : float :=
  calculateDistance (snd e) targetCoord.

(** Every distance is a number below the initial [Number.MAX_VALUE]. *)
Definition validDistances (targetCoord : Coord) (coordinates : list Coord)
  : Prop :=
  Forall
    (fun c => (calculateDistance c targetCoord <? Number.MAX_VALUE)%float = true)
    coordinates.

(** What a scan over [l] started in state [st0] guarantees of its final
    state. *)
Definition scanned (targetCoord : Coord) (l : list (nat * Coord))
  (st0 st : float * nat) : Prop :=
  is_number (fst st) /\
  (forall e, In e l ->
     (fst st <=? entryDistance targetCoord e)%float = true) /\
  (st = st0 \/ exists e, In e l /\ st = (entryDistance targetCoord e, fst e)).

(** The segment [seg] carries the identifier of position [i] and the
    descriptive fields of [spec]. *)
Definition describes (seg : Segment) (i : nat) (spec : RouteSegment) : Prop :=
  id seg = i + 1 /\
  seg_name seg = name spec /\
  seg_start_location seg = start_location spec /\
  seg_finish_location seg = finish_location spec /\
  seg_distance seg = rd_distance spec /\
  seg_notes seg = notes spec.

(** The tally of a finished loop over [routeData]: one segment for each
    entry, at the same position, each counted once, as matched or as
    interpolated. *)
Definition assembled (routeData : list RouteSegment) (t : Tally) : Prop :=
  length (segments t) = length routeData /\
  matched t + interpolated t = length routeData /\
  forall i spec, nth_error routeData i = Some spec ->
    exists seg, nth_error (segments t) i = Some seg /\ describes seg i spec.

(** One iteration pushes one segment for its entry and counts it once. *)
Definition pushesOne
  (step : Completion Tally -> nat * RouteSegment -> Completion Tally) : Prop :=
  forall t i spec,
    exists seg, describes seg i spec /\
      (step (Normal t) (i, spec) = Normal (pushMatched t seg) \/
       step (Normal t) (i, spec) = Normal (pushInterpolated t seg)).

(** A double that is [NaN] or has a clear sign bit: [+0], a positive number
    or positive infinity. *)
Definition sf_not_negative (x : spec_float) : Prop :=
  match x with
  | S754_zero s | S754_infinity s | S754_finite s _ _ => s = false
  | S754_nan => True
  end.

Definition not_negative (x : float) : Prop := sf_not_negative (Prim2SF x).

(** The element pushed by [findNearbyIndices] for an entry of the track, and
    the test under which it is pushed. *)
Definition nearbyOf (targetCoord : Coord) (e : nat * Coord) : Nearby :=
  mkNearby (fst e) (calculateDistance (snd e) targetCoord).

Definition withinTolerance (targetCoord : Coord) (tolerance : float)
  (e : nat * Coord) : bool :=
  (calculateDistance (snd e) targetCoord <=? tolerance)%float.

(** [startPoint.distance + endPoint.distance], the score of a combination of
    approach 2. *)
Definition combinationScore (q : Nearby * Nearby) : float :=
  (nb_distance (fst q) + nb_distance (snd q))%float.

(** The track [scripts/main.js] maps to the route entry at position [i]: the
    first track of the parser whose name, in lower case, starts with
    [SEGMENT_ORDER[i]] in lower case. *)
Definition namedTrack (parser : GpxParser) (i : nat) : option Track :=
  match nth_error MainJs.SEGMENT_ORDER i with
  | Some targetSegment =>
      option_map snd
        (find (MainJs.nameMatches targetSegment) (entries (tracks parser)))
  | None => None
  end.

(** The steps of a loop that pushes, for the entry [(i, spec)], one segment
    with the property [Q i spec]. *)
Definition pushesEach (Q : nat -> RouteSegment -> Segment -> Prop)
  (step : Completion Tally -> nat * RouteSegment -> Completion Tally) : Prop :=
  forall t i spec,
    exists seg, Q i spec seg /\
      (step (Normal t) (i, spec) = Normal (pushMatched t seg) \/
       step (Normal t) (i, spec) = Normal (pushInterpolated t seg)).

(** The planar distance of a waypoint to the target. *)
Definition waypointDistance (targetCoords : Coord) (waypoint : Waypoint)
  : float :=
  calculateDistance (wp_lat waypoint, wp_lon waypoint) targetCoords.

(** The point lies in the frame of the drawing, [chartWidth] wide and
    [chartHeight] high. *)
Definition inFrame (p : float * float) : bool :=
  ((0 <=? fst p) && (fst p <=? chartWidth)
   && (0 <=? snd p) && (snd p <=? chartHeight))%float.

(** Every elevation record the lookup can return. *)
Definition elevationRecords : list Elevation :=
  map (getSegmentElevationData part_000) (range 0 17)
  ++ map (getSegmentElevationData main_js) (range 0 17).

(** The positions read by the sampler in an array longer than the target
    count: the first index, the rounded index of every inner slot, the last
    index. *)
Definition samplePositions (len targetPoints : nat) : list nat :=
  0 :: map (sampleIndex len targetPoints) (range 1 (targetPoints - 1))
       ++ [len - 1].

(** * Properties *)

(** ** Order facts about doubles, from the specification of the primitives *)

Section FloatOrder.

Open Scope Z_scope.

Lemma rank_None a : rank a = None -> a = S754_nan.
Proof. destruct a as [s|s| |s m e]; try destruct s; now simpl. Qed.

Lemma SFcompare_rank a b ra rb :
  rank a = Some ra -> rank b = Some rb ->
  SFcompare a b = Some (lexcmp ra rb).
Proof.
  destruct a as [sa|sa| |sa ma ea], b as [sb|sb| |sb mb eb];
    try discriminate; simpl;
    try destruct sa; try destruct sb; simpl;
    intros [= <-] [= <-]; simpl; try reflexivity.
  rewrite Z.compare_opp, (Z.compare_antisym ea eb).
  destruct (ea ?= eb); reflexivity.
Qed.

Lemma lexcmp_refl a : lexcmp a a = Eq.
Proof. destruct a as [[a1 a2] a3]; simpl. now rewrite !Z.compare_refl. Qed.

Lemma lexcmp_cases a b :
  let '(a1, a2, a3) := a in
  let '(b1, b2, b3) := b in
  (lexcmp a b = Lt /\
     (a1 < b1 \/ (a1 = b1 /\ a2 < b2) \/ (a1 = b1 /\ a2 = b2 /\ a3 < b3))) \/
  (lexcmp a b = Eq /\ a1 = b1 /\ a2 = b2 /\ a3 = b3) \/
  (lexcmp a b = Gt /\
     (b1 < a1 \/ (a1 = b1 /\ b2 < a2) \/ (a1 = b1 /\ a2 = b2 /\ b3 < a3))).
Proof.
  destruct a as [[a1 a2] a3], b as [[b1 b2] b3]; simpl.
  destruct (Z.compare_spec a1 b1); [|left; split; [reflexivity | lia]
                                    |right; right; split; [reflexivity | lia]].
  destruct (Z.compare_spec a2 b2); [|left; split; [reflexivity | lia]
                                    |right; right; split; [reflexivity | lia]].
  destruct (Z.compare_spec a3 b3); [right; left; split; [reflexivity | lia]
                                    |left; split; [reflexivity | lia]
                                    |right; right; split; [reflexivity | lia]].
Qed.

Lemma lexcmp_lt_trans a b c :
  lexcmp a b = Lt -> lexcmp b c <> Gt -> lexcmp a c = Lt.
Proof.
  pose proof (lexcmp_cases a b) as Hab.
  pose proof (lexcmp_cases b c) as Hbc.
  pose proof (lexcmp_cases a c) as Hac.
  destruct a as [[a1 a2] a3], b as [[b1 b2] b3], c as [[c1 c2] c3].
  intros H1 H2.
  destruct Hab as [[E1 P1]|[[E1 P1]|[E1 P1]]]; try congruence.
  destruct Hbc as [[E2 P2]|[[E2 P2]|[E2 P2]]]; try congruence;
    destruct Hac as [[E3 P3]|[[E3 P3]|[E3 P3]]]; try assumption; exfalso; lia.
Qed.

Lemma lexcmp_le_lt_trans a b c :
  lexcmp a b <> Gt -> lexcmp b c = Lt -> lexcmp a c = Lt.
Proof.
  pose proof (lexcmp_cases a b) as Hab.
  pose proof (lexcmp_cases b c) as Hbc.
  pose proof (lexcmp_cases a c) as Hac.
  destruct a as [[a1 a2] a3], b as [[b1 b2] b3], c as [[c1 c2] c3].
  intros H1 H2.
  destruct Hbc as [[E2 P2]|[[E2 P2]|[E2 P2]]]; try congruence.
  destruct Hab as [[E1 P1]|[[E1 P1]|[E1 P1]]]; try congruence;
    destruct Hac as [[E3 P3]|[[E3 P3]|[E3 P3]]]; try assumption; exfalso; lia.
Qed.

Lemma lexcmp_le_trans a b c :
  lexcmp a b <> Gt -> lexcmp b c <> Gt -> lexcmp a c <> Gt.
Proof.
  pose proof (lexcmp_cases a b) as Hab.
  pose proof (lexcmp_cases b c) as Hbc.
  pose proof (lexcmp_cases a c) as Hac.
  destruct a as [[a1 a2] a3], b as [[b1 b2] b3], c as [[c1 c2] c3].
  intros H1 H2.
  destruct Hab as [[E1 P1]|[[E1 P1]|[E1 P1]]]; try congruence;
    destruct Hbc as [[E2 P2]|[[E2 P2]|[E2 P2]]]; try congruence;
    destruct Hac as [[E3 P3]|[[E3 P3]|[E3 P3]]]; try congruence; exfalso; lia.
Qed.

Lemma lexcmp_antisym a b : lexcmp b a = CompOpp (lexcmp a b).
Proof.
  destruct a as [[a1 a2] a3], b as [[b1 b2] b3]; simpl.
  rewrite (Z.compare_antisym a1 b1), (Z.compare_antisym a2 b2),
    (Z.compare_antisym a3 b3).
  destruct (a1 ?= b1), (a2 ?= b2), (a3 ?= b3); reflexivity.
Qed.

Open Scope float_scope.

Lemma is_number_rank x : is_number x -> exists r, rank (Prim2SF x) = Some r.
Proof.
  unfold is_number. destruct (rank (Prim2SF x)) as [r|]; [eauto | congruence].
Qed.

Lemma ltb_rank x y :
  (x <? y) = true <->
  exists rx ry, rank (Prim2SF x) = Some rx /\ rank (Prim2SF y) = Some ry /\
                lexcmp rx ry = Lt.
Proof.
  rewrite ltb_spec. unfold SFltb. split.
  - destruct (rank (Prim2SF x)) as [rx|] eqn:Ex.
    + destruct (rank (Prim2SF y)) as [ry|] eqn:Ey.
      * rewrite (SFcompare_rank _ _ _ _ Ex Ey).
        destruct (lexcmp rx ry) eqn:E; try discriminate. eauto.
      * rewrite (rank_None _ Ey). destruct (Prim2SF x); discriminate.
    + rewrite (rank_None _ Ex). discriminate.
  - intros (rx & ry & Ex & Ey & E).
    now rewrite (SFcompare_rank _ _ _ _ Ex Ey), E.
Qed.

Lemma leb_rank x y :
  (x <=? y) = true <->
  exists rx ry, rank (Prim2SF x) = Some rx /\ rank (Prim2SF y) = Some ry /\
                lexcmp rx ry <> Gt.
Proof.
  rewrite leb_spec. unfold SFleb. split.
  - destruct (rank (Prim2SF x)) as [rx|] eqn:Ex.
    + destruct (rank (Prim2SF y)) as [ry|] eqn:Ey.
      * rewrite (SFcompare_rank _ _ _ _ Ex Ey).
        destruct (lexcmp rx ry) eqn:E; try discriminate; intros _;
          exists rx, ry; rewrite E;
          (split; [reflexivity | split; [reflexivity | discriminate]]).
      * rewrite (rank_None _ Ey). destruct (Prim2SF x); discriminate.
    + rewrite (rank_None _ Ex). discriminate.
  - intros (rx & ry & Ex & Ey & E).
    rewrite (SFcompare_rank _ _ _ _ Ex Ey).
    destruct (lexcmp rx ry); congruence.
Qed.

Lemma ltb_is_number_l x y : (x <? y) = true -> is_number x.
Proof.
  intros H. apply ltb_rank in H as (rx & ry & Ex & _). unfold is_number.
  congruence.
Qed.

Lemma leb_refl x : is_number x -> (x <=? x) = true.
Proof.
  intros H. apply is_number_rank in H as [r Hr]. apply leb_rank.
  exists r, r. rewrite lexcmp_refl. repeat split; auto; discriminate.
Qed.

Lemma ltb_leb x y : (x <? y) = true -> (x <=? y) = true.
Proof.
  intros H. apply ltb_rank in H as (rx & ry & Ex & Ey & E). apply leb_rank.
  exists rx, ry. rewrite E. repeat split; auto; discriminate.
Qed.

Lemma leb_trans x y z :
  (x <=? y) = true -> (y <=? z) = true -> (x <=? z) = true.
Proof.
  intros H1 H2.
  apply leb_rank in H1 as (rx & ry & Ex & Ey & E1).
  apply leb_rank in H2 as (ry' & rz & Ey' & Ez & E2).
  assert (ry' = ry) by congruence. subst ry'.
  apply leb_rank. exists rx, rz. repeat split; auto.
  eapply lexcmp_le_trans; eauto.
Qed.

Lemma ltb_leb_trans x y z :
  (x <? y) = true -> (y <=? z) = true -> (x <? z) = true.
Proof.
  intros H1 H2.
  apply ltb_rank in H1 as (rx & ry & Ex & Ey & E1).
  apply leb_rank in H2 as (ry' & rz & Ey' & Ez & E2).
  assert (ry' = ry) by congruence. subst ry'.
  apply ltb_rank. exists rx, rz. repeat split; auto.
  eapply lexcmp_lt_trans; eauto.
Qed.

Lemma leb_ltb_trans x y z :
  (x <=? y) = true -> (y <? z) = true -> (x <? z) = true.
Proof.
  intros H1 H2.
  apply leb_rank in H1 as (rx & ry & Ex & Ey & E1).
  apply ltb_rank in H2 as (ry' & rz & Ey' & Ez & E2).
  assert (ry' = ry) by congruence. subst ry'.
  apply ltb_rank. exists rx, rz. repeat split; auto.
  eapply lexcmp_le_lt_trans; eauto.
Qed.

(** On numbers the order is total: what is not below is above or equal. *)
Lemma not_ltb_leb x y :
  is_number x -> is_number y -> (x <? y) = false -> (y <=? x) = true.
Proof.
  intros Hx Hy H.
  apply is_number_rank in Hx as [rx Ex]. apply is_number_rank in Hy as [ry Ey].
  apply leb_rank. exists ry, rx. repeat split; auto.
  rewrite lexcmp_antisym. intros E.
  assert (lexcmp rx ry = Lt) as E' by (destruct (lexcmp rx ry); simpl in E; congruence).
  assert ((x <? y) = true) by (apply ltb_rank; eauto). congruence.
Qed.

Lemma leb_not_ltb x y : (x <=? y) = true -> (y <? x) = false.
Proof.
  intros H. apply leb_rank in H as (rx & ry & Ex & Ey & E).
  destruct (y <? x) eqn:L; [|reflexivity]. exfalso.
  apply ltb_rank in L as (ry' & rx' & Ey' & Ex' & E').
  assert (ry' = ry) by congruence. assert (rx' = rx) by congruence. subst.
  rewrite lexcmp_antisym in E'. destruct (lexcmp rx ry); simpl in E'; congruence.
Qed.

End FloatOrder.

(** ** Lists and loops *)

Section Loops.

Context {A B : Type}.

(** A loop that only pushes builds the list of what it pushed. *)
Lemma fold_left_push (f : B -> A) (l : list B) (acc : list A) :
  fold_left (fun acc x => acc ++ [f x]) l acc = acc ++ map f l.
Proof.
  revert acc. induction l as [|x l IH]; intros acc; simpl.
  - now rewrite app_nil_r.
  - rewrite IH, <- app_assoc. reflexivity.
Qed.

Lemma range_length (from to : nat) : length (range from to) = to - from.
Proof. unfold range. apply length_seq. Qed.

Lemma in_range (from to i : nat) : In i (range from to) <-> from <= i < to.
Proof. unfold range. rewrite in_seq. lia. Qed.

Lemma entries_length (a : list A) : length (entries a) = length a.
Proof. unfold entries. rewrite length_combine, length_seq. lia. Qed.

Lemma combine_seq_nth_error (a : list A) (k i : nat) :
  nth_error (combine (seq k (length a)) a) i
  = option_map (pair (k + i)) (nth_error a i).
Proof.
  revert k i. induction a as [|x a IH]; intros k i; simpl.
  - destruct i; reflexivity.
  - destruct i as [|i]; simpl.
    + now rewrite Nat.add_0_r.
    + rewrite IH. now rewrite Nat.add_succ_comm.
Qed.

Lemma entries_nth_error (a : list A) (i : nat) :
  nth_error (entries a) i = option_map (pair i) (nth_error a i).
Proof. apply combine_seq_nth_error. Qed.

Lemma entries_snd (a : list A) : map snd (entries a) = a.
Proof.
  unfold entries. generalize 0 as k.
  induction a as [|x a IH]; intros k; simpl; [reflexivity|].
  now rewrite IH.
Qed.

Lemma entries_fst (a : list A) : map fst (entries a) = seq 0 (length a).
Proof.
  unfold entries. generalize 0 as k.
  induction a as [|x a IH]; intros k; simpl; [reflexivity|].
  now rewrite IH.
Qed.

Lemma in_entries (a : list A) (i : nat) (x : A) :
  In (i, x) (entries a) <-> nth_error a i = Some x.
Proof.
  split.
  - intros H. apply In_nth_error in H as [k Hk].
    rewrite entries_nth_error in Hk.
    destruct (nth_error a k) eqn:E; simpl in Hk; [|discriminate].
    injection Hk as <- <-. exact E.
  - intros H. apply (nth_error_In _ i). rewrite entries_nth_error, H.
    reflexivity.
Qed.

Lemma slice_nth_error {T : Type} (a : list T) (from to k : nat) :
  nth_error (slice a from to) k
  = if from + k <? to then nth_error a (from + k) else None.
Proof. unfold slice. now rewrite nth_error_skipn, nth_error_firstn. Qed.

Lemma in_slice_entries (a : list A) (from to i : nat) (x : A) :
  In (i, x) (slice (entries a) from to)
  <-> from <= i < to /\ nth_error a i = Some x.
Proof.
  split.
  - intros H. apply In_nth_error in H as [k Hk].
    rewrite slice_nth_error in Hk.
    destruct (Nat.ltb_spec (from + k) to) as [Hlt|]; [|discriminate].
    rewrite entries_nth_error in Hk.
    destruct (nth_error a (from + k)) eqn:E; simpl in Hk; [|discriminate].
    injection Hk as <- <-. split; [lia | exact E].
  - intros [Hi Hx]. apply (nth_error_In _ (i - from)).
    rewrite slice_nth_error. replace (from + (i - from)) with i by lia.
    destruct (Nat.ltb_spec i to); [|lia].
    now rewrite entries_nth_error, Hx.
Qed.

Lemma slice_length {T : Type} (a : list T) (from to : nat) :
  to <= length a -> length (slice a from to) = to - from.
Proof. intros H. unfold slice. rewrite length_skipn, length_firstn. lia. Qed.

Lemma assign_length {T : Type} (a : list T) (i : nat) (v : T) :
  length (assign a i v) = length a.
Proof.
  revert i. induction a as [|x a IH]; intros [|i]; simpl; auto.
Qed.

Lemma last_cons_default (x : A) (l : list A) (d d' : A) :
  last (x :: l) d = last (x :: l) d'.
Proof.
  revert x. induction l as [|y l IH]; intros x; [reflexivity|].
  change (last (y :: l) d = last (y :: l) d'). apply IH.
Qed.

Lemma last_app_singleton (l : list A) (x d : A) : last (l ++ [x]) d = x.
Proof. apply last_last. Qed.

End Loops.

(** ** The interpolation fallback *)

Section Interpolation.

Open Scope float_scope.

Lemma createInterpolatedPath_unfold (startCoords endCoords : Coord) :
  createInterpolatedPath startCoords endCoords
  = startCoords
      :: map (interpolatedPoint startCoords endCoords) (range 1 steps)
      ++ [endCoords].
Proof.
  unfold createInterpolatedPath.
  rewrite (fold_left_push (interpolatedPoint startCoords endCoords)).
  reflexivity.
Qed.

(** C9. For every start and end coordinate the interpolation fallback
    returns [steps + 1 = 11] points; the first is the start coordinate
    itself, the last is the end coordinate itself, and the point at each
    index [i] in between is the linear interpolation
    [start + (end - start) * (i / 10)], coordinate by coordinate; the
    parameters [i / 10] are the doubles [0.1], [0.2], ..., [0.9], evenly
    spaced. *)
Theorem createInterpolatedPath_points (startCoords endCoords : Coord) :
  let path := createInterpolatedPath startCoords endCoords in
  (length path = steps + 1)%nat /\
  length path = 11%nat /\
  nth_error path 0 = Some startCoords /\
  nth_error path steps = Some endCoords /\
  (forall i : nat, (1 <= i < steps)%nat ->
     nth_error path i
     = Some (fst startCoords
             + (fst endCoords - fst startCoords) * (Number.of_nat i / 10),
             snd startCoords
             + (snd endCoords - snd startCoords) * (Number.of_nat i / 10))) /\
  map (fun i => Number.of_nat i / 10) (range 1 steps)
  = [0.1; 0.2; 0.3; 0.4; 0.5; 0.6; 0.7; 0.8; 0.9].
Proof.
  intros path. subst path. rewrite createInterpolatedPath_unfold.
  split; [reflexivity|]. split; [reflexivity|]. split; [reflexivity|].
  split; [reflexivity|]. split; [|vm_compute; reflexivity].
  intros i Hi. unfold steps in Hi.
  assert (In i (range 1 10)) as Hin by (apply in_range; lia).
  simpl in Hin.
  repeat (destruct Hin as [<-|Hin]; [reflexivity|]). contradiction.
Qed.

Lemma createInterpolatedPath_points_witness :
  nth_error (createInterpolatedPath (0, 0) (1, 10)) 3 = Some (0.3, 3).
Proof.
  exact (proj1 (proj2 (proj2 (proj2 (proj2
           (createInterpolatedPath_points (0, 0) (1, 10))))))
           3%nat (conj (proj1 (Nat.leb_le 1 3) eq_refl)
                       (proj1 (Nat.leb_le 4 10) eq_refl))).
Defined.

End Interpolation.

(** ** Rounding of the double operations

    The sampler divides and multiplies natural numbers as doubles and rounds
    the product.  The lemmas below follow [SpecFloat]: a correctly rounded
    operation keeps 53 digits of the exact result, hence the computed
    product is within a few units in the last place of the exact one. *)

Section Rounding.

Open Scope Z_scope.

Lemma digits_bounds (p : positive) :
  2 ^ (Z.pos (digits2_pos p) - 1) <= Z.pos p < 2 ^ Z.pos (digits2_pos p).
Proof.
  induction p as [p IH|p IH|]; cbn [digits2_pos].
  - rewrite Pos2Z.inj_succ.
    replace (Z.succ (Z.pos (digits2_pos p)) - 1)
      with (Z.succ (Z.pos (digits2_pos p) - 1)) by lia.
    rewrite !Z.pow_succ_r by lia. lia.
  - rewrite Pos2Z.inj_succ.
    replace (Z.succ (Z.pos (digits2_pos p)) - 1)
      with (Z.succ (Z.pos (digits2_pos p) - 1)) by lia.
    rewrite !Z.pow_succ_r by lia. lia.
  - simpl. lia.
Qed.

Lemma digits_unique (p : positive) (d : Z) :
  2 ^ (d - 1) <= Z.pos p < 2 ^ d -> Z.pos (digits2_pos p) = d.
Proof.
  intros [Hlo Hhi]. pose proof (digits_bounds p) as [Blo Bhi].
  set (D := Z.pos (digits2_pos p)) in *.
  assert (0 < d).
  { destruct (Z.lt_trichotomy d 0) as [Hn|[->|Hp]]; [|simpl in Hhi; lia|lia].
    rewrite Z.pow_neg_r in Hhi by lia. lia. }
  destruct (Z.lt_trichotomy D d) as [Hlt|[Heq|Hgt]]; [|exact Heq|].
  - assert (2 ^ D <= 2 ^ (d - 1)) by (apply Z.pow_le_mono_r; lia). lia.
  - assert (2 ^ d <= 2 ^ (D - 1)) by (apply Z.pow_le_mono_r; lia). lia.
Qed.

Lemma shr_1_m (r : shr_record) : 0 <= shr_m r -> shr_m (shr_1 r) = shr_m r / 2.
Proof.
  destruct r as [m r s]. cbn [shr_m]. intros Hm. unfold shr_1.
  destruct m as [|[p|p|]|p]; cbn [shr_m]; try lia.
  - reflexivity.
  - rewrite Pos2Z.inj_xI. apply Z.div_unique with 1; lia.
  - rewrite Pos2Z.inj_xO. apply Z.div_unique with 0; lia.
  - reflexivity.
Qed.

Lemma iter_shr_m (p : positive) (r : shr_record) :
  0 <= shr_m r ->
  shr_m (SpecFloat.iter_pos shr_1 p r) = shr_m r / 2 ^ Z.pos p.
Proof.
  revert r. induction p as [p IH|p IH|]; intros r Hr; cbn [SpecFloat.iter_pos].
  - assert (0 <= shr_m (shr_1 r))
      by (rewrite shr_1_m by exact Hr; apply Z.div_pos; lia).
    assert (0 <= shr_m (SpecFloat.iter_pos shr_1 p (shr_1 r)))
      by (rewrite IH by assumption; apply Z.div_pos; lia).
    rewrite !IH, shr_1_m by assumption.
    rewrite !Z.div_div by lia. f_equal.
    replace (Z.pos p~1) with (1 + Z.pos p + Z.pos p) by lia.
    rewrite !Z.pow_add_r by lia. change (2 ^ 1) with 2. ring.
  - assert (0 <= shr_m (SpecFloat.iter_pos shr_1 p r))
      by (rewrite IH by assumption; apply Z.div_pos; lia).
    rewrite !IH by assumption. rewrite Z.div_div by lia. f_equal.
    replace (Z.pos p~0) with (Z.pos p + Z.pos p) by lia.
    rewrite Z.pow_add_r by lia. reflexivity.
  - rewrite shr_1_m by exact Hr. reflexivity.
Qed.

Lemma shr_record_of_loc_m (m : Z) (l : location) :
  shr_m (shr_record_of_loc m l) = m.
Proof. destruct l as [|[| |]]; reflexivity. Qed.

(** The mantissa kept when a mantissa of [D >= 53] digits is cut to 53. *)
Lemma cut_bounds (m : positive) :
  53 <= Z.pos (digits2_pos m) ->
  2 ^ 52 <= Z.pos m / 2 ^ (Z.pos (digits2_pos m) - 53) < 2 ^ 53.
Proof.
  intros HD. pose proof (digits_bounds m) as [Blo Bhi].
  set (D := Z.pos (digits2_pos m)) in *.
  assert (0 < 2 ^ (D - 53)) by (apply Z.pow_pos_nonneg; lia).
  split.
  - apply Z.div_le_lower_bound; [assumption|].
    rewrite <- Z.pow_add_r by lia. replace (D - 53 + 52) with (D - 1) by lia.
    exact Blo.
  - apply Z.div_lt_upper_bound; [assumption|].
    rewrite <- Z.pow_add_r by lia. replace (D - 53 + 53) with D by lia.
    exact Bhi.
Qed.

Lemma shr_fexp_normal (m : positive) (ex : Z) (l : location) :
  53 <= Z.pos (digits2_pos m) ->
  -1074 <= Z.pos (digits2_pos m) + ex - 53 ->
  exists mrs,
    shr_fexp prec emax (Z.pos m) ex l
    = (mrs, ex + (Z.pos (digits2_pos m) - 53)) /\
    shr_m mrs = Z.pos m / 2 ^ (Z.pos (digits2_pos m) - 53).
Proof.
  intros HD Hmin. unfold shr_fexp, fexp, SpecFloat.emin, prec, emax.
  cbn [Zdigits2]. set (D := Z.pos (digits2_pos m)) in *.
  rewrite Z.max_l by lia.
  replace (D + ex - 53 - ex) with (D - 53) by lia.
  destruct (D - 53) as [|p|p] eqn:Es; [| |lia].
  - eexists. split; [unfold shr; f_equal; lia|].
    rewrite shr_record_of_loc_m. now rewrite Z.pow_0_r, Z.div_1_r.
  - eexists. split; [reflexivity|].
    rewrite iter_shr_m by (rewrite shr_record_of_loc_m; lia).
    now rewrite shr_record_of_loc_m.
Qed.

Lemma round_nearest_even_bounds (m : Z) (l : location) :
  m <= round_nearest_even m l <= m + 1.
Proof.
  destruct l as [|[| |]]; simpl; try lia. destruct (Z.even m); lia.
Qed.

(** Rounding a mantissa of 53 digits or more, away from underflow and
    overflow: the result is a normal double, between the two neighbours of
    the mantissa on the grid of 53 digits. *)
Lemma binary_round_aux_bracket (m : positive) (ex : Z) (l : location) :
  53 <= Z.pos (digits2_pos m) ->
  -1074 <= Z.pos (digits2_pos m) + ex - 53 ->
  Z.pos (digits2_pos m) + ex <= 1023 ->
  exists m' j,
    binary_round_aux prec emax false (Z.pos m) ex l
    = S754_finite false m' (ex + j) /\
    2 ^ 52 <= Z.pos m' < 2 ^ 53 /\
    Z.pos (digits2_pos m) - 53 <= j <= Z.pos (digits2_pos m) - 52 /\
    Z.pos m / 2 ^ (Z.pos (digits2_pos m) - 53)
    * 2 ^ (Z.pos (digits2_pos m) - 53)
    <= Z.pos m' * 2 ^ j
    <= (Z.pos m / 2 ^ (Z.pos (digits2_pos m) - 53) + 1)
       * 2 ^ (Z.pos (digits2_pos m) - 53).
Proof.
  intros HD Hmin Hmax. unfold binary_round_aux.
  destruct (shr_fexp_normal m ex l HD Hmin) as (mrs & -> & Hmrs).
  pose proof (cut_bounds m HD) as Ht.
  set (D := Z.pos (digits2_pos m)) in *. set (s := D - 53) in *.
  set (t := Z.pos m / 2 ^ s) in *.
  pose proof (round_nearest_even_bounds (shr_m mrs) (loc_of_shr_record mrs))
    as Hround.
  set (r2 := round_nearest_even (shr_m mrs) (loc_of_shr_record mrs)) in *.
  rewrite Hmrs in Hround.
  destruct r2 as [|m2|m2] eqn:Em2; [lia| |lia].
  pose proof (digits_bounds m2) as Hd2.
  assert (53 <= Z.pos (digits2_pos m2) <= 54) as HD2.
  { split.
    - destruct (Z.lt_ge_cases (Z.pos (digits2_pos m2)) 53) as [Hlt|]; [|lia].
      assert (2 ^ Z.pos (digits2_pos m2) <= 2 ^ 52)
        by (apply Z.pow_le_mono_r; lia). lia.
    - destruct (Z.lt_ge_cases 54 (Z.pos (digits2_pos m2))) as [Hlt|]; [|lia].
      assert (2 ^ 54 <= 2 ^ (Z.pos (digits2_pos m2) - 1))
        by (apply Z.pow_le_mono_r; lia).
      assert (2 ^ 53 < 2 ^ 54) by (apply Z.pow_lt_mono_r; lia). lia. }
  destruct (shr_fexp_normal m2 (ex + s) loc_Exact) as (mrs2 & -> & Hmrs2);
    [lia | lia |].
  pose proof (cut_bounds m2 (proj1 HD2)) as Ht2.
  rewrite Hmrs2.
  set (s2 := Z.pos (digits2_pos m2) - 53) in *.
  destruct (Z.pos m2 / 2 ^ s2) as [|m'|m'] eqn:Em'; [lia| |lia].
  replace (ex + s + s2 <=? emax - prec) with true
    by (symmetry; apply Z.leb_le; unfold emax, prec; lia).
  exists m', (s + s2). rewrite Z.add_assoc.
  split; [reflexivity|]. split; [exact Ht2|]. split; [lia|].
  assert (Z.pos m' * 2 ^ s2 = Z.pos m2) as Hsame.
  { destruct (Z.eq_dec s2 0) as [E0|Hne].
    - rewrite E0 in *. rewrite Z.pow_0_r, Z.div_1_r in Em'. lia.
    - assert (s2 = 1) as E1 by lia. rewrite E1 in *.
      assert (Z.pos m2 = 2 ^ 53).
      { assert (Z.pos (digits2_pos m2) = 54) as E54 by lia.
        rewrite E54 in Hd2. change (54 - 1) with 53 in Hd2. lia. }
      change (2 ^ 1) with 2 in *.
      assert (Z.pos m' = 2 ^ 52).
      { rewrite <- Em'. replace (Z.pos m2) with (2 ^ 52 * 2)
          by (change (2 ^ 53) with (2 ^ 52 * 2) in *; lia).
        now rewrite Z.div_mul by lia. }
      change (2 ^ 53) with (2 ^ 52 * 2) in *. lia. }
  rewrite Z.pow_add_r by lia.
  replace (Z.pos m' * (2 ^ s * 2 ^ s2)) with (Z.pos m2 * 2 ^ s)
    by (rewrite <- Hsame; ring).
  assert (0 < 2 ^ s) by (apply Z.pow_pos_nonneg; lia).
  split; apply Z.mul_le_mono_nonneg_r; lia.
Qed.

(** A mantissa of exactly 53 digits with nothing to round is kept. *)
Lemma binary_round_aux_exact (m : positive) (ex : Z) :
  Z.pos (digits2_pos m) = 53 -> -1074 <= ex <= 970 ->
  binary_round_aux prec emax false (Z.pos m) ex loc_Exact
  = S754_finite false m ex.
Proof.
  intros HD Hex. unfold binary_round_aux.
  destruct (shr_fexp_normal m ex loc_Exact) as (mrs & E & Hmrs); [lia | lia |].
  rewrite HD in *. change (53 - 53) with 0 in *.
  rewrite Z.pow_0_r, Z.div_1_r, Z.add_0_r in *.
  assert (mrs = shr_record_of_loc (Z.pos m) loc_Exact) as ->.
  { unfold shr_fexp, fexp, SpecFloat.emin, prec, emax in E. cbn [Zdigits2] in E.
    rewrite HD in E. rewrite Z.max_l in E by lia.
    replace (53 + ex - 53 - ex) with 0 in E by lia. unfold shr in E.
    now injection E as <-. }
  rewrite E. cbn [shr_record_of_loc shr_m].
  change (round_nearest_even (Z.pos m) _) with (Z.pos m).
  rewrite E. cbn [shr_m shr_record_of_loc].
  replace (ex <=? emax - prec) with true
    by (symmetry; apply Z.leb_le; unfold emax, prec; lia).
  reflexivity.
Qed.

Lemma iter_xO (p d : positive) :
  Z.pos (Pos.iter xO p d) = Z.pos p * 2 ^ Z.pos d.
Proof.
  apply (Pos.iter_ind positive xO p
           (fun d q => Z.pos q = Z.pos p * 2 ^ Z.pos d)).
  - rewrite Pos2Z.inj_xO. change (2 ^ 1) with 2. lia.
  - intros d' q IH. rewrite Pos2Z.inj_xO, IH, Pos2Z.inj_succ.
    rewrite Z.pow_succ_r by lia. ring.
Qed.

(** The double of a natural number below [2^53] is that number: a mantissa
    of 53 digits and the exponent that scales it back. *)
Lemma of_nat_exact (n : nat) :
  1 <= Z.of_nat n < 2 ^ 53 ->
  exists m e,
    Prim2SF (Number.of_nat n) = S754_finite false m (- e) /\
    2 ^ 52 <= Z.pos m < 2 ^ 53 /\
    0 <= e <= 52 /\
    Z.pos m = Z.of_nat n * 2 ^ e.
Proof.
  intros Hn. unfold Number.of_nat. rewrite of_uint63_spec, Uint63.of_Z_spec.
  rewrite Z.mod_small.
  2: { split; [lia|]. unfold Uint63.wB, Uint63.size.
       assert (2 ^ 53 < 2 ^ Z.of_nat 63) by (apply Z.pow_lt_mono_r; lia).
       lia. }
  destruct (Z.of_nat n) as [|p|p] eqn:Ep; [lia| |lia].
  unfold binary_normalize, binary_round.
  pose proof (digits_bounds p) as Hd.
  set (D := Z.pos (digits2_pos p)) in *.
  assert (1 <= D <= 53) as HD.
  { split; [subst D; lia|].
    destruct (Z.lt_ge_cases 53 D) as [Hlt|]; [|lia].
    assert (2 ^ 53 <= 2 ^ (D - 1)) by (apply Z.pow_le_mono_r; lia). lia. }
  unfold fexp, SpecFloat.emin, prec, emax.
  rewrite Z.add_0_r. rewrite Z.max_l by lia.
  unfold shl_align. rewrite Z.sub_0_r.
  destruct (D - 53) as [|d|d] eqn:Ed; [| lia |].
  - assert (D = 53) as E53 by lia. rewrite E53 in Hd.
    change (53 - 1) with 52 in Hd.
    rewrite binary_round_aux_exact by (fold D; lia).
    exists p, 0. change (- 0) with 0. rewrite Z.pow_0_r.
    repeat split; lia.
  - assert (Z.pos d = 53 - D) as Hshift by lia.
    pose proof (iter_xO p d) as Hm.
    set (m := Pos.iter xO p d) in *.
    assert (2 ^ 52 <= Z.pos m < 2 ^ 53) as Hbounds.
    { rewrite Hm, Hshift.
      assert (0 < 2 ^ (53 - D)) by (apply Z.pow_pos_nonneg; lia).
      replace (2 ^ 52) with (2 ^ (D - 1) * 2 ^ (53 - D))
        by (rewrite <- Z.pow_add_r by lia; f_equal; lia).
      replace (2 ^ 53) with (2 ^ D * 2 ^ (53 - D))
        by (rewrite <- Z.pow_add_r by lia; f_equal; lia).
      split; [apply Z.mul_le_mono_nonneg_r; lia
             | apply Z.mul_lt_mono_pos_r; lia]. }
    rewrite binary_round_aux_exact.
    + exists m, (Z.pos d). split; [reflexivity|]. split; [exact Hbounds|].
      split; [lia|]. exact Hm.
    + apply digits_unique. exact Hbounds.
    + lia.
Qed.

(** The quotient of two normal doubles, away from underflow and overflow. *)
Lemma div_bracket (x y : float) (m1 m2 : positive) (e1 e2 : Z) :
  Prim2SF x = S754_finite false m1 e1 ->
  Prim2SF y = S754_finite false m2 e2 ->
  2 ^ 52 <= Z.pos m1 < 2 ^ 53 -> 2 ^ 52 <= Z.pos m2 < 2 ^ 53 ->
  -1000 <= e1 - e2 <= 900 ->
  exists m' j,
    Prim2SF (x / y) = S754_finite false m' (e1 - e2 - 53 + j) /\
    2 ^ 52 <= Z.pos m' < 2 ^ 53 /\
    0 <= j <= 2 /\
    Z.pos m1 * 2 ^ 53 - 2 * Z.pos m2
    <= Z.pos m' * 2 ^ j * Z.pos m2
    <= Z.pos m1 * 2 ^ 53 + 2 * Z.pos m2.
Proof.
  intros Hx Hy H1 H2 He.
  rewrite FloatAxioms.div_spec, Hx, Hy. unfold SF64div, SFdiv.
  cbn [xorb]. unfold SFdiv_core_binary. cbn [Zdigits2].
  rewrite (digits_unique m1 53), (digits_unique m2 53) by assumption.
  unfold fexp, SpecFloat.emin, prec, emax.
  replace (53 + e1 - (53 + e2)) with (e1 - e2) by lia.
  rewrite Z.max_l by lia. rewrite Z.min_l by lia.
  replace (e1 - e2 - (e1 - e2 - 53)) with 53 by lia.
  rewrite Z.shiftl_mul_pow2 by lia.
  pose proof (Z.div_eucl_eq (Z.pos m1 * 2 ^ 53) (Z.pos m2) ltac:(lia)) as Heq.
  pose proof (Z.mod_pos_bound (Z.pos m1 * 2 ^ 53) (Z.pos m2) ltac:(lia)) as Hr.
  unfold Z.modulo in Hr.
  destruct (Z.div_eucl (Z.pos m1 * 2 ^ 53) (Z.pos m2)) as [q r].
  assert (2 ^ 52 <= q < 2 ^ 54) as Hq.
  { change (2 ^ 54) with (2 * 2 ^ 53). nia. }
  destruct q as [|q|q]; [lia| |lia].
  assert (53 <= Z.pos (digits2_pos q) <= 54) as HD.
  { pose proof (digits_bounds q) as Hd. split.
    - destruct (Z.lt_ge_cases (Z.pos (digits2_pos q)) 53) as [Hlt|]; [|lia].
      assert (2 ^ Z.pos (digits2_pos q) <= 2 ^ 52)
        by (apply Z.pow_le_mono_r; lia). lia.
    - destruct (Z.lt_ge_cases 54 (Z.pos (digits2_pos q))) as [Hlt|]; [|lia].
      assert (2 ^ 54 <= 2 ^ (Z.pos (digits2_pos q) - 1))
        by (apply Z.pow_le_mono_r; lia). lia. }
  destruct (binary_round_aux_bracket q (e1 - e2 - 53)
              (new_location (Z.pos m2) r))
    as (m' & j & Hres & Hm' & Hj & Hlo & Hhi); [lia | lia | lia |].
  unfold prec, emax in Hres. rewrite Hres.
  exists m', j. split; [reflexivity|]. split; [exact Hm'|]. split; [lia|].
  set (s := Z.pos (digits2_pos q) - 53) in *.
  set (t := Z.pos q / 2 ^ s) in *.
  assert (1 <= 2 ^ s <= 2) as Hs.
  { destruct (Z.eq_dec s 0) as [->|]; [simpl; lia|].
    assert (s = 1) as -> by lia. simpl. lia. }
  assert (Z.pos q - 2 ^ s < t * 2 ^ s <= Z.pos q) as Ht.
  { pose proof (Z.div_mod (Z.pos q) (2 ^ s) ltac:(lia)) as Hdm.
    pose proof (Z.mod_pos_bound (Z.pos q) (2 ^ s) ltac:(lia)).
    fold t in Hdm. lia. }
  nia.
Qed.

(** The product of two normal doubles, away from underflow and overflow. *)
Lemma mul_bracket (x y : float) (m1 m2 : positive) (e1 e2 : Z) :
  Prim2SF x = S754_finite false m1 e1 ->
  Prim2SF y = S754_finite false m2 e2 ->
  2 ^ 52 <= Z.pos m1 < 2 ^ 53 -> 2 ^ 52 <= Z.pos m2 < 2 ^ 53 ->
  -1000 <= e1 + e2 <= 900 ->
  exists m' j,
    Prim2SF (x * y) = S754_finite false m' (e1 + e2 + j) /\
    2 ^ 52 <= Z.pos m' < 2 ^ 53 /\
    52 <= j <= 54 /\
    Z.pos m1 * Z.pos m2 - 2 ^ 53
    <= Z.pos m' * 2 ^ j
    <= Z.pos m1 * Z.pos m2 + 2 ^ 53.
Proof.
  intros Hx Hy H1 H2 He.
  rewrite FloatAxioms.mul_spec, Hx, Hy. unfold SF64mul, SFmul.
  cbn [xorb].
  assert (2 ^ 104 <= Z.pos (m1 * m2) < 2 ^ 106) as HP.
  { rewrite Pos2Z.inj_mul.
    change (2 ^ 104) with (2 ^ 52 * 2 ^ 52).
    change (2 ^ 106) with (2 ^ 53 * 2 ^ 53). nia. }
  assert (105 <= Z.pos (digits2_pos (m1 * m2)) <= 106) as HD.
  { pose proof (digits_bounds (m1 * m2)) as Hd. split.
    - destruct (Z.lt_ge_cases (Z.pos (digits2_pos (m1 * m2))) 105) as [Hlt|];
        [|lia].
      assert (2 ^ Z.pos (digits2_pos (m1 * m2)) <= 2 ^ 104)
        by (apply Z.pow_le_mono_r; lia). lia.
    - destruct (Z.lt_ge_cases 106 (Z.pos (digits2_pos (m1 * m2)))) as [Hlt|];
        [|lia].
      assert (2 ^ 106 <= 2 ^ (Z.pos (digits2_pos (m1 * m2)) - 1))
        by (apply Z.pow_le_mono_r; lia). lia. }
  destruct (binary_round_aux_bracket (m1 * m2) (e1 + e2) loc_Exact)
    as (m' & j & -> & Hm' & Hj & Hlo & Hhi); [lia | lia | lia |].
  exists m', j. split; [reflexivity|]. split; [exact Hm'|]. split; [lia|].
  set (s := Z.pos (digits2_pos (m1 * m2)) - 53) in *.
  set (t := Z.pos (m1 * m2) / 2 ^ s) in *.
  assert (0 < 2 ^ s <= 2 ^ 53) as Hs.
  { split; [apply Z.pow_pos_nonneg; lia | apply Z.pow_le_mono_r; lia]. }
  assert (Z.pos (m1 * m2) - 2 ^ s < t * 2 ^ s <= Z.pos (m1 * m2)) as Ht.
  { pose proof (Z.div_mod (Z.pos (m1 * m2)) (2 ^ s) ltac:(lia)) as Hdm.
    pose proof (Z.mod_pos_bound (Z.pos (m1 * m2)) (2 ^ s) ltac:(lia)).
    fold t in Hdm. lia. }
  rewrite Pos2Z.inj_mul in *. lia.
Qed.

(** The double [i * (n / d)] computed for three natural numbers below
    [2^32] with [i <= d]: a normal double whose exact value [mX / 2^E] is
    within six units in the last place of the exact [i * n / d]. *)
Lemma product_bracket (i n d : nat) :
  1 <= Z.of_nat i <= Z.of_nat d -> 1 <= Z.of_nat n < 2 ^ 32 ->
  Z.of_nat d < 2 ^ 32 ->
  exists mX E,
    Prim2SF (Number.of_nat i * (Number.of_nat n / Number.of_nat d)) = S754_finite false mX (- E) /\
    20 <= E /\
    - (6 * Z.of_nat d)
    <= Z.pos mX * Z.of_nat d - Z.of_nat i * Z.of_nat n * 2 ^ E
    <= 6 * Z.of_nat d.
Proof.
  intros Hi Hn Hd.
  assert (2 ^ 32 < 2 ^ 53) as H3253 by (apply Z.pow_lt_mono_r; lia).
  destruct (of_nat_exact n) as (mN & a & HN & HmN & Ha & EN); [lia|].
  destruct (of_nat_exact d) as (mD & b & HD & HmD & Hb & ED); [lia|].
  destruct (of_nat_exact i) as (mI & c & HI & HmI & Hc & EI); [lia|].
  destruct (div_bracket _ _ _ _ _ _ HN HD HmN HmD)
    as (mS & jS & HS & HmS & HjS & HSlo & HShi); [lia|].
  destruct (mul_bracket _ _ _ _ _ _ HI HS HmI HmS)
    as (mX & jX & HX & HmX & HjX & HXlo & HXhi); [lia|].
  assert (21 <= a) as Ha21.
  { destruct (Z.lt_ge_cases a 21) as [Hlt|]; [|lia].
    assert (2 ^ a <= 2 ^ 20) by (apply Z.pow_le_mono_r; lia).
    change (2 ^ 52) with (2 ^ 32 * 2 ^ 20) in HmN. nia. }
  assert (b <= c) as Hbc.
  { destruct (Z.lt_ge_cases c b) as [Hlt|]; [|lia].
    assert (2 ^ c <= 2 ^ (b - 1)) by (apply Z.pow_le_mono_r; lia).
    assert (2 ^ b = 2 * 2 ^ (b - 1))
      by (rewrite <- Z.pow_succ_r by lia; f_equal; lia).
    change (2 ^ 53) with (2 * 2 ^ 52) in *. nia. }
  set (E := c + a - b + 53 - jS - jX).
  assert (18 <= E) as HE18 by (subst E; lia).
  exists mX, E.
  split.
  { rewrite HX. f_equal. subst E. lia. }
  assert (2 ^ E * (2 ^ jX * 2 ^ jS * 2 ^ b) = 2 ^ c * 2 ^ a * 2 ^ 53) as Hscale.
  { rewrite <- !Z.pow_add_r by lia. f_equal. subst E. lia. }
  assert (1 <= 2 ^ jS <= 4) as HpS.
  { split; [apply (Z.pow_le_mono_r 2 0 jS); lia|].
    apply (Z.pow_le_mono_r 2 jS 2); lia. }
  assert (2 ^ 52 <= 2 ^ jX) as HpX by (apply Z.pow_le_mono_r; lia).
  assert (0 < 2 ^ b) as Hpb by (apply Z.pow_pos_nonneg; lia).
  assert (0 < 2 ^ E) as HpE by (apply Z.pow_pos_nonneg; lia).
  set (pa := 2 ^ a) in *. set (pb := 2 ^ b) in *. set (pc := 2 ^ c) in *.
  set (pS := 2 ^ jS) in *. set (pX := 2 ^ jX) in *. set (pE := 2 ^ E) in *.
  set (W := pX * pS * pb) in *.
  assert (0 < W) as HW by (subst W; nia).
  set (dd := Z.of_nat d) in *. set (nn := Z.of_nat n) in *.
  set (ii := Z.of_nat i) in *.
  (* the products, in units of [2^-E / W] *)
  assert (W * (Z.pos mX * dd) = Z.pos mX * pX * pS * Z.pos mD) as HT
      by (subst W; rewrite ED; ring).
  assert (W * (ii * nn * pE) = Z.pos mI * Z.pos mN * 2 ^ 53) as HU.
  { rewrite EI, EN.
    replace (W * (ii * nn * pE)) with (ii * nn * (pE * W)) by ring.
    rewrite Hscale. ring. }
  assert (W * (6 * dd) = 6 * Z.pos mD * (pX * pS)) as HV
      by (subst W; rewrite ED; ring).
  set (S2 := Z.pos mS * pS) in *.
  set (X2 := Z.pos mX * pX) in *.
  assert (Z.pos mI * (S2 * Z.pos mD) - 2 ^ 53 * (pS * Z.pos mD)
          <= X2 * pS * Z.pos mD
          <= Z.pos mI * (S2 * Z.pos mD) + 2 ^ 53 * (pS * Z.pos mD)) as H2.
  { assert (0 <= pS * Z.pos mD) as Hnn by nia.
    split.
    - replace (Z.pos mI * (S2 * Z.pos mD) - 2 ^ 53 * (pS * Z.pos mD))
        with ((Z.pos mI * Z.pos mS - 2 ^ 53) * (pS * Z.pos mD))
        by (subst S2; ring).
      replace (X2 * pS * Z.pos mD) with (X2 * (pS * Z.pos mD)) by ring.
      apply Z.mul_le_mono_nonneg_r; assumption.
    - replace (Z.pos mI * (S2 * Z.pos mD) + 2 ^ 53 * (pS * Z.pos mD))
        with ((Z.pos mI * Z.pos mS + 2 ^ 53) * (pS * Z.pos mD))
        by (subst S2; ring).
      replace (X2 * pS * Z.pos mD) with (X2 * (pS * Z.pos mD)) by ring.
      apply Z.mul_le_mono_nonneg_r; assumption. }
  assert (Z.pos mI * (Z.pos mN * 2 ^ 53) - Z.pos mI * (2 * Z.pos mD)
          <= Z.pos mI * (S2 * Z.pos mD)
          <= Z.pos mI * (Z.pos mN * 2 ^ 53) + Z.pos mI * (2 * Z.pos mD)) as H1.
  { rewrite <- Z.mul_sub_distr_l, <- Z.mul_add_distr_l.
    split; apply Z.mul_le_mono_nonneg_l; lia. }
  assert (2 ^ 53 * (pS * Z.pos mD) + Z.pos mI * (2 * Z.pos mD)
          <= 6 * Z.pos mD * (pX * pS)) as Hsum.
  { assert (2 ^ 53 * pS + 2 * Z.pos mI <= 6 * (pX * pS)) as Hk.
    { clear - HpS HpX HmI. change (2 ^ 53) with (2 * 2 ^ 52) in *.
      set (T := 2 ^ 52) in *.
      assert (T * pS <= pX * pS) by (apply Z.mul_le_mono_nonneg_r; lia).
      assert (pX * 1 <= pX * pS) by (apply Z.mul_le_mono_nonneg_l; lia).
      lia. }
    replace (2 ^ 53 * (pS * Z.pos mD) + Z.pos mI * (2 * Z.pos mD))
      with ((2 ^ 53 * pS + 2 * Z.pos mI) * Z.pos mD) by ring.
    replace (6 * Z.pos mD * (pX * pS)) with (6 * (pX * pS) * Z.pos mD) by ring.
    apply Z.mul_le_mono_nonneg_r; [lia | exact Hk]. }
  assert (- (6 * dd) <= Z.pos mX * dd - ii * nn * pE <= 6 * dd) as Hgoal.
  { split.
    - apply (Z.mul_le_mono_pos_l _ _ W HW).
      rewrite Z.mul_opp_r, Z.mul_sub_distr_l, HT, HU, HV.
      fold X2. lia.
    - apply (Z.mul_le_mono_pos_l _ _ W HW).
      rewrite Z.mul_sub_distr_l, HT, HU, HV.
      fold X2. lia. }
  split; [|exact Hgoal].
  destruct (Z.lt_ge_cases E 20) as [Hlt|]; [exfalso|lia].
  assert (pE <= 2 ^ 19) as HpE19 by (apply Z.pow_le_mono_r; lia).
  assert (nn * pE <= 2 ^ 32 * 2 ^ 19) as Hnp
      by (apply Z.mul_le_mono_nonneg; lia).
  assert (ii * (nn * pE) <= dd * (nn * pE)) as Hip
      by (apply Z.mul_le_mono_nonneg_r; [apply Z.mul_nonneg_nonneg|]; lia).
  assert (dd * (nn * pE) <= dd * (2 ^ 32 * 2 ^ 19)) as Hdp
      by (apply Z.mul_le_mono_nonneg_l; lia).
  assert (2 ^ 52 * dd <= Z.pos mX * dd) as Hxd
      by (apply Z.mul_le_mono_nonneg_r; lia).
  replace (ii * nn * pE) with (ii * (nn * pE)) in Hgoal by ring.
  change (2 ^ 52) with (2 * (2 ^ 32 * 2 ^ 19)) in Hxd.
  assert (7 <= 2 ^ 32 * 2 ^ 19) as H7 by (simpl; lia).
  clear - Hgoal Hip Hdp Hxd H7 Hi.
  set (C := 2 ^ 32 * 2 ^ 19) in *. nia.
Qed.

(** [Math.round] of a positive double with a negative exponent. *)
Lemma Math_round_fraction (x : float) (m : positive) (E : Z) :
  Prim2SF x = S754_finite false m (- E) -> 1 <= E ->
  Math_round x = (Z.pos m + 2 ^ (E - 1)) / 2 ^ E.
Proof.
  intros Hx HE. unfold Math_round. rewrite Hx.
  destruct (0 <=? - E) eqn:Hs; [apply Z.leb_le in Hs; lia|].
  rewrite Z.opp_involutive. reflexivity.
Qed.

(** The index rounded from the double product [i * (n / d)] is within half
    a unit of the exact [i * n / d], up to the error of the two
    operations. *)
Lemma rounded_product (i n d : nat) :
  1 <= Z.of_nat i <= Z.of_nat d -> 1 <= Z.of_nat n < 2 ^ 32 ->
  Z.of_nat d < 2 ^ 32 ->
  let r := Math_round (Number.of_nat i * (Number.of_nat n / Number.of_nat d)) in
  (2 * r * Z.of_nat d - 2 * Z.of_nat i * Z.of_nat n - Z.of_nat d) * 2 ^ 20
  <= 12 * Z.of_nat d /\
  - (12 * Z.of_nat d)
  <= (2 * r * Z.of_nat d - 2 * Z.of_nat i * Z.of_nat n + Z.of_nat d) * 2 ^ 20.
Proof.
  intros Hi Hn Hd.
  destruct (product_bracket i n d Hi Hn Hd) as (mX & E & HX & HE & Hlo & Hhi).
  cbv zeta. rewrite (Math_round_fraction _ _ _ HX) by lia.
  assert (2 ^ E = 2 * 2 ^ (E - 1)) as Hhalf
      by (rewrite <- Z.pow_succ_r by lia; f_equal; lia).
  assert (2 ^ 20 <= 2 ^ E) as H20 by (apply Z.pow_le_mono_r; lia).
  assert (0 < 2 ^ (E - 1)) as Hh by (apply Z.pow_pos_nonneg; lia).
  set (h := 2 ^ (E - 1)) in *. set (pE := 2 ^ E) in *.
  set (r := (Z.pos mX + h) / pE).
  assert (pE * r <= Z.pos mX + h) as Hr1
      by (apply Z.mul_div_le; lia).
  assert (Z.pos mX + h < pE * r + pE) as Hr2.
  { pose proof (Z.mod_pos_bound (Z.pos mX + h) pE ltac:(lia)).
    pose proof (Z.div_mod (Z.pos mX + h) pE ltac:(lia)). subst r. lia. }
  set (dd := Z.of_nat d) in *. set (nn := Z.of_nat n) in *.
  set (ii := Z.of_nat i) in *. set (x := Z.pos mX) in *.
  set (c := 2 ^ 20) in *.
  assert (0 < c) as Hc by (subst c; lia).
  assert (pE * r * dd <= (x + h) * dd) as Hm1
      by (apply Z.mul_le_mono_nonneg_r; lia).
  assert ((x + h) * dd <= (pE * r + pE - 1) * dd) as Hm2
      by (apply Z.mul_le_mono_nonneg_r; lia).
  assert ((2 * r * dd - 2 * ii * nn - dd) * pE <= 12 * dd) as HA.
  { clear - Hm1 Hhi Hhalf. nia. }
  assert (- (12 * dd) <= (2 * r * dd - 2 * ii * nn + dd) * pE) as HB.
  { clear - Hm2 Hlo Hhalf Hi. nia. }
  split.
  - destruct (Z.le_gt_cases (2 * r * dd - 2 * ii * nn - dd) 0) as [Hneg|Hpos].
    + clear - Hneg Hc Hi. nia.
    + assert ((2 * r * dd - 2 * ii * nn - dd) * c
              <= (2 * r * dd - 2 * ii * nn - dd) * pE)
        by (apply Z.mul_le_mono_nonneg_l; lia). lia.
  - destruct (Z.le_gt_cases 0 (2 * r * dd - 2 * ii * nn + dd)) as [Hpos|Hneg].
    + clear - Hpos Hc Hi. nia.
    + assert ((2 * r * dd - 2 * ii * nn + dd) * pE
              <= (2 * r * dd - 2 * ii * nn + dd) * c)
        by (apply Z.mul_le_mono_nonpos_l; lia). lia.
Qed.

(** With fewer slots than points, the index of an inner slot lies strictly
    between the two end indices. *)
Lemma rounded_product_inside (i n d : nat) :
  1 <= Z.of_nat i < Z.of_nat d -> Z.of_nat d < Z.of_nat n ->
  Z.of_nat n < 2 ^ 32 ->
  1 <= Math_round (Number.of_nat i * (Number.of_nat n / Number.of_nat d)) <= Z.of_nat n - 1.
Proof.
  intros Hi Hd Hn.
  destruct (rounded_product i n d) as [Hhi Hlo]; try lia.
  cbv zeta in Hhi, Hlo.
  set (r := Math_round (Number.of_nat i * (Number.of_nat n / Number.of_nat d))) in *.
  set (dd := Z.of_nat d) in *. set (nn := Z.of_nat n) in *.
  set (ii := Z.of_nat i) in *.
  change (2 ^ 20) with 1048576 in *.
  assert (ii * nn <= (dd - 1) * nn) as H1
      by (apply Z.mul_le_mono_nonneg_r; lia).
  assert (1 * nn <= ii * nn) as H2
      by (apply Z.mul_le_mono_nonneg_r; lia).
  split.
  - destruct (Z.le_gt_cases 1 r) as [|Hr]; [assumption|exfalso].
    assert (r * dd <= 0 * dd) as H3 by (apply Z.mul_le_mono_nonneg_r; lia).
    lia.
  - destruct (Z.le_gt_cases r (nn - 1)) as [|Hr]; [assumption|exfalso].
    assert (nn * dd <= r * dd) as H3 by (apply Z.mul_le_mono_nonneg_r; lia).
    lia.
Qed.

(** With at most [2^16] slots the error of the two operations is too small
    to move an index by a unit: the indices grow strictly. *)
Lemma rounded_product_increasing (i j n d : nat) :
  1 <= Z.of_nat i < Z.of_nat j -> Z.of_nat j <= Z.of_nat d ->
  Z.of_nat d < Z.of_nat n -> Z.of_nat n < 2 ^ 32 -> Z.of_nat d <= 2 ^ 16 ->
  Math_round (Number.of_nat i * (Number.of_nat n / Number.of_nat d))
  < Math_round (Number.of_nat j * (Number.of_nat n / Number.of_nat d)).
Proof.
  intros Hi Hj Hd Hn Hsmall.
  destruct (rounded_product i n d) as [Hhi _]; try lia.
  destruct (rounded_product j n d) as [_ Hlo]; try lia.
  cbv zeta in Hhi, Hlo.
  set (ri := Math_round (Number.of_nat i * (Number.of_nat n / Number.of_nat d))) in *.
  set (rj := Math_round (Number.of_nat j * (Number.of_nat n / Number.of_nat d))) in *.
  set (dd := Z.of_nat d) in *. set (nn := Z.of_nat n) in *.
  set (ii := Z.of_nat i) in *. set (jj := Z.of_nat j) in *.
  change (2 ^ 20) with 1048576 in *. change (2 ^ 16) with 65536 in *.
  assert ((ii + 1) * nn <= jj * nn) as H1
      by (apply Z.mul_le_mono_nonneg_r; lia).
  destruct (Z.lt_ge_cases ri rj) as [|Hr]; [assumption|exfalso].
  assert (rj * dd <= ri * dd) as H3 by (apply Z.mul_le_mono_nonneg_r; lia).
  lia.
Qed.

End Rounding.

(** ** The path sampler *)

Section Sampler.

(** The index taken exactly stays inside the array. *)
Lemma exactIndex_lt (len targetPoints i : nat) :
  2 <= targetPoints -> targetPoints < len -> 1 <= i < targetPoints - 1 ->
  exactIndex len targetPoints i < len.
Proof.
  intros Hk Hlen Hi. unfold exactIndex, roundHalfUp.
  set (n := Z.of_nat len). set (k := Z.of_nat targetPoints).
  set (j := Z.of_nat i).
  assert (3 <= k)%Z by lia. assert (k < n)%Z by lia.
  assert (1 <= j <= k - 2)%Z by lia.
  set (q := (inject_Z j * (inject_Z (n - 1) / inject_Z (k - 1)) + (1 # 2))%Q).
  assert (Qfloor q < n)%Z as Hfl.
  { apply Z.lt_nge. intros Hge.
    assert (inject_Z n <= q)%Q as Hq.
    { eapply Qle_trans; [|apply Qfloor_le]. rewrite <- Zle_Qle. exact Hge. }
    revert Hq. apply Qlt_not_le. subst q.
    unfold Qlt, Qplus, Qmult, Qdiv, Qinv, inject_Z. simpl.
    destruct (k - 1)%Z as [|p|p] eqn:Ek; try lia. simpl.
    nia. }
  assert (0 <= Qfloor q)%Z as Hnn.
  { replace 0%Z with (Qfloor 0) by reflexivity. apply Qfloor_resp_le.
    subst q. unfold Qle, Qplus, Qmult, Qdiv, Qinv, inject_Z. simpl.
    destruct (k - 1)%Z as [|p|p] eqn:Ek; try lia. simpl. nia. }
  subst n. lia.
Qed.

(** The index of an inner slot lies strictly between the first and the last
    index of the array. *)
Lemma sampleIndex_inside (len targetPoints i : nat) :
  targetPoints < len -> 1 <= i < targetPoints - 1 ->
  (Z.of_nat len < 2 ^ 32)%Z ->
  1 <= sampleIndex len targetPoints i < len - 1.
Proof.
  intros Hlen Hi Hsmall. unfold sampleIndex.
  destruct (Z.ltb_spec (Z.of_nat len) (2 ^ 32)) as [_|]; [|lia].
  pose proof (rounded_product_inside i (len - 1) (targetPoints - 1)
                ltac:(lia) ltac:(lia) ltac:(lia)) as Hr.
  lia.
Qed.

(** The rounded index stays inside the array: no slot of the sample is
    [undefined]. *)
Lemma sampleIndex_lt (len targetPoints i : nat) :
  2 <= targetPoints -> targetPoints < len -> 1 <= i < targetPoints - 1 ->
  sampleIndex len targetPoints i < len.
Proof.
  intros Hk Hlen Hi.
  destruct (Z.ltb_spec (Z.of_nat len) (2 ^ 32)) as [Hsmall|Hbig].
  - pose proof (sampleIndex_inside len targetPoints i Hlen Hi Hsmall). lia.
  - unfold sampleIndex.
    destruct (Z.ltb_spec (Z.of_nat len) (2 ^ 32)) as [|_]; [lia|].
    now apply exactIndex_lt.
Qed.

(** The sample of an array longer than the target count: its length and its
    two ends. *)
Lemma intelligentSample_shape {A : Type} (points : list A) (k : nat) (d : A) :
  2 <= k -> k < length points ->
  length (intelligentSample points k) = k /\
  hd_error (intelligentSample points k) = hd_error points /\
  last (intelligentSample points k) d = last points d.
Proof.
  unfold intelligentSample. intros Hk Hlen.
  destruct (Nat.leb_spec (length points) k) as [Hle|_]; [lia|].
  destruct points as [|first rest]; [simpl in Hlen; lia|].
  rewrite fold_left_push.
  split; [|split].
  - rewrite !length_app, length_map, range_length. simpl. lia.
  - reflexivity.
  - rewrite last_app_singleton. apply last_cons_default.
Qed.

(** C8. For every input sequence and every target count [k] with
    [2 <= k < points.length] the sampler returns exactly [k] points, the
    first being the first point of the input and the last being its last
    point; when [points.length <= k] the input is returned unchanged. *)
Theorem intelligentSample_count {A : Type} (points : list A) (k : nat) (d : A) :
  (2 <= k -> k < length points ->
     length (intelligentSample points k) = k /\
     hd_error (intelligentSample points k) = hd_error points /\
     last (intelligentSample points k) d = last points d) /\
  (length points <= k -> intelligentSample points k = points).
Proof.
  split.
  - apply intelligentSample_shape.
  - intros Hle. unfold intelligentSample.
    destruct (Nat.leb_spec (length points) k); [reflexivity|lia].
Qed.

Lemma intelligentSample_count_witness :
  length (intelligentSample (seq 0 10) 4) = 4 /\
  hd_error (intelligentSample (seq 0 10) 4) = Some 0 /\
  last (intelligentSample (seq 0 10) 4) 0 = 9.
Proof.
  apply (proj1 (intelligentSample_count (seq 0 10) 4 0)).
  - apply (Nat.leb_le 2 4). reflexivity.
  - apply (Nat.leb_le 5 10). reflexivity.
Defined.

End Sampler.

(** ** The winding test *)

Section Winding.

Open Scope float_scope.

Lemma sub_diag_zero_or_nan (a : float) : zero_or_nan (a - a).
Proof.
  unfold zero_or_nan. rewrite sub_spec. unfold SF64sub, SFsub.
  destruct (Prim2SF a) as [s|s| |s m e]; try destruct s; auto.
  - left. rewrite Z.sub_diag. reflexivity.
  - left. rewrite Z.sub_diag. reflexivity.
Qed.

Lemma pow2_zero_or_nan (x : float) : zero_or_nan x -> zero_or_nan (Number.pow2 x).
Proof.
  unfold zero_or_nan, Number.pow2. rewrite mul_spec.
  intros [-> | ->]; [left | right]; reflexivity.
Qed.

Lemma add_zero_or_nan (x y : float) :
  zero_or_nan x -> zero_or_nan y -> zero_or_nan (x + y).
Proof.
  unfold zero_or_nan. rewrite add_spec.
  intros [-> | ->] [-> | ->]; [left | right | right | right]; reflexivity.
Qed.

Lemma sqrt_zero_or_nan (x : float) : zero_or_nan x -> zero_or_nan (sqrt x).
Proof.
  unfold zero_or_nan. rewrite sqrt_spec.
  intros [-> | ->]; [left | right]; reflexivity.
Qed.

(** The straight-line distance from a coordinate to itself is [0] ([NaN]
    when the coordinate is not finite). *)
Lemma calculateDistance_diag (c : Coord) : zero_or_nan (calculateDistance c c).
Proof.
  unfold calculateDistance.
  apply sqrt_zero_or_nan, add_zero_or_nan; apply pow2_zero_or_nan, sub_diag_zero_or_nan.
Qed.

(** A quotient by [0] or [NaN] is infinite or [NaN]: it fails one of the two
    strict bounds. *)
Lemma division_by_zero_rejected (t d : float) :
  zero_or_nan d -> Number.gtb (t / d) 0.5 && (t / d <? 10) = false.
Proof.
  unfold zero_or_nan, Number.gtb. rewrite !ltb_spec, div_spec.
  unfold SF64div, SFdiv.
  intros [-> | ->]; destruct (Prim2SF t) as [s|s| |s m e];
    try destruct s; reflexivity.
Qed.

(** A path of fewer than two points has length 0. *)
Lemma calculateTotalDistance_short (path : list Coord) :
  (length path < 2)%nat -> calculateTotalDistance path = 0.
Proof.
  destruct path as [|c [|c' path]]; simpl; try reflexivity. lia.
Qed.

Lemma adjustEndpoints_length (variant : Variant) (path : list Coord)
  (s e : Coord) :
  length (adjustEndpoints variant path s e) = length path.
Proof.
  destruct variant; simpl; [|reflexivity].
  rewrite !assign_length. reflexivity.
Qed.

(** The quotient of [0] by anything is [0] or [NaN]: it is not above 0.5. *)
Lemma zero_ratio_rejected (d : float) : (0.5 <? 0 / d) = false.
Proof.
  rewrite ltb_spec, div_spec. unfold SF64div, SFdiv.
  replace (Prim2SF 0) with (S754_zero false) by reflexivity.
  destruct (Prim2SF d) as [s|s| |s m e]; try destruct s; reflexivity.
Qed.

(** The candidate of a raw segment too short to be kept would fail the
    winding test as well. *)
Lemma short_candidate_rejected (variant : Variant) (raw : list Coord)
  (targetStart targetEnd : Coord) :
  (length raw < 2)%nat ->
  (0.5 <? windingRatio (finalPath variant raw targetStart targetEnd)
            targetStart targetEnd) = false.
Proof.
  intros H. unfold windingRatio, finalPath.
  destruct (Nat.ltb_spec 300 (length raw)) as [Hlong|_]; [lia|].
  rewrite calculateTotalDistance_short
    by (rewrite adjustEndpoints_length; exact H).
  apply zero_ratio_rejected.
Qed.

(** The path whose winding is tested, and which is returned when the test
    passes: the sampled cut itself in [scripts/main.js]; in
    [unnamed/part_000] the sampled cut with its two end points already
    replaced by the targets. *)
Lemma finalPath_tested (variant : Variant) (raw : list Coord)
  (targetStart targetEnd : Coord) :
  finalPath variant raw targetStart targetEnd
  = let cut :=
      if (300 <? length raw)%nat then intelligentSample raw 200 else raw in
    match variant with
    | main_js => cut
    | part_000 =>
        assign (assign cut 0 targetStart) (length cut - 1) targetEnd
    end.
Proof.
  unfold finalPath, adjustEndpoints. destruct variant; [|reflexivity].
  cbv zeta. now rewrite assign_length.
Qed.

(** C5. The cut between two indices, sampled when long, is tested on its
    winding ratio: the total length of the tested path divided by the
    straight-line distance between the original targets.  The tested path is
    returned exactly when that quotient is strictly between 0.5 and 10, and
    [null] is returned otherwise; so a quotient of exactly 1 accepts and
    quotients of 0.1 or 15 reject.  In [scripts/main.js] the tested path is
    the sampled cut; in [unnamed/part_000] it is the sampled cut after its
    first and last points were overwritten with the targets. *)
Theorem winding_test_band (variant : Variant) (gpxCoords : list Coord)
  (startIdx endIdx : nat) (targetStart targetEnd : Coord) :
  let raw := rawGpsSegment gpxCoords startIdx endIdx in
  let cut :=
    if (300 <? length raw)%nat then intelligentSample raw 200 else raw in
  let tested :=
    match variant with
    | main_js => cut
    | part_000 =>
        assign (assign cut 0 targetStart) (length cut - 1) targetEnd
    end in
  let ratio :=
    calculateTotalDistance tested / calculateDistance targetStart targetEnd in
  let result :=
    extractGpsTrackBetweenPoints variant gpxCoords startIdx endIdx
      targetStart targetEnd in
  (result = Some tested <-> (0.5 <? ratio) = true /\ (ratio <? 10) = true) /\
  (result = None <-> ~ ((0.5 <? ratio) = true /\ (ratio <? 10) = true)) /\
  (ratio = 1 -> result = Some tested) /\
  (ratio = 0.1 -> result = None) /\
  (ratio = 15 -> result = None).
Proof.
  intros raw cut tested ratio result.
  assert (finalPath variant raw targetStart targetEnd = tested) as Hpath
      by apply finalPath_tested.
  assert (result =
          if (0.5 <? ratio) && (ratio <? 10) then Some tested else None)
    as Hres.
  { subst result. unfold extractGpsTrackBetweenPoints. fold raw.
    destruct (Nat.ltb_spec (length raw) 2) as [Hlt|_].
    - pose proof (short_candidate_rejected variant raw targetStart targetEnd
                    Hlt) as Hshort.
      unfold windingRatio in Hshort. rewrite Hpath in Hshort.
      fold ratio in Hshort. now rewrite Hshort.
    - unfold windingRatio, Number.gtb. rewrite Hpath. reflexivity. }
  rewrite Hres. repeat split.
  - destruct (0.5 <? ratio); [reflexivity | discriminate].
  - destruct (0.5 <? ratio), (ratio <? 10); simpl in *; congruence.
  - intros [-> ->]. reflexivity.
  - intros H [H1 H2]. rewrite H1, H2 in H. discriminate.
  - intros H. destruct (0.5 <? ratio), (ratio <? 10); simpl; try reflexivity.
    exfalso. apply H. split; reflexivity.
  - intros ->. reflexivity.
  - intros ->. reflexivity.
  - intros ->. reflexivity.
Qed.

Lemma winding_test_band_witness :
  extractGpsTrackBetweenPoints main_js [(3, 0); (3, 1); (3, 2)] 0 2
    (0, 0) (0, 2)
  = Some [(3, 0); (3, 1); (3, 2)].
Proof.
  apply (proj1 (proj2 (proj2
           (winding_test_band main_js [(3, 0); (3, 1); (3, 2)] 0 2
              (0, 0) (0, 2))))).
  vm_compute. reflexivity.
Defined.

(** Cuts whose length is exactly 0.1 times and exactly 15 times the distance
    between the targets exist, and [scripts/main.js] rejects them. *)
Example winding_ratio_tenth_rejected :
  calculateTotalDistance [(0, 0); (0, 0.2)] / calculateDistance (0, 0) (0, 2)
  = 0.1 /\
  extractGpsTrackBetweenPoints main_js [(0, 0); (0, 0.2)] 0 1 (0, 0) (0, 2)
  = None.
Proof. split; vm_compute; reflexivity. Qed.

Example winding_ratio_fifteen_rejected :
  calculateTotalDistance [(0, 0); (0, 30)] / calculateDistance (0, 0) (0, 2)
  = 15 /\
  extractGpsTrackBetweenPoints main_js [(0, 0); (0, 30)] 0 1 (0, 0) (0, 2)
  = None.
Proof. split; vm_compute; reflexivity. Qed.

(** In [unnamed/part_000] the end points are overwritten before the test, so
    the ratio of the cut itself does not decide: cuts of ratio 0.1 and 15 are
    accepted (after the overwrite the path is the straight line between the
    targets), and a cut of ratio 1 that lies far from the targets is
    rejected (after the overwrite the path makes a detour of ratio above
    10). *)
Lemma winding_test_not_of_cut :
  calculateTotalDistance [(0, 0); (0, 0.2)] / calculateDistance (0, 0) (0, 2)
  = 0.1 /\
  extractGpsTrackBetweenPoints part_000 [(0, 0); (0, 0.2)] 0 1 (0, 0) (0, 2)
  = Some [(0, 0); (0, 2)] /\
  calculateTotalDistance [(0, 0); (0, 30)] / calculateDistance (0, 0) (0, 2)
  = 15 /\
  extractGpsTrackBetweenPoints part_000 [(0, 0); (0, 30)] 0 1 (0, 0) (0, 2)
  = Some [(0, 0); (0, 2)] /\
  calculateTotalDistance [(11, 0); (11, 1); (11, 2)]
  / calculateDistance (0, 0) (0, 2) = 1 /\
  extractGpsTrackBetweenPoints part_000 [(11, 0); (11, 1); (11, 2)] 0 2
    (0, 0) (0, 2)
  = None.
Proof.
  split; [vm_compute; reflexivity|]. split; [vm_compute; reflexivity|].
  split; [vm_compute; reflexivity|]. split; [vm_compute; reflexivity|].
  split; vm_compute; reflexivity.
Qed.

(** C10. When the target start equals the target end the straight-line
    distance is [0] (or [NaN]) and the winding ratio is a division by it;
    the call completes and returns [null] for every track, every pair of
    indices and both variants: the candidate is always rejected. *)
Theorem equal_targets_rejected (variant : Variant) (gpxCoords : list Coord)
  (startIdx endIdx : nat) (target : Coord) :
  zero_or_nan (calculateDistance target target) /\
  extractGpsTrackBetweenPoints variant gpxCoords startIdx endIdx target target
  = None.
Proof.
  split; [apply calculateDistance_diag|].
  unfold extractGpsTrackBetweenPoints.
  destruct (length (rawGpsSegment gpxCoords startIdx endIdx) <? 2)%nat;
    [reflexivity|].
  unfold windingRatio.
  now rewrite division_by_zero_rejected by apply calculateDistance_diag.
Qed.

End Winding.

(** ** The nearest-point search *)

Section Nearest.

Open Scope float_scope.

Variable targetCoord : Coord.

Lemma scan_invariant (l : list (nat * Coord)) (st0 : float * nat) :
  is_number (fst st0) ->
  (forall e, In e l -> is_number (entryDistance targetCoord e)) ->
  scanned targetCoord l st0 (fold_left (closer targetCoord) l st0).
Proof.
  intros H0 Hl. induction l as [|e l IH] using rev_ind.
  - simpl. split; [assumption|]. split; [intros e []|]. now left.
  - rewrite fold_left_app. simpl.
    destruct IH as (Hn & Hmin & Hwho).
    { intros e' He'. apply Hl, in_or_app. now left. }
    set (st := fold_left (closer targetCoord) l st0) in *.
    assert (is_number (entryDistance targetCoord e)) as Hd
        by (apply Hl, in_or_app; right; now left).
    unfold closer. fold (entryDistance targetCoord e).
    destruct (entryDistance targetCoord e <? fst st) eqn:Hlt; simpl.
    + split; [assumption|]. split.
      * intros e' He'. apply in_app_or in He' as [He'|[<-|[]]].
        -- apply ltb_leb. eapply ltb_leb_trans; [exact Hlt|]. now apply Hmin.
        -- now apply leb_refl.
      * right. exists e. split; [apply in_or_app; right; now left | reflexivity].
    + split; [assumption|]. split.
      * intros e' He'. apply in_app_or in He' as [He'|[<-|[]]].
        -- now apply Hmin.
        -- now apply not_ltb_leb.
      * destruct Hwho as [->|(e' & He' & ->)]; [now left|].
        right. exists e'. split; [apply in_or_app; now left | reflexivity].
Qed.

Lemma MAX_VALUE_is_number : is_number Number.MAX_VALUE.
Proof. unfold is_number. vm_compute. discriminate. Qed.

(** A scan of a non-empty list of valid entries, started at
    [Number.MAX_VALUE], ends on one of the entries, one of least distance. *)
Lemma scan_minimum (l : list (nat * Coord)) (c0 : nat) :
  l <> [] ->
  (forall e, In e l -> (entryDistance targetCoord e <? Number.MAX_VALUE) = true) ->
  exists e, In e l /\
    snd (fold_left (closer targetCoord) l (Number.MAX_VALUE, c0)) = fst e /\
    forall e', In e' l -> (entryDistance targetCoord e <=? entryDistance targetCoord e') = true.
Proof.
  intros Hne Hvalid.
  destruct (scan_invariant l (Number.MAX_VALUE, c0)) as (Hn & Hmin & Hwho).
  { exact MAX_VALUE_is_number. }
  { intros e He. eapply ltb_is_number_l. now apply Hvalid. }
  destruct Hwho as [Heq|(e & He & Heq)].
  - exfalso. destruct l as [|e l]; [congruence|].
    specialize (Hmin e (or_introl eq_refl)). rewrite Heq in Hmin. simpl in Hmin.
    apply leb_not_ltb in Hmin. rewrite Hvalid in Hmin by now left. discriminate.
  - exists e. rewrite Heq in *. simpl in *. auto.
Qed.

(** The coarse pass visits index 0 at least, and ends on a visited index. *)
Lemma coarsePass_index (coordinates : list Coord) :
  coordinates <> [] -> validDistances targetCoord coordinates ->
  exists c, nth_error coordinates (snd (coarsePass coordinates targetCoord))
            = Some c /\
    forall i ci, nth_error coordinates i = Some ci ->
      (i mod searchStep coordinates = 0)%nat ->
      (calculateDistance c targetCoord <=? calculateDistance ci targetCoord)
      = true.
Proof.
  intros Hne Hvalid. unfold coarsePass.
  set (l := filter _ (entries coordinates)).
  destruct (scan_minimum l O) as ([i c] & Hin & Hidx & Hmin).
  - destruct coordinates as [|c0 rest]; [congruence|].
    assert (In (O, c0) l) as H0.
    { apply filter_In. split; [now apply in_entries|].
      simpl. now rewrite Nat.Div0.mod_0_l. }
    intros E. rewrite E in H0. destruct H0.
  - intros [i c] Hin. apply filter_In in Hin as [Hin _].
    apply in_entries in Hin. apply nth_error_In in Hin.
    unfold validDistances in Hvalid. rewrite Forall_forall in Hvalid.
    now apply Hvalid.
  - exists c. apply filter_In in Hin as [Hin _]. apply in_entries in Hin.
    rewrite Hidx. split; [exact Hin|].
    intros j cj Hj Hmod.
    apply (Hmin (j, cj)). apply filter_In. split; [now apply in_entries|].
    simpl. now apply Nat.eqb_eq.
Qed.

(** The refinement pass ends on an index of its window whose distance is
    least in the window; the window holds the coarse winner. *)
Lemma findClosestPointIndex_window (coordinates : list Coord) :
  coordinates <> [] -> validDistances targetCoord coordinates ->
  let coarse := snd (coarsePass coordinates targetCoord) in
  let searchStart := (coarse - searchRadius coordinates)%nat in
  let searchEnd :=
    Nat.min (length coordinates) (coarse + searchRadius coordinates)%nat in
  exists c,
    nth_error coordinates (findClosestPointIndex coordinates targetCoord)
    = Some c /\
    (searchStart <= coarse < searchEnd)%nat /\
    forall i ci, nth_error coordinates i = Some ci ->
      (searchStart <= i < searchEnd)%nat ->
      (calculateDistance c targetCoord <=? calculateDistance ci targetCoord)
      = true.
Proof.
  intros Hne Hvalid coarse searchStart searchEnd.
  destruct (coarsePass_index coordinates Hne Hvalid) as (c1 & Hc1 & _).
  fold coarse in Hc1.
  assert (coarse < length coordinates)%nat as Hlt
      by (apply nth_error_Some; congruence).
  assert (searchStart <= coarse < searchEnd)%nat as Hwin.
  { subst searchStart searchEnd. unfold searchRadius. lia. }
  unfold findClosestPointIndex. fold coarse. fold searchStart. fold searchEnd.
  set (l := slice (entries coordinates) searchStart searchEnd).
  destruct (scan_minimum l coarse) as ([i c] & Hin & Hidx & Hmin).
  - assert (In (coarse, c1) l) as H0 by now apply in_slice_entries.
    intros E. rewrite E in H0. destruct H0.
  - intros [i c] Hin. apply in_slice_entries in Hin as [_ Hin].
    apply nth_error_In in Hin.
    unfold validDistances in Hvalid. rewrite Forall_forall in Hvalid.
    now apply Hvalid.
  - exists c. apply in_slice_entries in Hin as [_ Hin].
    rewrite Hidx. split; [exact Hin|]. split; [exact Hwin|].
    intros j cj Hj Hrange. apply (Hmin (j, cj)). now apply in_slice_entries.
Qed.

Lemma searchStep_short (coordinates : list Coord) :
  (length coordinates < 2000)%nat -> searchStep coordinates = 1%nat.
Proof.
  intros H. unfold searchStep.
  assert (length coordinates / 1000 < 2)%nat
    by (apply Nat.Div0.div_lt_upper_bound; lia).
  lia.
Qed.


End Nearest.

Section NearestExamples.

Open Scope float_scope.




End NearestExamples.

(** ** End points of matched paths *)

Section Endpoints.

Lemma fold_left_invariant {S X : Type} (P : S -> Prop) (f : S -> X -> S)
  (l : list X) (s0 : S) :
  P s0 -> (forall s x, P s -> P (f s x)) -> P (fold_left f l s0).
Proof.
  intros H0 Hstep. revert s0 H0.
  induction l as [|x l IH]; intros s0 H0; simpl; auto.
Qed.

Lemma lastPoint_last (path : list Coord) (d : Coord) :
  path <> [] -> lastPoint path = Some (last path d).
Proof.
  intros Hne. unfold lastPoint.
  destruct (exists_last Hne) as (l & x & ->).
  rewrite last_last, length_app, nth_error_app2; simpl.
  - replace (length l + 1 - 1 - length l) with 0 by lia. reflexivity.
  - lia.
Qed.

Lemma assign_nth_error {A : Type} (a : list A) (i k : nat) (v : A) :
  i < length a ->
  nth_error (assign a i v) k = if k =? i then Some v else nth_error a k.
Proof.
  revert i k. induction a as [|x a IH]; intros [|i] [|k] H; simpl in *;
    try lia; try reflexivity.
  apply IH. lia.
Qed.

(** In [unnamed/part_000] a path of two points or more leaves
    [adjustEndpoints] with the targets as its end points. *)
Lemma adjustEndpoints_part_000 (path : list Coord) (s e : Coord) :
  2 <= length path ->
  firstPoint (adjustEndpoints part_000 path s e) = Some s /\
  lastPoint (adjustEndpoints part_000 path s e) = Some e.
Proof.
  intros H. unfold firstPoint, lastPoint, adjustEndpoints.
  rewrite !assign_length.
  rewrite !assign_nth_error by (rewrite ?assign_length; lia).
  rewrite !Nat.eqb_refl.
  destruct (Nat.eqb_spec 0 (length path - 1)) as [E|_]; [lia|].
  split; reflexivity.
Qed.

Lemma extract_inv (variant : Variant) (gpxCoords : list Coord)
  (startIdx endIdx : nat) (s e : Coord) (path : list Coord) :
  extractGpsTrackBetweenPoints variant gpxCoords startIdx endIdx s e = Some path ->
  2 <= length (rawGpsSegment gpxCoords startIdx endIdx) /\
  path = finalPath variant (rawGpsSegment gpxCoords startIdx endIdx) s e.
Proof.
  unfold extractGpsTrackBetweenPoints.
  destruct (Nat.ltb_spec (length (rawGpsSegment gpxCoords startIdx endIdx)) 2);
    [discriminate|].
  destruct (_ && _); [|discriminate]. intros [= <-]. auto.
Qed.

(** The candidate before its end points are treated. *)
Lemma sampled_shape (raw : list Coord) :
  2 <= length raw ->
  let sampled :=
    if 300 <? length raw then intelligentSample raw 200 else raw in
  2 <= length sampled /\
  firstPoint sampled = firstPoint raw /\
  lastPoint sampled = lastPoint raw.
Proof.
  intros H. simpl. destruct (Nat.ltb_spec 300 (length raw)) as [Hlong|_];
    [|auto].
  destruct raw as [|c raw]; [simpl in H; lia|].
  destruct (intelligentSample_shape (c :: raw) 200 c)
    as (Hlen & Hhd & Hlast); [lia | lia |].
  split; [lia|]. split.
  - unfold firstPoint. destruct (intelligentSample (c :: raw) 200);
      simpl in *; congruence.
  - rewrite (lastPoint_last _ c), (lastPoint_last (c :: raw) c);
      [congruence | discriminate |].
    intros E. rewrite E in Hlen. discriminate.
Qed.

(** The raw segment is a slice between two indices in order. *)
Lemma rawGpsSegment_slice (gpxCoords : list Coord) (startIdx endIdx : nat) :
  exists a b, a <= b /\ rawGpsSegment gpxCoords startIdx endIdx
                        = slice gpxCoords a (b + 1).
Proof.
  unfold rawGpsSegment. destruct (Nat.ltb_spec endIdx startIdx).
  - exists endIdx, startIdx. split; [lia | reflexivity].
  - exists startIdx, endIdx. split; [lia | reflexivity].
Qed.

Lemma slice_endpoints (pts : list GpxPoint) (a b : nat) :
  2 <= length (slice (map coordOf pts) a (b + 1)) ->
  recordedEndpoints pts (slice (map coordOf pts) a (b + 1)).
Proof.
  intros H. unfold slice in *.
  rewrite length_skipn, length_firstn, length_map in *.
  set (n := Nat.min (b + 1) (length pts)) in *.
  exists a, (n - 1). split; [lia|]. unfold firstPoint, lastPoint.
  rewrite length_skipn, length_firstn, length_map. fold n.
  rewrite !nth_error_skipn, !nth_error_firstn, !nth_error_map.
  replace (a + 0) with a by lia. replace (a + (n - a - 1)) with (n - 1) by lia.
  destruct (Nat.ltb_spec a (b + 1)); [|lia].
  destruct (Nat.ltb_spec (n - 1) (b + 1)); [|lia].
  split; reflexivity.
Qed.

End Endpoints.

(** ** Where a matched path comes from *)

Section MatcherResults.

Variable variant : Variant.

(** The path kept by approach 2 is one that [extractGpsTrackBetweenPoints]
    returned. *)
Lemma bestCombination_source (gpxCoords : list Coord)
  (nearbyStartPoints nearbyEndPoints : list Nearby) (s e : Coord)
  (path : list Coord) :
  fst (bestCombination variant gpxCoords nearbyStartPoints nearbyEndPoints s e)
  = Some path ->
  exists startIdx endIdx,
    extractGpsTrackBetweenPoints variant gpxCoords startIdx endIdx s e
    = Some path.
Proof.
  unfold bestCombination.
  set (P := fun best : option (list Coord) * float =>
              forall path, fst best = Some path ->
                exists startIdx endIdx,
                  extractGpsTrackBetweenPoints variant gpxCoords startIdx endIdx s e
                  = Some path).
  intros H. revert path H. change (P (fold_left
    (fun best startPoint =>
       fold_left
         (fun best endPoint =>
            if negb (index startPoint =? index endPoint) then
              match extractGpsTrackBetweenPoints variant gpxCoords
                      (index startPoint) (index endPoint) s e with
              | Some path =>
                  if 2 <=? length path then
                    let score := (nb_distance startPoint + nb_distance endPoint)%float in
                    if (score <? snd best)%float then (Some path, score) else best
                  else best
              | None => best
              end
            else best)
         nearbyEndPoints best)
    nearbyStartPoints (None, Number.MAX_VALUE))).
  apply fold_left_invariant.
  - intros path H. discriminate.
  - intros best startPoint Hbest. apply fold_left_invariant; [exact Hbest|].
    clear best Hbest. intros best endPoint Hbest.
    destruct (negb _); [|exact Hbest].
    destruct (extractGpsTrackBetweenPoints variant gpxCoords
                (index startPoint) (index endPoint) s e) as [p|] eqn:E;
      [|exact Hbest].
    destruct (2 <=? length p); [|exact Hbest].
    cbv zeta. destruct (_ <? _)%float; [|exact Hbest].
    intros path [= <-]. eauto.
Qed.

(** A path returned by approach 3 is the slice of the first index pair, in
    loop order, that is at least ten apart and within 50% of the target
    distance, with its end points treated as the variant does. *)
Lemma findSegmentByDistance_inv (track : Track) (s e : Coord)
  (path : list Coord) :
  findSegmentByDistance variant track s e = Some path ->
  exists i j,
    i + 10 <= j < length (points track) /\
    length (cumul (distance track)) = length (points track) /\
    (distanceRatio (cumul (distance track)) (targetDistance s e) i j <? 0.5)%float
    = true /\
    11 <= length (segmentCoords (points track) i j) /\
    path = adjustEndpoints variant (segmentCoords (points track) i j) s e.
Proof.
  unfold findSegmentByDistance.
  destruct (Nat.eqb_spec (length (cumul (distance track)))
              (length (points track))) as [Hlen|]; simpl; [|discriminate].
  destruct (find _ _) as [[i j]|] eqn:Hfind; [|discriminate].
  intros [= <-]. apply find_some in Hfind as [Hin Hhit].
  unfold distancePairs in Hin. apply in_flat_map in Hin as (i' & Hi' & Hin).
  apply in_map_iff in Hin as (j' & [= <- <-] & Hj').
  apply in_range in Hi'. apply in_range in Hj'.
  unfold budgetHit in Hhit. apply andb_prop in Hhit as [Hratio _]. simpl in *.
  exists i', j'. repeat split; try lia; try assumption.
  unfold segmentCoords. rewrite length_map, slice_length; lia.
Qed.

(** A path returned by the matcher comes from [extractGpsTrackBetweenPoints]
    (approaches 1 and 2) or from [findSegmentByDistance] on the first track
    (approach 3). *)
Lemma findGpxSegmentForCoordinates_sources (g : Globals)
  (allPoints : list GpxPoint) (s e : Coord) (path : list Coord) :
  findGpxSegmentForCoordinates variant g allPoints s e = Normal (Some path) ->
  (exists startIdx endIdx,
     extractGpsTrackBetweenPoints variant (map coordOf allPoints)
       startIdx endIdx s e = Some path) \/
  (exists track, firstTrack g = Some track /\
     findSegmentByDistance variant track s e = Some path).
Proof.
  unfold findGpxSegmentForCoordinates, read.
  destruct (nth_error _ _) as [closestStart|]; [|discriminate]. simpl.
  destruct (nth_error _ _) as [closestEnd|]; [|discriminate]. simpl.
  destruct (_ && _).
  - intros [= H]. left. eauto.
  - match goal with
    | |- match ?b with _ => _ end = _ -> _ => destruct b as [bestPath|] eqn:Hbest
    end.
    + intros [= <-]. left.
      destruct (_ && _) in Hbest; [|discriminate].
      now apply bestCombination_source in Hbest.
    + unfold distanceApproach, firstTrack, read.
      destruct (trailGpxParser g) as [parser|]; [|discriminate].
      destruct (nth_error (tracks parser) 0) as [track|]; simpl;
        [|discriminate].
      intros [= H]. right. eauto.
Qed.

End MatcherResults.

Section EndpointPolicy.

Open Scope float_scope.

Lemma slice_map {A B : Type} (f : A -> B) (a : list A) (from to : nat) :
  slice (map f a) from to = map f (slice a from to).
Proof. unfold slice. now rewrite firstn_map, skipn_map. Qed.

Lemma recordedEndpoints_same (pts : list GpxPoint) (path path' : list Coord) :
  firstPoint path' = firstPoint path -> lastPoint path' = lastPoint path ->
  recordedEndpoints pts path -> recordedEndpoints pts path'.
Proof.
  intros Hf Hl (i & j & Hij & Hi & Hj). exists i, j.
  rewrite Hf, Hl. auto.
Qed.

(** C4. Each variant has one end-point policy for every approach of the
    matcher.  In [unnamed/part_000] every path the matcher returns starts at
    the approximate start coordinate and ends at the approximate end
    coordinate.  In [scripts/main.js] every path the matcher returns starts
    and ends at recorded points, unmodified and in track order, of the track
    it was cut from: the points passed to the matcher, or those of
    [trailGpxParser.tracks[0]] for approach 3. *)
Theorem endpoint_policy (g : Globals) (allPoints : list GpxPoint)
  (startCoords endCoords : Coord) (path : list Coord) :
  (findGpxSegmentForCoordinates part_000 g allPoints startCoords endCoords
   = Normal (Some path) ->
   firstPoint path = Some startCoords /\ lastPoint path = Some endCoords) /\
  (findGpxSegmentForCoordinates main_js g allPoints startCoords endCoords
   = Normal (Some path) ->
   recordedEndpoints allPoints path \/
   exists track, firstTrack g = Some track /\
                 recordedEndpoints (points track) path).
Proof.
  split; intros H;
    apply findGpxSegmentForCoordinates_sources in H
      as [(si & ei & H)|(track & Htrack & H)].
  - apply extract_inv in H as [Hlen ->]. unfold finalPath.
    apply adjustEndpoints_part_000. now apply sampled_shape.
  - apply findSegmentByDistance_inv in H as (i & j & _ & _ & _ & Hlen & ->).
    apply adjustEndpoints_part_000. lia.
  - left. apply extract_inv in H as [Hlen ->]. unfold finalPath. simpl.
    destruct (sampled_shape _ Hlen) as (_ & Hf & Hl).
    apply (recordedEndpoints_same _ _ _ Hf Hl).
    destruct (rawGpsSegment_slice (map coordOf allPoints) si ei)
      as (a & b & _ & E).
    rewrite E in *. now apply slice_endpoints.
  - right. exists track. split; [exact Htrack|].
    apply findSegmentByDistance_inv in H as (i & j & _ & _ & _ & Hlen & ->).
    simpl. unfold segmentCoords in *. rewrite <- slice_map in *.
    apply slice_endpoints. lia.
Qed.

Lemma endpoint_policy_witness :
  (firstPoint [(0, 0); (0, 0.5); (0, 1)] = Some (0, 0) /\
   lastPoint [(0, 0); (0, 0.5); (0, 1)] = Some (0, 1)) /\
  (recordedEndpoints straightTrack [(0, 0.125); (0, 0.5); (0, 0.875)] \/
   exists track,
     firstTrack (mkGlobals None []) = Some track /\
     recordedEndpoints (points track) [(0, 0.125); (0, 0.5); (0, 0.875)]).
Proof.
  split.
  - apply (proj1 (endpoint_policy (mkGlobals None []) straightTrack
                    (0, 0) (0, 1) [(0, 0); (0, 0.5); (0, 1)])).
    vm_compute. reflexivity.
  - apply (proj2 (endpoint_policy (mkGlobals None []) straightTrack
                    (0, 0) (0, 1) [(0, 0.125); (0, 0.5); (0, 0.875)])).
    vm_compute. reflexivity.
Defined.

End EndpointPolicy.

(** ** The distance-budget approach *)

Section DistanceBudget.

Open Scope float_scope.

Lemma find_first {A : Type} (f : A -> bool) (l : list A) (x : A) :
  find f l = Some x ->
  exists before after,
    l = before ++ x :: after /\ f x = true /\
    forall y, In y before -> f y = false.
Proof.
  induction l as [|a l IH]; simpl; [discriminate|].
  destruct (f a) eqn:Ha.
  - intros [= <-]. exists [], l. repeat split; auto. intros y [].
  - intros H. destruct (IH H) as (before & after & -> & Hx & Hb).
    exists (a :: before), after. repeat split; auto.
    intros y [<-|Hy]; auto.
Qed.

(** C2, amended. Every path returned by the distance-budget approach is the
    slice [points[i..j]] of the first index pair, in the order of the two
    loops, with [j >= i + 10] and a cumulative-distance difference within 50%
    relative error of the target arc length, its end points treated as the
    variant does.  It is returned as it is: no winding ratio is computed. *)
Theorem distance_budget_result (variant : Variant) (track : Track)
  (startCoords endCoords : Coord) (path : list Coord) :
  findSegmentByDistance variant track startCoords endCoords = Some path ->
  exists i j before after,
    distancePairs (length (points track)) = before ++ (i, j) :: after /\
    (forall ij, In ij before ->
       budgetHit track startCoords endCoords ij = false) /\
    (i + 10 <= j < length (points track))%nat /\
    (distanceRatio (cumul (distance track))
       (targetDistance startCoords endCoords) i j <? 0.5) = true /\
    path = adjustEndpoints variant (segmentCoords (points track) i j)
             startCoords endCoords.
Proof.
  intros H. unfold findSegmentByDistance in H.
  destruct (negb _); [discriminate|].
  destruct (find _ _) as [[i j]|] eqn:Hfind; [|discriminate].
  injection H as <-.
  destruct (find_first _ _ _ Hfind) as (before & after & Hsplit & Hhit & Hb).
  exists i, j, before, after. split; [exact Hsplit|]. split; [exact Hb|].
  assert (In (i, j) (distancePairs (length (points track)))) as Hin
      by (rewrite Hsplit; apply in_or_app; right; now left).
  unfold distancePairs in Hin. apply in_flat_map in Hin as (i' & Hi' & Hin).
  apply in_map_iff in Hin as (j' & [= <- <-] & Hj').
  apply in_range in Hi'. apply in_range in Hj'.
  unfold budgetHit in Hhit. apply andb_prop in Hhit as [Hratio _].
  split; [lia|]. split; [exact Hratio | reflexivity].
Qed.

Lemma distance_budget_result_witness :
  exists i j before after,
    distancePairs 11 = before ++ (i, j) :: after /\
    (forall ij, In ij before ->
       budgetHit meridianTrack (40, -100) (40.2002, -100) ij = false) /\
    (i + 10 <= j < 11)%nat /\
    (distanceRatio (cumul (distance meridianTrack))
       (targetDistance (40, -100) (40.2002, -100)) i j <? 0.5) = true /\
    map coordOf (points meridianTrack)
    = adjustEndpoints main_js (segmentCoords (points meridianTrack) i j)
        (40, -100) (40.2002, -100).
Proof.
  apply (distance_budget_result main_js meridianTrack (40, -100)
           (40.2002, -100) (map coordOf (points meridianTrack))).
  vm_compute. reflexivity.
Defined.

(** Targets five degrees east of the meridian track: approaches 1 and 2
    find nothing within tolerance, approach 3 returns the whole track (with
    the targets as end points in [unnamed/part_000]), and the winding ratio
    of what it returns is below 0.5 in one variant and above 10 in the
    other. *)
Lemma meridianTrack_budget :
  findSegmentByDistance main_js meridianTrack (40, -100) (40.2002, -100)
  = Some (map coordOf (points meridianTrack)) /\
  findGpxSegmentForCoordinates main_js meridianGlobals (points meridianTrack)
    (40, -100) (40.2002, -100)
  = Normal (Some (map coordOf (points meridianTrack))) /\
  (windingRatio (map coordOf (points meridianTrack)) (40, -100) (40.2002, -100)
   <? 0.5) = true /\
  (exists path,
     findSegmentByDistance part_000 meridianTrack (40, -100) (40.2002, -100)
     = Some path /\
     findGpxSegmentForCoordinates part_000 meridianGlobals
       (points meridianTrack) (40, -100) (40.2002, -100)
     = Normal (Some path) /\
     (50 <? windingRatio path (40, -100) (40.2002, -100)) = true).
Proof.
  split; [vm_compute; reflexivity|].
  split; [vm_compute; reflexivity|].
  split; [vm_compute; reflexivity|].
  eexists. split; [vm_compute; reflexivity|].
  split; vm_compute; reflexivity.
Qed.

(** C2, as stated, is false: a path returned by the distance-budget approach
    need not have a winding ratio strictly between 0.5 and 10. *)
Lemma distance_budget_not_winding_tested :
  ~ (forall (variant : Variant) (track : Track) (startCoords endCoords : Coord)
       (path : list Coord),
       findSegmentByDistance variant track startCoords endCoords = Some path ->
       Number.gtb (windingRatio path startCoords endCoords) 0.5
       && (windingRatio path startCoords endCoords <? 10) = true).
Proof.
  intros H. destruct meridianTrack_budget as (Hfound & _ & Hratio & _).
  specialize (H main_js meridianTrack (40, -100) (40.2002, -100) _ Hfound).
  apply andb_prop in H as [H _]. unfold Number.gtb in H.
  assert ((windingRatio (map coordOf (points meridianTrack)) (40, -100)
             (40.2002, -100) <=? 0.5) = true) as Hle by now apply ltb_leb.
  apply leb_not_ltb in Hle. congruence.
Qed.

End DistanceBudget.

(** ** The early return of approach 1 *)

Section EarlyReturn.

Open Scope float_scope.

(** C1, at a failing input. On the detour track with targets [(0, 0)] and
    [(0, 1)], both nearest points lie on their targets, so the tolerance
    check of approach 1 passes; the candidate between them has winding ratio
    39 and is rejected; the matcher then returns [null] at once, in both
    variants, although the double loop of approach 2 run on the same input
    keeps an accepted path. *)
Lemma approach1_rejection_is_final :
  let gpxCoords := map coordOf detourTrack in
  let nearbyStartPoints :=
    firstn 5 (findNearbyIndices gpxCoords (0, 0) maxDistance) in
  let nearbyEndPoints :=
    firstn 5 (findNearbyIndices gpxCoords (0, 1) maxDistance) in
  findClosestPointIndex gpxCoords (0, 0) = 0%nat /\
  findClosestPointIndex gpxCoords (0, 1) = 2%nat /\
  (calculateDistance (0, 0) (0, 0) <=? maxDistance) = true /\
  (calculateDistance (0, 1) (0, 1) <=? maxDistance) = true /\
  windingRatio (rawGpsSegment gpxCoords 0 2) (0, 0) (0, 1) = 39 /\
  extractGpsTrackBetweenPoints main_js gpxCoords 0 2 (0, 0) (0, 1) = None /\
  extractGpsTrackBetweenPoints part_000 gpxCoords 0 2 (0, 0) (0, 1) = None /\
  findGpxSegmentForCoordinates main_js detourGlobals detourTrack (0, 0) (0, 1)
  = Normal None /\
  findGpxSegmentForCoordinates part_000 detourGlobals detourTrack (0, 0) (0, 1)
  = Normal None /\
  fst (bestCombination main_js gpxCoords nearbyStartPoints nearbyEndPoints
         (0, 0) (0, 1))
  = Some [(0, 1); (0, 0.125)] /\
  fst (bestCombination part_000 gpxCoords nearbyStartPoints nearbyEndPoints
         (0, 0) (0, 1))
  = Some [(0, 0); (0, 1)].
Proof. repeat split; vm_compute; reflexivity. Qed.

End EarlyReturn.

Section DirectMatch.

Open Scope float_scope.

(** Whenever the tolerance check of approach 1 passes, the answer of the
    matcher is the answer of [extractGpsTrackBetweenPoints] on the two
    nearest indices, accepted or not: approaches 2 and 3 are not run. *)
Lemma tolerance_pass_is_final (variant : Variant) (g : Globals)
  (allPoints : list GpxPoint) (startCoords endCoords closestStart closestEnd : Coord) :
  let gpxCoords := map coordOf allPoints in
  let bestStartIdx := findClosestPointIndex gpxCoords startCoords in
  let bestEndIdx := findClosestPointIndex gpxCoords endCoords in
  nth_error gpxCoords bestStartIdx = Some closestStart ->
  nth_error gpxCoords bestEndIdx = Some closestEnd ->
  (calculateDistance closestStart startCoords <=? maxDistance) = true ->
  (calculateDistance closestEnd endCoords <=? maxDistance) = true ->
  findGpxSegmentForCoordinates variant g allPoints startCoords endCoords
  = Normal (extractGpsTrackBetweenPoints variant gpxCoords bestStartIdx
              bestEndIdx startCoords endCoords).
Proof.
  intros gpxCoords bestStartIdx bestEndIdx Hs He Hds Hde.
  unfold findGpxSegmentForCoordinates, read.
  fold gpxCoords. fold bestStartIdx. fold bestEndIdx.
  rewrite Hs, He. simpl. now rewrite Hds, Hde.
Qed.

End DirectMatch.

(** ** The assembler *)

Section Assembler.

Lemma entries_app_singleton {A : Type} (l : list A) (x : A) :
  entries (l ++ [x]) = entries l ++ [(length l, x)].
Proof.
  apply nth_error_ext. intros k.
  rewrite entries_nth_error.
  destruct (Nat.lt_ge_cases k (length l)) as [Hlt|Hge].
  - rewrite !nth_error_app1 by (rewrite ?entries_length; lia).
    now rewrite entries_nth_error.
  - rewrite !nth_error_app2 by (rewrite ?entries_length; lia).
    rewrite entries_length.
    destruct (k - length l) as [|d] eqn:E; simpl.
    + replace k with (length l) by lia. reflexivity.
    + destruct d; reflexivity.
Qed.

Lemma describes_interpolated (spec : RouteSegment) (i : nat) :
  describes (interpolatedSegment spec i) i spec.
Proof. repeat split. Qed.

Lemma describes_build (spec : RouteSegment) (i : nat) (coords : list Coord)
  (s e : Coord) :
  describes (buildSegmentObject spec i coords s e) i spec.
Proof. repeat split. Qed.

(** A loop whose every iteration pushes one segment ends normally, with one
    segment for each entry, in order. *)
Lemma assemble
  (step : Completion Tally -> nat * RouteSegment -> Completion Tally)
  (routeData : list RouteSegment) :
  pushesOne step ->
  exists t,
    fold_left step (entries routeData) (Normal (mkTally [] 0 0)) = Normal t /\
    assembled routeData t.
Proof.
  intros Hstep. induction routeData as [|spec routeData IH] using rev_ind.
  - exists (mkTally [] 0 0). split; [reflexivity|].
    repeat split. intros [|i] spec H; discriminate.
  - destruct IH as (t & Hfold & Hlen & Hcount & Hseg).
    rewrite entries_app_singleton, fold_left_app, Hfold. simpl.
    destruct (Hstep t (length routeData) spec) as (seg & Hdesc & [E|E]);
      rewrite E; eexists; (split; [reflexivity|]);
      unfold assembled, pushMatched, pushInterpolated; simpl;
      rewrite !length_app; simpl.
    all: split; [lia|]; split; [lia|].
    all: intros i spec' Hi.
    all: destruct (Nat.lt_ge_cases i (length routeData)) as [Hlt|Hge].
    all: try (rewrite nth_error_app1 in Hi by lia;
              rewrite nth_error_app1 by lia; now apply Hseg).
    all: rewrite nth_error_app2 in Hi by lia;
      rewrite nth_error_app2 by lia; rewrite Hlen.
    all: destruct (i - length routeData) as [|d] eqn:Ed; simpl in *;
      [|destruct d; discriminate].
    all: injection Hi as <-; replace i with (length routeData) by lia;
      eauto.
Qed.

(** The early-return branch: one interpolated segment for each entry. *)
Lemma withoutGpx_segments (routeData : list RouteSegment) :
  length (coloradoTrailSegments (withoutGpx routeData)) = length routeData /\
  (forall i spec, nth_error routeData i = Some spec ->
     nth_error (coloradoTrailSegments (withoutGpx routeData)) i
     = Some (interpolatedSegment spec i)) /\
  summary (withoutGpx routeData) = None.
Proof.
  unfold withoutGpx. simpl. split; [|split; [|reflexivity]].
  - now rewrite length_map, entries_length.
  - intros i spec H. rewrite nth_error_map, entries_nth_error, H. reflexivity.
Qed.

End Assembler.

(** ** The matcher completes *)

Section Completes.

(** A scan ends on its initial index or on the index of a scanned entry. *)
Lemma scan_index (targetCoord : Coord) (l : list (nat * Coord))
  (st : float * nat) :
  snd (fold_left (closer targetCoord) l st) = snd st \/
  exists e, In e l /\ snd (fold_left (closer targetCoord) l st) = fst e.
Proof.
  revert st. induction l as [|e l IH]; intros st; simpl; [now left|].
  assert (snd (closer targetCoord st e) = snd st \/
          snd (closer targetCoord st e) = fst e) as Hstep
      by (unfold closer; destruct (_ <? _)%float; auto).
  destruct (IH (closer targetCoord st e)) as [H|(e' & He' & H)].
  - rewrite H. destruct Hstep as [->| ->]; [now left|].
    right. exists e. split; [now left | reflexivity].
  - right. exists e'. split; [now right | exact H].
Qed.

(** On a track that is not empty the nearest-point search returns an index
    of the track. *)
Lemma findClosestPointIndex_lt (coordinates : list Coord) (targetCoord : Coord) :
  coordinates <> [] ->
  findClosestPointIndex coordinates targetCoord < length coordinates.
Proof.
  intros Hne.
  assert (0 < length coordinates) as Hpos
      by (destruct coordinates; [congruence | simpl; lia]).
  assert (snd (coarsePass coordinates targetCoord) < length coordinates)
    as Hcoarse.
  { unfold coarsePass.
    destruct (scan_index targetCoord
                (filter (fun e => fst e mod searchStep coordinates =? 0)
                   (entries coordinates)) (Number.MAX_VALUE, 0))
      as [->|([i c] & Hin & ->)]; [exact Hpos|].
    apply filter_In in Hin as [Hin _]. apply in_entries in Hin.
    apply nth_error_Some. simpl. congruence. }
  unfold findClosestPointIndex.
  match goal with
  | |- snd (fold_left _ ?l ?st) < _ =>
      destruct (scan_index targetCoord l st) as [->|([i c] & Hin & ->)]
  end; [exact Hcoarse|].
  apply in_slice_entries in Hin as [_ Hin].
  apply nth_error_Some. simpl. congruence.
Qed.

(** With a track that is not empty, and a first track in the parser for
    approach 3 to read, the matcher raises no exception. *)
Lemma findGpxSegmentForCoordinates_completes (variant : Variant) (g : Globals)
  (allPoints : list GpxPoint) (track : Track) (startCoords endCoords : Coord) :
  allPoints <> [] -> firstTrack g = Some track ->
  exists result,
    findGpxSegmentForCoordinates variant g allPoints startCoords endCoords
    = Normal result.
Proof.
  intros Hne Htrack. unfold findGpxSegmentForCoordinates, read.
  assert (map coordOf allPoints <> []) as Hne'
      by (destruct allPoints; [congruence | discriminate]).
  destruct (nth_error (map coordOf allPoints)
              (findClosestPointIndex (map coordOf allPoints) startCoords))
    as [cs|] eqn:Es.
  2: { apply nth_error_None in Es.
       pose proof (findClosestPointIndex_lt _ startCoords Hne'). lia. }
  destruct (nth_error (map coordOf allPoints)
              (findClosestPointIndex (map coordOf allPoints) endCoords))
    as [ce|] eqn:Ee.
  2: { apply nth_error_None in Ee.
       pose proof (findClosestPointIndex_lt _ endCoords Hne'). lia. }
  simpl. destruct (_ && _); [eauto|].
  match goal with
  | |- exists _, match ?b with _ => _ end = _ => destruct b
  end; [eauto|].
  unfold distanceApproach, firstTrack, read in *.
  destruct (trailGpxParser g) as [parser|]; [|discriminate].
  rewrite Htrack. simpl. eauto.
Qed.

End Completes.

(** ** Runs of the assembler *)

Section Runs.

Lemma fold_left_lift {S X : Type} (f : S -> X -> S) (l : list X) (s0 : S) :
  fold_left (fun acc x => s <- acc ;; Normal (f s x)) l (Normal s0)
  = Normal (fold_left f l s0).
Proof.
  revert s0. induction l as [|x l IH]; intros s0; simpl; [reflexivity|].
  apply IH.
Qed.

Lemma Part000_pushesOne (g : Globals) (allPoints : list GpxPoint) (track : Track) :
  allPoints <> [] -> firstTrack g = Some track ->
  pushesOne (Part000.processOne g allPoints).
Proof.
  intros Hne Htrack t i spec. unfold Part000.processOne. cbn [bind].
  destruct (findGpxSegmentForCoordinates_completes part_000 g allPoints track
              (startCoordsOf spec) (endCoordsOf spec) Hne Htrack) as [r ->].
  cbn [bind]. destruct r as [[|first rest]|].
  - exists (interpolatedSegment spec i). split; [apply describes_interpolated|].
    now right.
  - destruct (2 <=? length (first :: rest)).
    + eexists. split; [apply describes_build|]. now left.
    + exists (interpolatedSegment spec i).
      split; [apply describes_interpolated|]. now right.
  - exists (interpolatedSegment spec i). split; [apply describes_interpolated|].
    now right.
Qed.

Lemma MainJs_pushesOne (parser : GpxParser) :
  pushesOne (fun acc e => t <- acc ;; Normal (MainJs.processOne parser t e)).
Proof.
  intros t i spec. cbn [bind]. unfold MainJs.processOne.
  destruct (nth_error (MainJs.CORRECT_TRACK_ORDER parser) i) as [[m|]|].
  2, 3: exists (interpolatedSegment spec i);
    (split; [apply describes_interpolated | now right]).
  destruct (nth_error (tracks parser) (MainJs.gpxTrackIndex m)) as [gpxTrack|].
  2: exists (interpolatedSegment spec i);
    (split; [apply describes_interpolated | now right]).
  destruct (map coordOf (points gpxTrack)) as [|gpxStartCoords rest].
  - exists (interpolatedSegment spec i).
    split; [apply describes_interpolated | now right].
  - destruct (2 <=? length (gpxStartCoords :: rest)).
    + eexists. split; [apply describes_build|]. now left.
    + exists (interpolatedSegment spec i).
      split; [apply describes_interpolated | now right].
Qed.

(** [scripts/main.js]: with a parser object the loop runs to its end for
    every route list. *)
Lemma MainJs_assembles (g : Globals) (parser : GpxParser)
  (routeData : list RouteSegment) :
  trailGpxParser g = Some parser ->
  exists t,
    MainJs.processSegmentData g routeData = Normal (summarize t) /\
    assembled routeData t.
Proof.
  intros Hparser. unfold MainJs.processSegmentData. rewrite Hparser.
  destruct (assemble _ routeData (MainJs_pushesOne parser)) as (t & Hfold & Ht).
  rewrite fold_left_lift in Hfold. injection Hfold as Hfold.
  exists t. now rewrite Hfold.
Qed.

(** [unnamed/part_000]: with a loaded track that is not empty the loop runs
    to its end for every route list that is not empty. *)
Lemma Part000_assembles (g : Globals) (parser : GpxParser) (track : Track)
  (routeData : list RouteSegment) :
  trailGpxParser g = Some parser -> gpxTrailPoints g <> [] ->
  nth_error (tracks parser) 0 = Some track -> points track <> [] ->
  routeData <> [] ->
  exists t,
    Part000.processSegmentData g routeData = Normal (summarize t) /\
    assembled routeData t.
Proof.
  intros Hparser Hpts Htrack Hne Hroute. unfold Part000.processSegmentData.
  rewrite Hparser.
  destruct (gpxTrailPoints g) as [|c0 cs] eqn:Eg; [congruence|]. simpl length.
  cbv iota beta. unfold read at 1. rewrite Htrack. simpl bind.
  assert (forall {A : Type} (l : list A), l <> [] ->
            (exists x, read l 0 = Normal x) /\
            (exists x, read l (length l - 1) = Normal x)) as Hread.
  { intros A l Hl. unfold read. split.
    - destruct l; [congruence|]. simpl. eauto.
    - destruct (nth_error l (length l - 1)) eqn:E; [eauto|].
      apply nth_error_None in E. destruct l; [congruence|]. simpl in E. lia. }
  destruct (Hread _ _ Hne) as [[x1 ->] [x2 ->]].
  destruct (Hread _ _ Hroute) as [[x3 ->] [x4 ->]]. simpl bind.
  assert (firstTrack g = Some track) as Hfirst
      by (unfold firstTrack; now rewrite Hparser).
  destruct (assemble _ routeData (Part000_pushesOne g _ track Hne Hfirst))
    as (t & -> & Ht).
  exists t. split; [reflexivity | exact Ht].
Qed.

(** The summary holds the two counters and the coverage computed from
    them. *)
Lemma summarize_counts (routeData : list RouteSegment) (t : Tally) :
  assembled routeData t ->
  length (coloradoTrailSegments (summarize t)) = length routeData /\
  exists s, summary (summarize t) = Some s /\
    gpxMatchCount s + interpolatedCount s = length routeData /\
    coverage s
    = (Number.of_nat (gpxMatchCount s) / Number.of_nat (length routeData)
       * 100)%float.
Proof.
  intros (Hlen & Hcount & _). split; [exact Hlen|].
  eexists. split; [reflexivity|]. simpl. rewrite Hlen. auto.
Qed.

End Runs.

(** ** Runs without GPS data *)

Section Degraded.

Lemma createInterpolatedPath_length (startCoords endCoords : Coord) :
  length (createInterpolatedPath startCoords endCoords) = 11.
Proof. rewrite createInterpolatedPath_unfold. reflexivity. Qed.

Lemma fold_left_same {S X : Type} (f f' : S -> X -> S) (l : list X) (s0 : S) :
  (forall s x, f s x = f' s x) -> fold_left f l s0 = fold_left f' l s0.
Proof.
  intros H. revert s0. induction l as [|x l IH]; intros s0; simpl;
    [reflexivity|]. now rewrite H, IH.
Qed.

Lemma fold_pushInterpolated (l : list (nat * RouteSegment)) (t0 : Tally) :
  fold_left
    (fun t e => pushInterpolated t (interpolatedSegment (snd e) (fst e))) l t0
  = {| segments :=
         segments t0 ++ map (fun e => interpolatedSegment (snd e) (fst e)) l;
       matched := matched t0;
       interpolated := interpolated t0 + length l |}.
Proof.
  revert t0. induction l as [|e l IH]; intros [segs m n]; simpl.
  - now rewrite app_nil_r, Nat.add_0_r.
  - rewrite IH. simpl. rewrite <- app_assoc. simpl. f_equal. lia.
Qed.

(** [scripts/main.js]: when no track of the parser has two points, every
    iteration takes an interpolating branch. *)
Lemma MainJs_processOne_unusable (parser : GpxParser) :
  (forall track, In track (tracks parser) -> length (points track) < 2) ->
  forall t e,
    MainJs.processOne parser t e
    = pushInterpolated t (interpolatedSegment (snd e) (fst e)).
Proof.
  intros Hshort t [i spec]. unfold MainJs.processOne. simpl.
  destruct (nth_error (MainJs.CORRECT_TRACK_ORDER parser) i) as [[m|]|];
    try reflexivity.
  destruct (nth_error (tracks parser) (MainJs.gpxTrackIndex m))
    as [gpxTrack|] eqn:E; [|reflexivity].
  apply nth_error_In, Hshort in E.
  destruct (points gpxTrack) as [|p [|q rest]]; simpl in *; try reflexivity.
  lia.
Qed.

(** C6, amended. When no GPX data is available (no parser object, or in
    [unnamed/part_000] also an empty [gpxTrailPoints]) the assembler
    completes without an exception and leaves one segment for each entry of
    the route list, in order, each built by interpolation: eleven points from
    the entry's start coordinate to its end coordinate.  That branch returns
    before any counter exists, so it reports no count and no coverage.  In
    [scripts/main.js], when the parser object exists but none of its tracks
    has two points, the same segments are made by the main loop, which
    reports 0 matched, all interpolated, and a coverage of [0 / total * 100]. *)
Theorem without_gpx_all_interpolated (routeData : list RouteSegment) :
  (forall g, trailGpxParser g = None \/ gpxTrailPoints g = [] ->
     Part000.processSegmentData g routeData = Normal (withoutGpx routeData)) /\
  (forall g, trailGpxParser g = None ->
     MainJs.processSegmentData g routeData = Normal (withoutGpx routeData)) /\
  length (coloradoTrailSegments (withoutGpx routeData)) = length routeData /\
  (forall i spec, nth_error routeData i = Some spec ->
     exists seg,
       nth_error (coloradoTrailSegments (withoutGpx routeData)) i = Some seg /\
       describes seg i spec /\
       coordinates seg
       = createInterpolatedPath (startCoordsOf spec) (endCoordsOf spec) /\
       length (coordinates seg) = steps + 1 /\
       startCoords seg = startCoordsOf spec /\
       endCoords seg = endCoordsOf spec) /\
  summary (withoutGpx routeData) = None /\
  (forall g parser, trailGpxParser g = Some parser ->
     (forall track, In track (tracks parser) -> length (points track) < 2) ->
     MainJs.processSegmentData g routeData
     = Normal
         {| coloradoTrailSegments := coloradoTrailSegments (withoutGpx routeData);
            summary :=
              Some {| gpxMatchCount := 0;
                      interpolatedCount := length routeData;
                      coverage :=
                        (Number.of_nat 0 / Number.of_nat (length routeData)
                         * 100)%float |} |}).
Proof.
  destruct (withoutGpx_segments routeData) as (Hlen & Hseg & Hsum).
  split; [|split; [|split; [exact Hlen|split; [|split; [exact Hsum|]]]]].
  - intros g [H|H]; unfold Part000.processSegmentData; rewrite H;
      [reflexivity|]. destruct (trailGpxParser g); reflexivity.
  - intros g H. unfold MainJs.processSegmentData. now rewrite H.
  - intros i spec Hi. exists (interpolatedSegment spec i).
    split; [now apply Hseg|]. split; [apply describes_interpolated|].
    split; [reflexivity|]. split; [apply createInterpolatedPath_length|].
    split; reflexivity.
  - intros g parser Hparser Hshort. unfold MainJs.processSegmentData.
    rewrite Hparser. f_equal.
    rewrite (fold_left_same _ _ _ _ (MainJs_processOne_unusable parser Hshort)).
    rewrite fold_pushInterpolated. unfold summarize, withoutGpx. simpl.
    now rewrite length_map, entries_length.
Qed.

Lemma without_gpx_all_interpolated_witness :
  Part000.processSegmentData (mkGlobals None []) exampleRoute
  = Normal (withoutGpx exampleRoute).
Proof.
  apply (proj1 (without_gpx_all_interpolated exampleRoute)).
  left. reflexivity.
Defined.

(** C6, as stated, is false: without GPX data no report exists at the end of
    the run, for three entries or any other number. *)
Lemma no_report_without_gpx :
  ~ (forall g routeData,
       trailGpxParser g = None \/ gpxTrailPoints g = [] ->
       exists out s,
         Part000.processSegmentData g routeData = Normal out /\
         summary out = Some s /\
         gpxMatchCount s = 0 /\ interpolatedCount s = length routeData).
Proof.
  intros H.
  destruct (H (mkGlobals None []) exampleRoute (or_introl eq_refl))
    as (out & s & Hout & Hs & _).
  vm_compute in Hout. injection Hout as <-. discriminate.
Qed.

End Degraded.

(** ** Runs with GPS data *)

Section Loaded.

(** With GPS data the assembler leaves one segment for each entry of a route
    list, at the same position and with the entry's descriptive fields; each
    is counted once, as matched or as interpolated, and the coverage is the
    matched count over the total, times 100.  This holds in
    [scripts/main.js] for every route list and in [unnamed/part_000] for
    every route list that is not empty. *)
Lemma assembler_one_per_entry (g : Globals) (parser : GpxParser)
  (routeData : list RouteSegment) :
  trailGpxParser g = Some parser ->
  (exists out s,
     MainJs.processSegmentData g routeData = Normal out /\
     length (coloradoTrailSegments out) = length routeData /\
     (forall i spec, nth_error routeData i = Some spec ->
        exists seg, nth_error (coloradoTrailSegments out) i = Some seg /\
                    describes seg i spec) /\
     summary out = Some s /\
     gpxMatchCount s + interpolatedCount s = length routeData /\
     coverage s
     = (Number.of_nat (gpxMatchCount s) / Number.of_nat (length routeData)
        * 100)%float) /\
  (forall track,
     gpxTrailPoints g <> [] -> nth_error (tracks parser) 0 = Some track ->
     points track <> [] -> routeData <> [] ->
     exists out s,
       Part000.processSegmentData g routeData = Normal out /\
       length (coloradoTrailSegments out) = length routeData /\
       (forall i spec, nth_error routeData i = Some spec ->
          exists seg, nth_error (coloradoTrailSegments out) i = Some seg /\
                      describes seg i spec) /\
       summary out = Some s /\
       gpxMatchCount s + interpolatedCount s = length routeData /\
       coverage s
       = (Number.of_nat (gpxMatchCount s) / Number.of_nat (length routeData)
          * 100)%float).
Proof.
  intros Hparser. split.
  - destruct (MainJs_assembles g parser routeData Hparser) as (t & -> & Ht).
    destruct (summarize_counts routeData t Ht) as (Hlen & s & Hs & Hc & Hcov).
    exists (summarize t), s. destruct Ht as (_ & _ & Hseg). auto 10.
  - intros track Hpts Htrack Hne Hroute.
    destruct (Part000_assembles g parser track routeData Hparser Hpts Htrack
                Hne Hroute) as (t & -> & Ht).
    destruct (summarize_counts routeData t Ht) as (Hlen & s & Hs & Hc & Hcov).
    exists (summarize t), s. destruct Ht as (_ & _ & Hseg). auto 10.
Qed.

(** C7, at a failing input. With a track loaded and an empty route list,
    [unnamed/part_000] raises a [TypeError] before its loop, on the logged
    [routeData[0].name]; [scripts/main.js] completes with no segment and
    both counters at 0. *)
Lemma empty_route_list_raises :
  Part000.processSegmentData meridianGlobals [] = TypeError /\
  exists s,
    MainJs.processSegmentData meridianGlobals []
    = Normal {| coloradoTrailSegments := []; summary := Some s |} /\
    gpxMatchCount s = 0 /\ interpolatedCount s = 0.
Proof.
  split; [vm_compute; reflexivity|].
  eexists. split; [vm_compute; reflexivity|]. split; reflexivity.
Qed.

End Loaded.

(** ** More facts about doubles *)

Section FloatSigns.

Open Scope float_scope.

Lemma binary_round_aux_opp (s : bool) (m e : Z) (l : location) :
  binary_round_aux prec emax (negb s) m e l
  = SFopp (binary_round_aux prec emax s m e l).
Proof.
  unfold binary_round_aux.
  destruct (shr_fexp prec emax m e l) as [mrs' e'].
  destruct (shr_fexp prec emax _ e' loc_Exact) as [mrs'' e''].
  destruct (shr_m mrs''); try reflexivity.
  match goal with |- context [if ?b then _ else _] => destruct b end;
    reflexivity.
Qed.

Lemma binary_normalize_opp (m e : Z) :
  (m <> 0)%Z ->
  binary_normalize prec emax (- m) e false
  = SFopp (binary_normalize prec emax m e false).
Proof.
  intros H. destruct m as [|p|p]; [congruence| |]; simpl;
    unfold binary_round;
    destruct (shl_align p e _) as [mz ez];
    [apply (binary_round_aux_opp false) | apply (binary_round_aux_opp true)].
Qed.

(** Exchanging the operands of a subtraction changes the sign of the
    result, unless the result is the [+0] of equal operands. *)
Lemma SFsub_swap (x y : spec_float) :
  SFsub prec emax y x = SFopp (SFsub prec emax x y) \/
  (SFsub prec emax y x = S754_zero false /\
   SFsub prec emax x y = S754_zero false).
Proof.
  destruct x as [sx|sx| |sx mx ex], y as [sy|sy| |sy my ey]; simpl;
    try (destruct sx, sy; simpl; auto; fail);
    try (destruct sx; simpl; auto; fail);
    try (destruct sy; simpl; auto; fail); auto.
  rewrite (Z.min_comm ey ex).
  set (P := cond_Zopp sx (Z.pos (fst (shl_align mx ex (Z.min ex ey))))).
  set (Q := cond_Zopp sy (Z.pos (fst (shl_align my ey (Z.min ex ey))))).
  destruct (Z.eq_dec (P - Q) 0) as [E|E].
  - right. replace (Q - P)%Z with 0%Z by lia. rewrite E. split; reflexivity.
  - left. replace (Q - P)%Z with (- (P - Q))%Z by lia.
    now apply binary_normalize_opp.
Qed.

Lemma SFmul_opp_opp (x : spec_float) :
  SFmul prec emax (SFopp x) (SFopp x) = SFmul prec emax x x.
Proof. destruct x as [s|s| |s m e]; try destruct s; reflexivity. Qed.

Lemma pow2_sub_swap (a b : float) : Number.pow2 (a - b) = Number.pow2 (b - a).
Proof.
  apply Prim2SF_inj. unfold Number.pow2. rewrite !mul_spec, !sub_spec.
  unfold SF64mul, SF64sub.
  destruct (SFsub_swap (Prim2SF a) (Prim2SF b)) as [->|[-> ->]];
    [now rewrite SFmul_opp_opp | reflexivity].
Qed.

Lemma not_negative_ltb (x : float) : not_negative x -> (x <? 0) = false.
Proof.
  unfold not_negative. rewrite ltb_spec.
  replace (Prim2SF 0) with (S754_zero false) by reflexivity.
  unfold SFltb. destruct (Prim2SF x) as [s|s| |s m e]; simpl;
    try (intros ->); reflexivity.
Qed.

Lemma binary_round_aux_not_negative (m e : Z) (l : location) :
  sf_not_negative (binary_round_aux prec emax false m e l).
Proof.
  unfold binary_round_aux.
  destruct (shr_fexp prec emax m e l) as [mrs' e'].
  destruct (shr_fexp prec emax _ e' loc_Exact) as [mrs'' e''].
  destruct (shr_m mrs''); simpl; auto.
  match goal with |- context [if ?b then _ else _] => destruct b end;
    reflexivity.
Qed.

Lemma pow2_not_negative (x : float) : not_negative (Number.pow2 x).
Proof.
  unfold not_negative, Number.pow2. rewrite mul_spec. unfold SF64mul, SFmul.
  destruct (Prim2SF x) as [s|s| |s m e]; try destruct s; simpl; auto;
    apply binary_round_aux_not_negative.
Qed.

Lemma add_not_negative (x y : float) :
  not_negative x -> not_negative y -> not_negative (x + y).
Proof.
  unfold not_negative. rewrite add_spec. unfold SF64add, SFadd.
  destruct (Prim2SF x) as [sx|sx| |sx mx ex], (Prim2SF y) as [sy|sy| |sy my ey];
    simpl; try (intros -> ->); try (intros ->); try (intros _ ->); simpl; auto.
  unfold binary_round.
  destruct (shl_align _ _ _) as [mz ez]. apply binary_round_aux_not_negative.
Qed.

Lemma sqrt_not_negative (x : float) : not_negative x -> not_negative (sqrt x).
Proof.
  unfold not_negative. rewrite sqrt_spec. unfold SF64sqrt, SFsqrt.
  destruct (Prim2SF x) as [s|s| |s m e]; simpl; try (intros ->); simpl; auto.
  destruct (SFsqrt_core_binary prec emax (Z.pos m) e) as [[mz ez] lz].
  apply binary_round_aux_not_negative.
Qed.

Lemma div_not_negative (x y : float) :
  not_negative x -> not_negative y -> not_negative (x / y).
Proof.
  unfold not_negative. rewrite div_spec. unfold SF64div, SFdiv.
  destruct (Prim2SF x) as [sx|sx| |sx mx ex], (Prim2SF y) as [sy|sy| |sy my ey];
    simpl; try (intros -> ->); try (intros ->); try (intros _ ->); simpl; auto.
  destruct (SFdiv_core_binary prec emax (Z.pos mx) ex (Z.pos my) ey)
    as [[mz ez] lz].
  apply binary_round_aux_not_negative.
Qed.

Lemma calculateDistance_not_negative (a b : Coord) :
  not_negative (calculateDistance a b).
Proof.
  unfold calculateDistance.
  apply sqrt_not_negative, add_not_negative; apply pow2_not_negative.
Qed.

Lemma calculateTotalDistance_not_negative (path : list Coord) :
  not_negative (calculateTotalDistance path).
Proof.
  unfold calculateTotalDistance.
  apply (fold_left_invariant not_negative).
  - reflexivity.
  - intros t [p c] Ht. apply add_not_negative; [exact Ht|].
    apply calculateDistance_not_negative.
Qed.

End FloatSigns.

(** ** Planar distances *)

Section PlanarDistance.

Open Scope float_scope.

(** X1. The planar distance is symmetric: exchanging the two coordinates
    gives the same double, for all coordinates, [NaN] and infinities
    included. *)
Theorem calculateDistance_symmetric (coord1 coord2 : Coord) :
  calculateDistance coord1 coord2 = calculateDistance coord2 coord1.
Proof.
  unfold calculateDistance.
  now rewrite (pow2_sub_swap (fst coord1)), (pow2_sub_swap (snd coord1)).
Qed.

(** X2. A planar distance, the length of a path and a winding ratio are never
    below zero: each is [NaN], [+0], a positive number or positive infinity;
    and a path of fewer than two points has length [0]. *)
Theorem distances_never_negative (coord1 coord2 : Coord) (path : list Coord) :
  not_negative (calculateDistance coord1 coord2) /\
  (calculateDistance coord1 coord2 <? 0) = false /\
  not_negative (calculateTotalDistance path) /\
  (calculateTotalDistance path <? 0) = false /\
  ((length path < 2)%nat -> calculateTotalDistance path = 0) /\
  (windingRatio path coord1 coord2 <? 0) = false.
Proof.
  pose proof (calculateDistance_not_negative coord1 coord2) as Hd.
  pose proof (calculateTotalDistance_not_negative path) as Ht.
  repeat split; auto using not_negative_ltb.
  - apply calculateTotalDistance_short.
  - apply not_negative_ltb, div_not_negative; assumption.
Qed.

Lemma distances_never_negative_witness :
  calculateTotalDistance [(39.5, -105)] = 0.
Proof.
  apply (distances_never_negative (0, 0) (0, 1) [(39.5, -105)]).
  apply (proj1 (Nat.ltb_lt 1 2)). reflexivity.
Defined.

End PlanarDistance.

(** ** The nearest-point search: bounds and ties *)

Section NearestTies.

Variable targetCoord : Coord.

(** A scan of valid entries started at [Number.MAX_VALUE] ends on the first
    entry of least distance: the entries before it are strictly farther, the
    entries after it are not nearer. *)
Lemma scan_first (l : list (nat * Coord)) (c0 : nat) :
  (forall e, In e l ->
     (entryDistance targetCoord e <? Number.MAX_VALUE)%float = true) ->
  l = [] \/
  exists before e after,
    l = before ++ e :: after /\
    fold_left (closer targetCoord) l (Number.MAX_VALUE, c0)
    = (entryDistance targetCoord e, fst e) /\
    (forall e', In e' before ->
       (entryDistance targetCoord e <? entryDistance targetCoord e')%float
       = true) /\
    (forall e', In e' after ->
       (entryDistance targetCoord e <=? entryDistance targetCoord e')%float
       = true).
Proof.
  induction l as [|x l IH] using rev_ind; intros Hvalid; [now left|].
  right. rewrite fold_left_app. simpl.
  assert (forall e, In e l ->
            (entryDistance targetCoord e <? Number.MAX_VALUE)%float = true)
    as Hl
      by (intros e He; apply Hvalid, in_or_app; now left).
  assert ((entryDistance targetCoord x <? Number.MAX_VALUE)%float = true) as Hx
      by (apply Hvalid, in_or_app; right; now left).
  destruct (IH Hl) as [->|(before & e & after & -> & Hfold & Hb & Ha)].
  - simpl. unfold closer. fold (entryDistance targetCoord x). simpl.
    rewrite Hx. exists [], x, []. repeat split; intros e' [].
  - rewrite Hfold. unfold closer. fold (entryDistance targetCoord x). simpl.
    destruct (entryDistance targetCoord x <? entryDistance targetCoord e)%float
      eqn:Hlt.
    + exists (before ++ e :: after), x, []. rewrite <- app_assoc. simpl.
      split; [reflexivity|]. split; [reflexivity|]. split; [|intros e' []].
      intros e' He'. apply in_app_or in He' as [He'|[<-|He']].
      * eapply ltb_leb_trans; [exact Hlt|]. now apply ltb_leb, Hb.
      * exact Hlt.
      * eapply ltb_leb_trans; [exact Hlt|]. now apply Ha.
    + exists before, e, (after ++ [x]). rewrite <- app_assoc. simpl.
      split; [reflexivity|]. split; [reflexivity|]. split; [exact Hb|].
      intros e' He'. apply in_app_or in He' as [He'|[<-|[]]];
        [now apply Ha|].
      apply not_ltb_leb; [| |exact Hlt].
      * eapply ltb_is_number_l. exact Hx.
      * eapply ltb_is_number_l. apply Hl. apply in_or_app. right. now left.
Qed.

(** In a split list, what lies before the middle element has a smaller
    position and what lies after it a larger one. *)
Lemma split_before {A : Type} (before after : list A) (e : A) (k : nat)
  (x : A) :
  nth_error (before ++ e :: after) k = Some x ->
  (k < length before -> In x before) /\
  (k = length before -> x = e) /\
  (length before < k -> In x after).
Proof.
  intros H. repeat split; intros Hk.
  - rewrite nth_error_app1 in H by exact Hk. eapply nth_error_In; eauto.
  - subst k. rewrite nth_error_app2, Nat.sub_diag in H by lia.
    simpl in H. congruence.
  - rewrite nth_error_app2 in H by lia.
    destruct (k - length before)%nat as [|d] eqn:E; [lia|]. simpl in H.
    eapply nth_error_In; eauto.
Qed.

(** The window scanned by the refinement pass, with the least-distance facts
    of [scan_first] read on indices. *)
Lemma window_first (coordinates : list Coord) (from to c0 : nat) :
  validDistances targetCoord coordinates ->
  to <= length coordinates -> from < to ->
  let r :=
    snd (fold_left (closer targetCoord)
           (slice (entries coordinates) from to) (Number.MAX_VALUE, c0)) in
  exists c,
    nth_error coordinates r = Some c /\ from <= r < to /\
    forall i ci, nth_error coordinates i = Some ci -> from <= i < to ->
      (i < r ->
       (calculateDistance c targetCoord
        <? calculateDistance ci targetCoord)%float
       = true) /\
      (r < i ->
       (calculateDistance c targetCoord
        <=? calculateDistance ci targetCoord)%float
       = true).
Proof.
  intros Hvalid Hto Hlt r. subst r.
  set (l := slice (entries coordinates) from to).
  assert (forall k, nth_error l k
            = if from + k <? to
              then option_map (pair (from + k))
                     (nth_error coordinates (from + k))
              else None) as Hnth.
  { intros k. unfold l. rewrite slice_nth_error.
    destruct (from + k <? to); [apply entries_nth_error | reflexivity]. }
  destruct (scan_first l c0)
    as [E|(before & [r c] & after & El & -> & Hb & Ha)].
  - intros [i c] Hin. apply in_slice_entries in Hin as [_ Hin].
    apply nth_error_In in Hin.
    unfold validDistances in Hvalid. rewrite Forall_forall in Hvalid.
    now apply Hvalid.
  - exfalso. specialize (Hnth 0). rewrite E in Hnth. simpl in Hnth.
    destruct (Nat.ltb_spec (from + 0) to); [|lia].
    destruct (nth_error coordinates (from + 0)) eqn:E0; [discriminate|].
    apply nth_error_None in E0. lia.
  - simpl.
    assert (In (r, c) l) as Hin
        by (rewrite El; apply in_or_app; right; now left).
    apply in_slice_entries in Hin as [Hr Hc].
    assert (r = from + length before) as Hpos.
    { pose proof (Hnth (length before)) as H. rewrite El in H.
      rewrite nth_error_app2, Nat.sub_diag in H by lia. simpl in H.
      destruct (from + length before <? to); [|discriminate].
      destruct (nth_error coordinates (from + length before));
        simpl in H; congruence. }
    exists c. split; [exact Hc|]. split; [exact Hr|].
    intros i ci Hi Hrange.
    assert (nth_error (before ++ (r, c) :: after) (i - from) = Some (i, ci))
      as Hk.
    { rewrite <- El, Hnth. replace (from + (i - from)) with i by lia.
      destruct (Nat.ltb_spec i to); [|lia]. now rewrite Hi. }
    destruct (split_before _ _ _ _ _ Hk) as (H1 & _ & H3).
    split; intros Hir.
    + apply (Hb (i, ci)). apply H1. lia.
    + apply (Ha (i, ci)). apply H3. lia.
Qed.

Lemma coarse_entries_short (coordinates : list Coord) :
  length coordinates < 2000 ->
  filter (fun e => fst e mod searchStep coordinates =? 0) (entries coordinates)
  = slice (entries coordinates) 0 (length coordinates).
Proof.
  intros H. rewrite (searchStep_short _ H). unfold slice. simpl.
  rewrite firstn_all2 by (rewrite entries_length; lia).
  apply forallb_filter_id, forallb_forall. intros e _.
  reflexivity.
Qed.

(** X3. On a track that is not empty the two-pass search returns an index of
    the track; on the empty track it returns 0. *)
Theorem findClosestPointIndex_in_bounds (coordinates : list Coord) :
  (coordinates <> [] ->
   findClosestPointIndex coordinates targetCoord < length coordinates) /\
  (coordinates = [] -> findClosestPointIndex coordinates targetCoord = 0).
Proof.
  split; [apply findClosestPointIndex_lt | intros ->; reflexivity].
Qed.

(** X4. Ties go to the lowest index.  For every non-empty track whose planar
    distances to the target are numbers below [Number.MAX_VALUE], every
    index of the refinement window before the returned one is strictly
    farther from the target; when the track has fewer than 2000 points,
    every index of the track before the returned one is strictly farther,
    and the refinement pass returns the winner of the coarse pass. *)
Theorem findClosestPointIndex_first (coordinates : list Coord) :
  coordinates <> [] -> validDistances targetCoord coordinates ->
  exists c,
    nth_error coordinates (findClosestPointIndex coordinates targetCoord)
    = Some c /\
    (forall i ci, nth_error coordinates i = Some ci ->
       snd (coarsePass coordinates targetCoord) - searchRadius coordinates
       <= i ->
       i < findClosestPointIndex coordinates targetCoord ->
       (calculateDistance c targetCoord
        <? calculateDistance ci targetCoord)%float
       = true) /\
    (length coordinates < 2000 ->
     findClosestPointIndex coordinates targetCoord
     = snd (coarsePass coordinates targetCoord) /\
     forall i ci, nth_error coordinates i = Some ci ->
       i < findClosestPointIndex coordinates targetCoord ->
       (calculateDistance c targetCoord
        <? calculateDistance ci targetCoord)%float
       = true).
Proof.
  intros Hne Hvalid.
  assert (0 < length coordinates) as Hpos
      by (destruct coordinates; [congruence | simpl; lia]).
  destruct (coarsePass_index targetCoord coordinates Hne Hvalid)
    as (c1 & Hc1 & _).
  set (coarse := snd (coarsePass coordinates targetCoord)) in *.
  assert (coarse < length coordinates) as Hcoarse
      by (apply nth_error_Some; congruence).
  set (from := coarse - searchRadius coordinates).
  set (to := Nat.min (length coordinates) (coarse + searchRadius coordinates)).
  assert (from <= coarse < to) as Hwin
      by (subst from to; unfold searchRadius; lia).
  destruct (window_first coordinates from to coarse Hvalid)
    as (c & Hc & Hr & Hmin); [subst to; lia | lia |].
  change (snd (fold_left (closer targetCoord)
                 (slice (entries coordinates) from to)
                 (Number.MAX_VALUE, coarse)))
    with (findClosestPointIndex coordinates targetCoord) in *.
  set (r := findClosestPointIndex coordinates targetCoord) in *.
  exists c. split; [exact Hc|]. split.
  - intros i ci Hi Hfrom Hir. apply (Hmin i ci Hi); lia.
  - intros Hshort.
    destruct (window_first coordinates 0 (length coordinates) 0 Hvalid)
      as (c1' & Hc1' & _ & Hmin1); [lia | lia |].
    rewrite <- (coarse_entries_short _ Hshort) in Hc1', Hmin1.
    change (snd (fold_left (closer targetCoord)
                   (filter (fun e => fst e mod searchStep coordinates =? 0)
                      (entries coordinates)) (Number.MAX_VALUE, 0)))
      with coarse in *.
    assert (c1' = c1) by congruence. subst c1'.
    assert (forall i, i < length coordinates -> 0 <= i < length coordinates)
      as Hall by (intros; lia).
    assert (r = coarse) as Heq.
    { destruct (Nat.lt_trichotomy r coarse) as [Hlt|[Heq|Hgt]];
        [exfalso | exact Heq | exfalso].
      - pose proof (proj1 (Hmin1 r c Hc (Hall r ltac:(lia))) Hlt) as H1.
        pose proof (proj2 (Hmin coarse c1 Hc1 Hwin) Hlt) as H2.
        apply leb_not_ltb in H2. congruence.
      - pose proof (proj1 (Hmin coarse c1 Hc1 Hwin) Hgt) as H1.
        pose proof (proj2 (Hmin1 r c Hc (Hall r ltac:(lia))) Hgt) as H2.
        apply leb_not_ltb in H2. congruence. }
    split; [exact Heq|].
    intros i ci Hi Hir. assert (c = c1) by congruence. subst c.
    apply (Hmin1 i ci Hi); [|lia].
    apply Hall. apply nth_error_Some. congruence.
Qed.

End NearestTies.

Section NearestTiesExample.

Open Scope float_scope.

Lemma findClosestPointIndex_in_bounds_witness :
  Nat.lt (findClosestPointIndex [(0, 0); (0, 1); (0, 3)] (0, 0.875)) 3.
Proof.
  apply (proj1 (findClosestPointIndex_in_bounds (0, 0.875)
                  [(0, 0); (0, 1); (0, 3)])).
  discriminate.
Defined.

(** Two points at the same distance from the target: index 1 wins over
    index 2, and index 0 is strictly farther. *)
Lemma findClosestPointIndex_first_witness :
  exists c,
    nth_error [(0, 3); (0, 1); (1, 0)]
      (findClosestPointIndex [(0, 3); (0, 1); (1, 0)] (0, 0)) = Some c /\
    findClosestPointIndex [(0, 3); (0, 1); (1, 0)] (0, 0) = 1%nat /\
    forall i ci, nth_error [(0, 3); (0, 1); (1, 0)] i = Some ci ->
      Nat.lt i (findClosestPointIndex [(0, 3); (0, 1); (1, 0)] (0, 0)) ->
      (calculateDistance c (0, 0) <? calculateDistance ci (0, 0)) = true.
Proof.
  destruct (findClosestPointIndex_first (0, 0) [(0, 3); (0, 1); (1, 0)])
    as (c & Hc & _ & Hshort).
  - discriminate.
  - repeat constructor.
  - exists c. split; [exact Hc|]. split; [reflexivity|].
    apply Hshort. apply (proj1 (Nat.ltb_lt 3 2000)). reflexivity.
Defined.

End NearestTiesExample.

(** ** The sampler keeps the track order *)

Section SamplerOrder.

(** The exact index as a quotient of integers. *)
Lemma exactIndex_quotient (len targetPoints i : nat) :
  2 <= targetPoints ->
  exactIndex len targetPoints i
  = Z.to_nat
      ((2 * Z.of_nat i * (Z.of_nat len - 1) + (Z.of_nat targetPoints - 1))
       / (2 * (Z.of_nat targetPoints - 1))).
Proof.
  intros Hk. unfold exactIndex, roundHalfUp. f_equal.
  destruct (Z.of_nat targetPoints - 1)%Z as [|p|p] eqn:Ek; try lia.
  unfold Qfloor, Qplus, Qmult, Qdiv, Qinv, inject_Z. simpl Qnum. simpl Qden.
  cbn [Qnum Qden]. f_equal; lia.
Qed.

Lemma exactIndex_first (len targetPoints : nat) :
  2 <= targetPoints -> exactIndex len targetPoints 0 = 0.
Proof.
  intros Hk. rewrite exactIndex_quotient by exact Hk.
  rewrite Z.div_small; [reflexivity | lia].
Qed.

Lemma exactIndex_last (len targetPoints : nat) :
  2 <= targetPoints -> 1 <= len ->
  exactIndex len targetPoints (targetPoints - 1) = len - 1.
Proof.
  intros Hk Hlen. rewrite exactIndex_quotient by exact Hk.
  set (p := (Z.of_nat targetPoints - 1)%Z).
  replace (Z.of_nat (targetPoints - 1)) with p by lia.
  replace (2 * p * (Z.of_nat len - 1) + p)%Z
    with (p + (Z.of_nat len - 1) * (2 * p))%Z by lia.
  rewrite Z.div_add by lia. rewrite Z.div_small by lia. lia.
Qed.

(** With more points than the target count the step exceeds 1 and the
    exact indices grow strictly. *)
Lemma exactIndex_increasing (len targetPoints i j : nat) :
  2 <= targetPoints -> targetPoints < len -> i < j ->
  exactIndex len targetPoints i < exactIndex len targetPoints j.
Proof.
  intros Hk Hlen Hij. rewrite !exactIndex_quotient by exact Hk.
  set (p := (Z.of_nat targetPoints - 1)%Z).
  set (n := (Z.of_nat len - 1)%Z).
  assert (1 <= p)%Z by lia. assert (p < n)%Z by lia.
  set (a := (2 * Z.of_nat i * n + p)%Z).
  set (b := (2 * Z.of_nat j * n + p)%Z).
  assert (0 <= a)%Z by nia.
  assert (a + 1 * (2 * p) <= b)%Z by nia.
  assert (a / (2 * p) + 1 <= b / (2 * p))%Z.
  { rewrite <- Z.div_add by lia. apply Z.div_le_mono; lia. }
  assert (0 <= a / (2 * p))%Z by (apply Z.div_pos; lia).
  lia.
Qed.

(** With more points than the target count, and at most [2^16] of them
    asked for, the step exceeds 1 by more than the error of the two double
    operations: the rounded indices of the inner slots grow strictly. *)
Lemma sampleIndex_increasing (len targetPoints i j : nat) :
  targetPoints < len -> (Z.of_nat targetPoints <= 2 ^ 16)%Z ->
  1 <= i -> i < j -> j < targetPoints - 1 ->
  sampleIndex len targetPoints i < sampleIndex len targetPoints j.
Proof.
  intros Hlen Hsmall Hi Hij Hj. unfold sampleIndex.
  destruct (Z.ltb_spec (Z.of_nat len) (2 ^ 32)) as [Hlt|_].
  - pose proof (rounded_product_increasing i j (len - 1) (targetPoints - 1)
                  ltac:(lia) ltac:(lia) ltac:(lia) ltac:(lia) ltac:(lia)).
    pose proof (rounded_product_inside i (len - 1) (targetPoints - 1)
                  ltac:(lia) ltac:(lia) ltac:(lia)).
    lia.
  - apply exactIndex_increasing; lia.
Qed.

(** The index of an inner slot lies strictly between the first and the last
    index, whatever the length. *)
Lemma sampleIndex_between (len targetPoints i : nat) :
  targetPoints < len -> 1 <= i < targetPoints - 1 ->
  1 <= sampleIndex len targetPoints i < len - 1.
Proof.
  intros Hlen Hi.
  destruct (Z.ltb_spec (Z.of_nat len) (2 ^ 32)) as [Hlt|Hge].
  - now apply sampleIndex_inside.
  - unfold sampleIndex.
    destruct (Z.ltb_spec (Z.of_nat len) (2 ^ 32)) as [|_]; [lia|].
    pose proof (exactIndex_first len targetPoints ltac:(lia)).
    pose proof (exactIndex_last len targetPoints ltac:(lia) ltac:(lia)).
    pose proof (exactIndex_increasing len targetPoints 0 i
                  ltac:(lia) Hlen ltac:(lia)).
    pose proof (exactIndex_increasing len targetPoints i (targetPoints - 1)
                  ltac:(lia) Hlen ltac:(lia)).
    lia.
Qed.

Lemma map_seq_sorted (f : nat -> nat) (from n : nat) :
  (forall i j, from <= i -> i < j -> j < from + n -> f i < f j) ->
  StronglySorted lt (map f (seq from n)).
Proof.
  revert from. induction n as [|n IH]; intros from Hf; simpl; constructor.
  - apply IH. intros i j Hi Hij Hj. apply Hf; lia.
  - apply Forall_forall. intros x Hx.
    apply in_map_iff in Hx as (j & <- & Hj). apply in_seq in Hj.
    apply Hf; lia.
Qed.

Lemma sorted_snoc (l : list nat) (b : nat) :
  StronglySorted lt l -> Forall (fun x => x < b) l ->
  StronglySorted lt (l ++ [b]).
Proof.
  induction 1 as [|x l Hs IH Hx]; intros Hb; simpl.
  - repeat constructor.
  - inversion Hb; subst. constructor; [now apply IH|].
    apply Forall_app. split; [exact Hx|]. now constructor.
Qed.

Lemma sorted_shift (l : list nat) (from : nat) :
  StronglySorted lt l -> StronglySorted lt (map (fun i => from + i) l).
Proof.
  induction 1 as [|x l Hs IH Hx]; simpl; constructor; [exact IH|].
  apply Forall_map. eapply Forall_impl; [|exact Hx]. cbv beta. intros; lia.
Qed.

Lemma samplePositions_length (len targetPoints : nat) :
  2 <= targetPoints -> length (samplePositions len targetPoints) = targetPoints.
Proof.
  intros Hk. unfold samplePositions, range. cbn [length].
  rewrite length_app, length_map, length_seq. simpl. lia.
Qed.

Lemma samplePositions_bounds (len targetPoints : nat) :
  targetPoints < len ->
  Forall (fun i => i <= len - 1) (samplePositions len targetPoints).
Proof.
  intros Hlen. unfold samplePositions.
  constructor; [lia|]. apply Forall_app. split.
  - apply Forall_forall. intros x Hx.
    apply in_map_iff in Hx as (i & <- & Hi). unfold range in Hi.
    apply in_seq in Hi.
    pose proof (sampleIndex_between len targetPoints i Hlen ltac:(lia)). lia.
  - constructor; [lia | constructor].
Qed.

(** The positions of the sampler grow strictly. *)
Lemma samplePositions_sorted (len targetPoints : nat) :
  2 <= targetPoints -> (Z.of_nat targetPoints <= 2 ^ 16)%Z ->
  targetPoints < len ->
  StronglySorted lt (samplePositions len targetPoints).
Proof.
  intros Hk Hsmall Hlen. unfold samplePositions, range.
  constructor.
  - apply sorted_snoc.
    + apply map_seq_sorted. intros i j Hi Hij Hj.
      apply sampleIndex_increasing; lia.
    + apply Forall_forall. intros x Hx.
      apply in_map_iff in Hx as (i & <- & Hi). apply in_seq in Hi.
      pose proof (sampleIndex_between len targetPoints i Hlen ltac:(lia)).
      lia.
  - apply Forall_app. split.
    + apply Forall_forall. intros x Hx.
      apply in_map_iff in Hx as (i & <- & Hi). apply in_seq in Hi.
      pose proof (sampleIndex_between len targetPoints i Hlen ltac:(lia)).
      lia.
    + constructor; [lia | constructor].
Qed.

Lemma slice_length_min {T : Type} (a : list T) (from to : nat) :
  length (slice a from to) = Nat.min to (length a) - from.
Proof. unfold slice. now rewrite length_skipn, length_firstn. Qed.

Lemma slice_nth {T : Type} (a : list T) (from to k : nat) (d : T) :
  k < length (slice a from to) ->
  nth k (slice a from to) d = nth (from + k) a d.
Proof.
  intros Hk. rewrite slice_length_min in Hk.
  apply nth_error_nth. rewrite slice_nth_error.
  destruct (Nat.ltb_spec (from + k) to); [|lia].
  apply nth_error_nth'. lia.
Qed.

Lemma slice_as_map {T : Type} (a : list T) (from to : nat) (d : T) :
  slice a from to
  = map (fun i => nth i a d) (seq from (length (slice a from to))).
Proof.
  set (f := fun i => nth i a d).
  apply (nth_ext _ _ d (f 0)).
  - now rewrite length_map, length_seq.
  - intros k Hk. rewrite slice_nth by exact Hk.
    rewrite (map_nth f). now rewrite seq_nth.
Qed.

(** The sample of an array longer than the target count, read by index. *)
Lemma intelligentSample_as_map {A : Type} (points : list A) (k : nat) (d : A) :
  2 <= k -> k < length points ->
  intelligentSample points k
  = map (fun i => nth i points d) (samplePositions (length points) k).
Proof.
  intros Hk Hlen. unfold intelligentSample, samplePositions.
  destruct (Nat.leb_spec (length points) k) as [Hle|_]; [lia|].
  destruct points as [|first rest]; [simpl in Hlen; lia|].
  rewrite fold_left_push.
  cbn [map]. rewrite map_app, map_map. cbn [map app].
  f_equal. f_equal.
  - apply map_ext_in. intros i Hi. unfold range in Hi. apply in_seq in Hi.
    apply nth_indep. apply sampleIndex_lt; lia.
  - f_equal. set (l := first :: rest) in *.
    destruct (exists_last (l := l)) as (l' & x & E); [discriminate|].
    rewrite E, last_last, length_app. simpl.
    replace (length l' + 1 - 1) with (length l') by lia.
    now rewrite nth_middle.
Qed.

(** X5. The sample keeps the track order and repeats no position.  For every
    array and every target count [k] with [2 <= k < points.length] and
    [k <= 65536], the sample is the array read at [k] positions: index [0],
    then the indices [Math.round(i * step)] for [i] from [1] to [k - 2], the
    quotient [step] and the product being those of the doubles, then the last
    index; these positions lie inside the array and grow strictly. *)
Theorem intelligentSample_in_order {A : Type} (points : list A) (k : nat)
  (d : A) :
  2 <= k -> (Z.of_nat k <= 65536)%Z -> k < length points ->
  let positions :=
    0 :: map (sampleIndex (length points) k) (seq 1 (k - 2))
         ++ [length points - 1] in
  intelligentSample points k = map (fun i => nth i points d) positions /\
  length positions = k /\
  Forall (fun i => i < length points) positions /\
  StronglySorted lt positions.
Proof.
  intros Hk Hsmall Hlen.
  assert (0 :: map (sampleIndex (length points) k) (seq 1 (k - 2))
               ++ [length points - 1]
          = samplePositions (length points) k) as ->.
  { unfold samplePositions, range.
    replace (k - 1 - 1) with (k - 2) by lia. reflexivity. }
  cbv zeta.
  split; [now apply intelligentSample_as_map|].
  split; [now apply samplePositions_length|].
  split.
  - eapply Forall_impl; [|apply (samplePositions_bounds _ _ Hlen)].
    cbv beta. intros i Hi. lia.
  - apply samplePositions_sorted; [exact Hk | exact Hsmall | exact Hlen].
Qed.

Lemma intelligentSample_in_order_witness :
  intelligentSample (seq 0 62) 15
  = [0; 4; 9; 13; 17; 22; 26; 30; 35; 39; 44; 48; 52; 57; 61].
Proof.
  etransitivity.
  - apply (proj1 (intelligentSample_in_order (seq 0 62) 15 0
                    (proj1 (Nat.leb_le 2 15) eq_refl)
                    (proj1 (Z.leb_le (Z.of_nat 15) 65536) eq_refl)
                    (proj1 (Nat.leb_le 16 62) eq_refl))).
  - vm_compute. reflexivity.
Defined.

(** With a target count below 2 the loop does not run: the result is the
    first and the last point. *)
Lemma intelligentSample_degenerate {A : Type} (first : A) (rest : list A)
  (k : nat) :
  k < 2 -> k < length (first :: rest) ->
  intelligentSample (first :: rest) k = [first; last (first :: rest) first].
Proof.
  intros Hk Hlt. unfold intelligentSample.
  destruct (Nat.leb_spec (length (first :: rest)) k) as [|_]; [lia|].
  replace (range 1 (k - 1)) with (@nil nat)
    by (unfold range; replace (k - 1 - 1) with 0 by lia; reflexivity).
  reflexivity.
Qed.

(** X6. Sampling twice changes nothing more: for every array and every
    target count, the sample of a sample is the sample. *)
Theorem intelligentSample_idempotent {A : Type} (points : list A) (k : nat) :
  intelligentSample (intelligentSample points k) k = intelligentSample points k.
Proof.
  destruct (Nat.leb_spec (length points) k) as [Hle|Hlt].
  - unfold intelligentSample at 2.
    destruct (Nat.leb_spec (length points) k); [|lia].
    unfold intelligentSample.
    destruct (Nat.leb_spec (length points) k); [reflexivity|lia].
  - destruct (Nat.le_gt_cases 2 k) as [Hk|Hk].
    + destruct points as [|first rest]; [simpl in Hlt; lia|].
      destruct (intelligentSample_shape (first :: rest) k first Hk Hlt)
        as (Hlen & _).
      unfold intelligentSample at 1.
      destruct (Nat.leb_spec (length (intelligentSample (first :: rest) k)) k);
        [reflexivity|lia].
    + destruct points as [|first rest]; [simpl in Hlt; lia|].
      rewrite (intelligentSample_degenerate first rest k Hk Hlt).
      rewrite (intelligentSample_degenerate first [last (first :: rest) first]
                 k Hk); [reflexivity | simpl; lia].
Qed.

End SamplerOrder.

(** ** The candidate cut between two indices *)

Section Candidate.

Lemma rawGpsSegment_swap (gpxCoords : list Coord) (startIdx endIdx : nat) :
  rawGpsSegment gpxCoords startIdx endIdx
  = rawGpsSegment gpxCoords endIdx startIdx.
Proof.
  unfold rawGpsSegment.
  destruct (Nat.ltb_spec endIdx startIdx), (Nat.ltb_spec startIdx endIdx);
    try reflexivity; try lia.
  replace endIdx with startIdx by lia. reflexivity.
Qed.

Lemma rawGpsSegment_min_max (gpxCoords : list Coord) (startIdx endIdx : nat) :
  rawGpsSegment gpxCoords startIdx endIdx
  = slice gpxCoords (Nat.min startIdx endIdx) (Nat.max startIdx endIdx + 1).
Proof.
  unfold rawGpsSegment. destruct (Nat.ltb_spec endIdx startIdx).
  - now rewrite Nat.min_r, Nat.max_l by lia.
  - now rewrite Nat.min_l, Nat.max_r by lia.
Qed.

Lemma seq_sorted (from n : nat) : StronglySorted lt (seq from n).
Proof.
  rewrite <- (map_id (seq from n)). apply map_seq_sorted. intros; lia.
Qed.

Lemma last_map_seq (f : nat -> nat) (from n : nat) :
  last (map f (seq from (S n))) 0 = f (from + n).
Proof. rewrite seq_S, map_app. apply last_last. Qed.

Lemma last_snoc_cons (a b : nat) (l : list nat) :
  last (a :: l ++ [b]) 0 = b.
Proof. change (a :: l ++ [b]) with ((a :: l) ++ [b]). apply last_last. Qed.

(** The candidate before its end points are treated, read as positions of
    the track. *)
Lemma candidate_positions (gpxCoords : list Coord) (from to : nat) (d : Coord) :
  2 <= length (slice gpxCoords from to) ->
  exists positions,
    (if 300 <? length (slice gpxCoords from to)
     then intelligentSample (slice gpxCoords from to) 200
     else slice gpxCoords from to)
    = map (fun i => nth i gpxCoords d) positions /\
    StronglySorted lt positions /\
    Forall (fun i => from <= i <= from + length (slice gpxCoords from to) - 1)
      positions /\
    hd_error positions = Some from /\
    last positions 0 = from + length (slice gpxCoords from to) - 1 /\
    length positions
    = if 300 <? length (slice gpxCoords from to) then 200
      else length (slice gpxCoords from to).
Proof.
  intros Hlen. set (raw := slice gpxCoords from to) in *.
  set (n := length raw) in *.
  destruct (Nat.ltb_spec 300 n) as [Hlong|Hshort].
  - exists (map (fun i => from + i) (samplePositions n 200)).
    assert (2 <= 200) as H2 by (apply (Nat.leb_le 2 200); reflexivity).
    assert (200 < n) as H200 by lia.
    assert (Z.of_nat 200 <= 2 ^ 16)%Z as Hsmall
        by (apply Z.leb_le; reflexivity).
    pose proof (samplePositions_bounds n 200 H200) as Hin.
    split; [|split; [|split; [|split; [|split]]]].
    + rewrite (intelligentSample_as_map raw 200 d H2 H200), map_map.
      fold n. apply map_ext_in. intros i Hi.
      apply (proj1 (Forall_forall _ _) Hin) in Hi. cbv beta in Hi.
      apply slice_nth. fold raw. fold n. lia.
    + apply sorted_shift. now apply samplePositions_sorted.
    + apply Forall_map. eapply Forall_impl; [|exact Hin].
      cbv beta. intros i Hi. lia.
    + unfold samplePositions. cbn [map hd_error].
      now rewrite Nat.add_0_r.
    + unfold samplePositions. cbn [map]. rewrite map_app. cbn [map].
      rewrite last_snoc_cons. lia.
    + now rewrite length_map, samplePositions_length.
  - exists (seq from n).
    split; [|split; [|split; [|split; [|split]]]].
    + apply slice_as_map.
    + apply seq_sorted.
    + apply Forall_forall. intros x Hx. apply in_seq in Hx. lia.
    + destruct n; [lia | reflexivity].
    + destruct n as [|m]; [lia|].
      rewrite <- (map_id (seq from (S m))).
      rewrite (last_map_seq (fun i => i)). lia.
    + apply length_seq.
Qed.

(** X7. The order of the two indices does not matter: the function swaps
    them when the first is the larger one. *)
Theorem extractGpsTrackBetweenPoints_index_order (variant : Variant)
  (gpxCoords : list Coord) (startIdx endIdx : nat)
  (targetStart targetEnd : Coord) :
  extractGpsTrackBetweenPoints variant gpxCoords startIdx endIdx
    targetStart targetEnd
  = extractGpsTrackBetweenPoints variant gpxCoords endIdx startIdx
      targetStart targetEnd.
Proof.
  unfold extractGpsTrackBetweenPoints.
  now rewrite (rawGpsSegment_swap gpxCoords startIdx endIdx).
Qed.

(** X8. What an accepted candidate is made of.  When
    [extractGpsTrackBetweenPoints] returns a path, the two indices differ and
    the smaller one is not the last index of the track; the path has between
    2 and 300 points (200 when more than 300 positions lie between the
    indices, one per position otherwise); and, up to the treatment of its
    two end points by the variant, it is the track read at strictly
    increasing positions that start at the smaller index and end at the
    larger one (at the last index of the track when the larger one lies
    outside). *)
Theorem extractGpsTrackBetweenPoints_positions (variant : Variant)
  (gpxCoords : list Coord) (startIdx endIdx : nat)
  (targetStart targetEnd : Coord) (path : list Coord) :
  extractGpsTrackBetweenPoints variant gpxCoords startIdx endIdx
    targetStart targetEnd = Some path ->
  Nat.min startIdx endIdx
  < Nat.min (Nat.max startIdx endIdx) (length gpxCoords - 1) /\
  2 <= length path <= 300 /\
  exists positions,
    path = adjustEndpoints variant
             (map (fun i => nth i gpxCoords targetStart) positions)
             targetStart targetEnd /\
    length positions = length path /\
    StronglySorted lt positions /\
    Forall (fun i => i < length gpxCoords) positions /\
    hd_error positions = Some (Nat.min startIdx endIdx) /\
    last positions 0
    = Nat.min (Nat.max startIdx endIdx) (length gpxCoords - 1) /\
    length positions
    = if 300 <? Nat.min (Nat.max startIdx endIdx) (length gpxCoords - 1)
                - Nat.min startIdx endIdx + 1
      then 200
      else Nat.min (Nat.max startIdx endIdx) (length gpxCoords - 1)
           - Nat.min startIdx endIdx + 1.
Proof.
  intros H. apply extract_inv in H as [Hlen ->].
  rewrite rawGpsSegment_min_max in *.
  set (lo := Nat.min startIdx endIdx) in *.
  set (hi := Nat.max startIdx endIdx) in *.
  pose proof (slice_length_min gpxCoords lo (hi + 1)) as Hn.
  destruct (candidate_positions gpxCoords lo (hi + 1) targetStart Hlen)
    as (positions & Hpath & Hsorted & Hall & Hhd & Hlast & Hcount).
  set (n := length (slice gpxCoords lo (hi + 1))) in *.
  assert (Nat.min hi (length gpxCoords - 1) = lo + n - 1) as Hhi by lia.
  assert (length positions
          = length (finalPath variant (slice gpxCoords lo (hi + 1))
                      targetStart targetEnd)) as Hsame.
  { unfold finalPath. rewrite adjustEndpoints_length. fold n.
    rewrite Hcount. destruct (Nat.ltb_spec 300 n) as [Hlong|_];
      [|reflexivity].
    symmetry. apply (intelligentSample_shape _ 200 targetStart);
      [|fold n; lia].
    apply (Nat.leb_le 2 200). reflexivity. }
  split; [lia|]. split.
  - rewrite <- Hsame, Hcount. destruct (Nat.ltb_spec 300 n); [|lia].
    split; [apply (Nat.leb_le 2 200) | apply (Nat.leb_le 200 300)];
      reflexivity.
  - exists positions. rewrite Hhi.
    replace (lo + n - 1 - lo + 1) with n by lia.
    split; [|split; [|split; [|split; [|split; [|split]]]]];
      try assumption.
    + unfold finalPath. fold n. now rewrite Hpath.
    + eapply Forall_impl; [|exact Hall]. cbv beta. intros i Hi. lia.
Qed.

Lemma extractGpsTrackBetweenPoints_positions_witness :
  Nat.min 2 0 < Nat.min (Nat.max 2 0) (3 - 1) /\
  2 <= length [(0, 0); (0, 0.5); (0, 1)]%float <= 300.
Proof.
  destruct (extractGpsTrackBetweenPoints_positions main_js
              [(0, 0); (0, 0.5); (0, 1)]%float 2 0 (0, 0)%float (0, 1)%float
              [(0, 0); (0, 0.5); (0, 1)]%float) as (H1 & H2 & _).
  - vm_compute. reflexivity.
  - split; [exact H1 | exact H2].
Defined.

End Candidate.

(** ** The distance budget at its edges *)

Section BudgetEdges.

Open Scope float_scope.

Lemma scaled_zero_or_nan (d : float) :
  zero_or_nan d -> zero_or_nan (d * 111000).
Proof.
  unfold zero_or_nan. rewrite mul_spec. unfold SF64mul.
  intros [-> | ->]; [left | right]; reflexivity.
Qed.

(** A magnitude divided by [+0] or [NaN] is [+Infinity] or [NaN]: it is not
    below 0.5. *)
Lemma zero_budget_missed (x t : float) :
  zero_or_nan t -> (Number.abs x / t <? 0.5) = false.
Proof.
  unfold zero_or_nan, Number.abs. rewrite ltb_spec, div_spec, abs_spec.
  unfold SF64div, SFdiv.
  intros [-> | ->]; destruct (Prim2SF x) as [s|s| |s m e]; reflexivity.
Qed.

Lemma find_none {A : Type} (f : A -> bool) (l : list A) :
  (forall x, In x l -> f x = false) -> find f l = None.
Proof.
  induction l as [|x l IH]; intros H; simpl; [reflexivity|].
  rewrite (H x) by now left. apply IH. intros y Hy. apply H. now right.
Qed.

Lemma findSegmentByDistance_zero_budget (variant : Variant) (track : Track)
  (startCoords endCoords : Coord) :
  zero_or_nan (calculateDistance startCoords endCoords) ->
  findSegmentByDistance variant track startCoords endCoords = None.
Proof.
  intros Hzero. unfold findSegmentByDistance.
  destruct (negb _); [reflexivity|].
  rewrite find_none; [reflexivity|].
  intros [i j] _. unfold budgetHit, distanceRatio.
  rewrite zero_budget_missed; [reflexivity|].
  now apply scaled_zero_or_nan.
Qed.

(** X9. The edges of the distance-budget approach, in both variants: it
    returns [null] when the track has fewer than 11 points, when the
    cumulative distances do not have one entry for each point, and when the
    straight-line distance of the targets is [0] or [NaN] (equal targets
    among others); a path it returns has 11 points or more, and no more than
    the track. *)
Theorem findSegmentByDistance_edges (variant : Variant) (track : Track)
  (startCoords endCoords : Coord) :
  ((length (points track) < 11)%nat ->
   findSegmentByDistance variant track startCoords endCoords = None) /\
  (length (cumul (distance track)) <> length (points track) ->
   findSegmentByDistance variant track startCoords endCoords = None) /\
  (zero_or_nan (calculateDistance startCoords endCoords) ->
   findSegmentByDistance variant track startCoords endCoords = None) /\
  findSegmentByDistance variant track startCoords startCoords = None /\
  (forall path,
     findSegmentByDistance variant track startCoords endCoords = Some path ->
     (11 <= length path <= length (points track))%nat).
Proof.
  split; [|split; [|split; [|split]]].
  - intros Hshort. unfold findSegmentByDistance.
    destruct (negb _); [reflexivity|].
    replace (distancePairs (length (points track))) with (@nil (nat * nat));
      [reflexivity|].
    unfold distancePairs, range.
    replace (length (points track) - 10 - 0)%nat with 0%nat by lia.
    reflexivity.
  - intros Hne. unfold findSegmentByDistance.
    destruct (Nat.eqb_spec (length (cumul (distance track)))
                (length (points track))); [contradiction | reflexivity].
  - apply findSegmentByDistance_zero_budget.
  - apply findSegmentByDistance_zero_budget, calculateDistance_diag.
  - intros path H.
    apply findSegmentByDistance_inv in H as (i & j & Hij & _ & _ & Hlen & ->).
    rewrite adjustEndpoints_length. split; [exact Hlen|].
    unfold segmentCoords. rewrite length_map, slice_length_min. lia.
Qed.

Lemma findSegmentByDistance_edges_witness :
  findSegmentByDistance main_js
    (mkTrack None straightTrack (mkTrackDistance 0 [0; 1])) (0, 0) (0, 1)
  = None.
Proof.
  apply (proj1 (findSegmentByDistance_edges main_js
                  (mkTrack None straightTrack (mkTrackDistance 0 [0; 1]))
                  (0, 0) (0, 1))).
  apply (proj1 (Nat.ltb_lt _ 11)). vm_compute. reflexivity.
Defined.

End BudgetEdges.

(** ** The points within tolerance *)

Section NearbyPoints.

Open Scope float_scope.

Variable targetCoord : Coord.
Variable tolerance : float.

Lemma filter_none {A : Type} (f : A -> bool) (l : list A) :
  (forall x, In x l -> f x = false) -> filter f l = [].
Proof.
  induction l as [|x l IH]; intros H; simpl; [reflexivity|].
  rewrite (H x) by now left. apply IH. intros y Hy. apply H. now right.
Qed.

Lemma options_filter (l : list (nat * Coord)) (options : list Nearby) :
  fold_left
    (fun options e =>
       let distance := calculateDistance (snd e) targetCoord in
       if distance <=? tolerance
       then options ++ [mkNearby (fst e) distance]
       else options) l options
  = options ++ map (nearbyOf targetCoord)
      (filter (withinTolerance targetCoord tolerance) l).
Proof.
  revert options. induction l as [|e l IH]; intros options; simpl.
  - now rewrite app_nil_r.
  - rewrite IH. unfold withinTolerance at 2.
    destruct (calculateDistance (snd e) targetCoord <=? tolerance);
      [|reflexivity].
    now rewrite <- app_assoc.
Qed.

Lemma insertNearby_perm (a : Nearby) (sorted : list Nearby) :
  Permutation (insertNearby a sorted) (a :: sorted).
Proof.
  induction sorted as [|b rest IH]; simpl; [apply Permutation_refl|].
  destruct (0 <? nb_distance a - nb_distance b); [|apply Permutation_refl].
  eapply perm_trans; [apply perm_skip, IH | apply perm_swap].
Qed.

Lemma sortNearby_perm (options : list Nearby) :
  Permutation (sortNearby options) options.
Proof.
  induction options as [|a options IH]; simpl; [constructor|].
  eapply perm_trans; [apply insertNearby_perm | now apply perm_skip].
Qed.

Lemma findNearbyIndices_perm (gpxCoords : list Coord) :
  Permutation (findNearbyIndices gpxCoords targetCoord tolerance)
    (map (nearbyOf targetCoord)
      (filter (withinTolerance targetCoord tolerance) (entries gpxCoords))).
Proof.
  unfold findNearbyIndices. rewrite options_filter. apply sortNearby_perm.
Qed.

Lemma findNearbyIndices_nil (gpxCoords : list Coord) :
  (forall c, In c gpxCoords ->
     (calculateDistance c targetCoord <=? tolerance) = false) ->
  findNearbyIndices gpxCoords targetCoord tolerance = [].
Proof.
  intros H. apply Permutation_nil. apply Permutation_sym.
  eapply perm_trans; [apply findNearbyIndices_perm|].
  rewrite filter_none; [constructor|]. intros [i c] Hin.
  apply in_entries in Hin. apply nth_error_In in Hin.
  unfold withinTolerance. simpl. now apply H.
Qed.

End NearbyPoints.

Section NearbyContents.

Open Scope float_scope.

Lemma filter_fst_NoDup {A : Type} (f : nat * A -> bool) (l : list (nat * A)) :
  NoDup (map fst l) -> NoDup (map fst (filter f l)).
Proof.
  induction l as [|x l IH]; simpl; intros H; [constructor|].
  inversion H as [|? ? Hnotin Hrest]; subst.
  destruct (f x); [|now apply IH]. simpl. constructor; [|now apply IH].
  intros Hin. apply Hnotin. apply in_map_iff in Hin as (y & Hy & Hin).
  apply filter_In in Hin as [Hin _]. apply in_map_iff. eauto.
Qed.

(** X10. What [findNearbyIndices] returns, whatever the order the sort gives
    it: the entries of the track within the tolerance, each with its index
    and its planar distance to the target, each index once.  An index is
    listed exactly when its point is at a distance [<=] the tolerance, so
    that a point at distance [NaN] is never listed. *)
Theorem findNearbyIndices_contents (gpxCoords : list Coord)
  (targetCoord : Coord) (tolerance : float) :
  Permutation (findNearbyIndices gpxCoords targetCoord tolerance)
    (map (nearbyOf targetCoord)
       (filter (withinTolerance targetCoord tolerance) (entries gpxCoords))) /\
  (forall i distance,
     In (mkNearby i distance)
       (findNearbyIndices gpxCoords targetCoord tolerance) <->
     exists c, nth_error gpxCoords i = Some c /\
       distance = calculateDistance c targetCoord /\
       (distance <=? tolerance) = true) /\
  NoDup (map index (findNearbyIndices gpxCoords targetCoord tolerance)) /\
  (length (findNearbyIndices gpxCoords targetCoord tolerance)
   <= length gpxCoords)%nat.
Proof.
  pose proof (findNearbyIndices_perm targetCoord tolerance gpxCoords) as Hperm.
  split; [exact Hperm|]. split; [|split].
  - intros i distance. split.
    + intros Hin. apply (Permutation_in _ Hperm) in Hin.
      apply in_map_iff in Hin as ([j c] & [= <- <-] & Hin).
      apply filter_In in Hin as [Hin Hwithin]. apply in_entries in Hin.
      exists c. auto.
    + intros (c & Hc & -> & Hwithin).
      apply (Permutation_in _ (Permutation_sym Hperm)).
      apply in_map_iff. exists (i, c). split; [reflexivity|].
      apply filter_In. split; [now apply in_entries | exact Hwithin].
  - apply (Permutation_NoDup
             (Permutation_sym (Permutation_map index Hperm))).
    rewrite map_map.
    rewrite (map_ext (fun e => index (nearbyOf targetCoord e)) fst)
      by reflexivity.
    apply filter_fst_NoDup. rewrite entries_fst. apply seq_NoDup.
  - rewrite (Permutation_length Hperm), length_map.
    eapply Nat.le_trans; [apply filter_length_le|].
    now rewrite entries_length.
Qed.

End NearbyContents.

(** ** The best combination of approach 2 *)

Section BestCombination.

Open Scope float_scope.

Lemma ltb_irrefl (x : float) : (x <? x) = false.
Proof.
  destruct (x <? x) eqn:E; [|reflexivity].
  pose proof (leb_not_ltb _ _ (ltb_leb _ _ E)). congruence.
Qed.

Lemma ltb_trans (x y z : float) :
  (x <? y) = true -> (y <? z) = true -> (x <? z) = true.
Proof.
  intros H1 H2. eapply ltb_leb_trans; [exact H1 | now apply ltb_leb].
Qed.

Lemma fold_left_map_arg {S X Y : Type} (g : S -> Y -> S) (h : X -> Y)
  (l : list X) (s0 : S) :
  fold_left g (map h l) s0 = fold_left (fun s x => g s (h x)) l s0.
Proof.
  revert s0. induction l as [|x l IH]; intros s0; simpl; auto.
Qed.

(** A loop nested in a loop visits the pairs in the order of [list_prod]. *)
Lemma fold_left_nested {S X Y : Type} (f : S -> X -> Y -> S)
  (xs : list X) (ys : list Y) (s0 : S) :
  fold_left (fun s x => fold_left (fun s y => f s x y) ys s) xs s0
  = fold_left (fun s q => f s (fst q) (snd q)) (list_prod xs ys) s0.
Proof.
  revert s0. induction xs as [|x xs IH]; intros s0; simpl; [reflexivity|].
  rewrite fold_left_app, IH. f_equal.
  now rewrite fold_left_map_arg.
Qed.

Lemma fold_left_visited {S X : Type} (P : list X -> S -> Prop)
  (f : S -> X -> S) (l : list X) (s0 : S) :
  P [] s0 ->
  (forall seen x s, P seen s -> P (seen ++ [x]) (f s x)) ->
  P l (fold_left f l s0).
Proof.
  intros H0 Hstep. induction l as [|x l IH] using rev_ind; [exact H0|].
  rewrite fold_left_app. simpl. now apply Hstep.
Qed.

Lemma extract_length (variant : Variant) (gpxCoords : list Coord)
  (startIdx endIdx : nat) (s e : Coord) (path : list Coord) :
  extractGpsTrackBetweenPoints variant gpxCoords startIdx endIdx s e
  = Some path ->
  (2 <= length path)%nat.
Proof.
  intros H. apply extract_inv in H as [Hlen ->].
  unfold finalPath. rewrite adjustEndpoints_length.
  now apply sampled_shape.
Qed.

Variable variant : Variant.
Variable gpxCoords : list Coord.
Variable startCoords : Coord.
Variable endCoords : Coord.

(** The state of the double loop after the pairs [seen]. *)
Lemma bestCombination_invariant (nearbyStartPoints nearbyEndPoints : list Nearby) :
  let best :=
    bestCombination variant gpxCoords nearbyStartPoints nearbyEndPoints
      startCoords endCoords in
  (forall q path, In q (list_prod nearbyStartPoints nearbyEndPoints) ->
     index (fst q) <> index (snd q) ->
     extractGpsTrackBetweenPoints variant gpxCoords
       (index (fst q)) (index (snd q)) startCoords endCoords = Some path ->
     (combinationScore q <? snd best) = false) /\
  (forall path, fst best = Some path ->
     exists q, In q (list_prod nearbyStartPoints nearbyEndPoints) /\
       index (fst q) <> index (snd q) /\
       extractGpsTrackBetweenPoints variant gpxCoords
         (index (fst q)) (index (snd q)) startCoords endCoords = Some path /\
       snd best = combinationScore q) /\
  (fst best = None -> snd best = Number.MAX_VALUE).
Proof.
  intros best. subst best. unfold bestCombination.
  rewrite (fold_left_nested
             (fun best startPoint endPoint =>
                if negb (index startPoint =? index endPoint)%nat then
                  match extractGpsTrackBetweenPoints variant gpxCoords
                          (index startPoint) (index endPoint)
                          startCoords endCoords with
                  | Some path =>
                      if (2 <=? length path)%nat then
                        let score :=
                          nb_distance startPoint + nb_distance endPoint in
                        if score <? snd best then (Some path, score) else best
                      else best
                  | None => best
                  end
                else best)).
  apply (fold_left_visited
           (fun seen best =>
              (forall q path, In q seen ->
                 index (fst q) <> index (snd q) ->
                 extractGpsTrackBetweenPoints variant gpxCoords
                   (index (fst q)) (index (snd q)) startCoords endCoords
                 = Some path ->
                 (combinationScore q <? snd best) = false) /\
              (forall path, fst best = Some path ->
                 exists q, In q seen /\
                   index (fst q) <> index (snd q) /\
                   extractGpsTrackBetweenPoints variant gpxCoords
                     (index (fst q)) (index (snd q)) startCoords endCoords
                   = Some path /\
                   snd best = combinationScore q) /\
              (fst best = None -> snd best = Number.MAX_VALUE))).
  - split; [intros q path []|]. split; [discriminate | reflexivity].
  - intros seen [startPoint endPoint] best (Hleast & Hsource & Hnone).
    cbn [fst snd].
    assert (forall q, In q seen -> In q (seen ++ [(startPoint, endPoint)]))
      as Hseen by (intros q Hq; apply in_or_app; now left).
    assert (In (startPoint, endPoint) (seen ++ [(startPoint, endPoint)]))
      as Hnew by (apply in_or_app; right; now left).
    destruct (Nat.eqb_spec (index startPoint) (index endPoint)) as [Heq|Hne];
      cbn [negb].
    { split; [|split; [|exact Hnone]].
      - intros q path Hq. apply in_app_or in Hq as [Hq|[<-|[]]];
          [now apply Hleast | intros Hcontra; now destruct Hcontra].
      - intros path Hpath.
        destruct (Hsource path Hpath) as (q & Hq & Hrest). eauto. }
    destruct (extractGpsTrackBetweenPoints variant gpxCoords
                (index startPoint) (index endPoint) startCoords endCoords)
      as [p|] eqn:Hextract.
    2: { split; [|split; [|exact Hnone]].
         - intros q path Hq. apply in_app_or in Hq as [Hq|[<-|[]]];
             [now apply Hleast|]. cbn [fst snd]. intros _ Hsome. congruence.
         - intros path Hpath.
           destruct (Hsource path Hpath) as (q & Hq & Hrest). eauto. }
    pose proof (extract_length _ _ _ _ _ _ _ Hextract) as Hlen.
    destruct (Nat.leb_spec 2 (length p)) as [_|]; [|lia].
    cbv zeta.
    change (nb_distance startPoint + nb_distance endPoint)
      with (combinationScore (startPoint, endPoint)).
    destruct (combinationScore (startPoint, endPoint) <? snd best) eqn:Hlt.
    + cbn [fst snd]. split; [|split; [|discriminate]].
      * intros q path Hq Hne' Hsome.
        apply in_app_or in Hq as [Hq|[<-|[]]]; [|apply ltb_irrefl].
        destruct (combinationScore q
                  <? combinationScore (startPoint, endPoint)) eqn:Hq';
          [|reflexivity].
        rewrite <- (Hleast q path Hq Hne' Hsome). symmetry.
        now apply ltb_trans with (combinationScore (startPoint, endPoint)).
      * intros path Hpath. cbn [fst] in Hpath. injection Hpath as <-.
        exists (startPoint, endPoint). auto.
    + split; [|split; [|exact Hnone]].
      * intros q path Hq. apply in_app_or in Hq as [Hq|[<-|[]]];
          [now apply Hleast|]. intros _ _. exact Hlt.
      * intros path Hpath.
        destruct (Hsource path Hpath) as (q & Hq & Hrest). eauto.
Qed.

(** X11. The double loop of approach 2 keeps a combination of least score.
    Whatever the two lists, no combination of a start point and an end point
    with different indices whose candidate is accepted has a score below the
    final [bestScore]; the final [bestPath], when there is one, is the
    accepted candidate of such a combination and [bestScore] is its score;
    and when there is none, [bestScore] is still [Number.MAX_VALUE]. *)
Theorem bestCombination_least_score
  (nearbyStartPoints nearbyEndPoints : list Nearby) :
  let best :=
    bestCombination variant gpxCoords nearbyStartPoints nearbyEndPoints
      startCoords endCoords in
  (forall startPoint endPoint path,
     In startPoint nearbyStartPoints -> In endPoint nearbyEndPoints ->
     index startPoint <> index endPoint ->
     extractGpsTrackBetweenPoints variant gpxCoords
       (index startPoint) (index endPoint) startCoords endCoords = Some path ->
     (nb_distance startPoint + nb_distance endPoint <? snd best) = false) /\
  (forall path, fst best = Some path ->
     exists startPoint endPoint,
       In startPoint nearbyStartPoints /\ In endPoint nearbyEndPoints /\
       index startPoint <> index endPoint /\
       extractGpsTrackBetweenPoints variant gpxCoords
         (index startPoint) (index endPoint) startCoords endCoords
       = Some path /\
       snd best = nb_distance startPoint + nb_distance endPoint) /\
  (fst best = None -> snd best = Number.MAX_VALUE).
Proof.
  intros best.
  destruct (bestCombination_invariant nearbyStartPoints nearbyEndPoints)
    as (Hleast & Hsource & Hnone).
  fold best in Hleast, Hsource, Hnone.
  split; [|split; [|exact Hnone]].
  - intros startPoint endPoint path Hs He Hne Hsome.
    apply (Hleast (startPoint, endPoint) path); [|exact Hne | exact Hsome].
    now apply in_prod.
  - intros path Hpath.
    destruct (Hsource path Hpath) as ([startPoint endPoint] & Hq & Hrest).
    apply in_prod_iff in Hq as [Hs He].
    exists startPoint, endPoint. auto.
Qed.

End BestCombination.

(** ** The matcher as a whole *)

Section MatcherWhole.

Open Scope float_scope.

Variable variant : Variant.
Variable g : Globals.

Lemma extract_size (gpxCoords : list Coord) (startIdx endIdx : nat)
  (s e : Coord) (path : list Coord) :
  extractGpsTrackBetweenPoints variant gpxCoords startIdx endIdx s e
  = Some path ->
  (2 <= length path <= 300)%nat.
Proof.
  intros H. split; [now apply extract_length in H|].
  apply extract_inv in H as [Hlen ->].
  unfold finalPath. rewrite adjustEndpoints_length.
  destruct (Nat.ltb_spec 300 (length (rawGpsSegment gpxCoords startIdx endIdx)))
    as [Hlong|Hshort]; [|exact Hshort].
  rewrite (proj1 (intelligentSample_shape _ 200 s
                    (proj1 (Nat.leb_le 2 200) eq_refl)
                    (Nat.lt_trans _ _ _
                       (proj1 (Nat.ltb_lt 200 300) eq_refl) Hlong))).
  apply (Nat.leb_le 200 300). reflexivity.
Qed.

Lemma extract_equal_targets (gpxCoords : list Coord) (startIdx endIdx : nat)
  (target : Coord) :
  extractGpsTrackBetweenPoints variant gpxCoords startIdx endIdx target target
  = None.
Proof.
  unfold extractGpsTrackBetweenPoints.
  destruct (length (rawGpsSegment gpxCoords startIdx endIdx) <? 2)%nat;
    [reflexivity|].
  unfold windingRatio.
  now rewrite division_by_zero_rejected by apply calculateDistance_diag.
Qed.

(** On a track of fewer than 2000 points the search returns an index of
    least distance among all indices. *)
Lemma nearest_on_short_track (coordinates : list Coord) (targetCoord : Coord) :
  coordinates <> [] -> validDistances targetCoord coordinates ->
  (length coordinates < 2000)%nat ->
  exists c,
    nth_error coordinates (findClosestPointIndex coordinates targetCoord)
    = Some c /\
    forall ci, In ci coordinates ->
      (calculateDistance c targetCoord <=? calculateDistance ci targetCoord)
      = true.
Proof.
  intros Hne Hvalid Hshort.
  destruct (findClosestPointIndex_window targetCoord coordinates Hne Hvalid)
    as (c & Hc & Hwin & Hmin).
  destruct (coarsePass_index targetCoord coordinates Hne Hvalid)
    as (c1 & Hc1 & Hmin1).
  exists c. split; [exact Hc|]. intros ci Hin.
  apply In_nth_error in Hin as [i Hi].
  apply leb_trans with (calculateDistance c1 targetCoord).
  - now apply (Hmin _ c1 Hc1).
  - apply (Hmin1 i ci Hi). rewrite (searchStep_short _ Hshort).
    apply Nat.mod_1_r.
Qed.

Lemma nothing_nearby (coordinates : list Coord) (targetCoord c : Coord) :
  (forall ci, In ci coordinates ->
     (calculateDistance c targetCoord <=? calculateDistance ci targetCoord)
     = true) ->
  (calculateDistance c targetCoord <=? maxDistance) = false ->
  findNearbyIndices coordinates targetCoord maxDistance = [].
Proof.
  intros Hmin Hfar. apply findNearbyIndices_nil. intros ci Hin.
  destruct (calculateDistance ci targetCoord <=? maxDistance) eqn:E;
    [|reflexivity].
  rewrite <- Hfar. symmetry.
  apply leb_trans with (calculateDistance ci targetCoord); [|exact E].
  now apply Hmin.
Qed.

(** X12. The exceptions of the matcher.  With an empty array of points the
    read of the nearest point raises a [TypeError], for every target and
    both variants.  With points and a first track in the parser the matcher
    completes; so that, with points, an exception means that approach 3 was
    reached and found no first track to read. *)
Theorem findGpxSegmentForCoordinates_exceptions (allPoints : list GpxPoint)
  (startCoords endCoords : Coord) :
  findGpxSegmentForCoordinates variant g [] startCoords endCoords = TypeError /\
  (allPoints <> [] ->
   (forall track, firstTrack g = Some track ->
      exists result,
        findGpxSegmentForCoordinates variant g allPoints startCoords endCoords
        = Normal result) /\
   (findGpxSegmentForCoordinates variant g allPoints startCoords endCoords
    = TypeError -> firstTrack g = None)).
Proof.
  split; [reflexivity|]. intros Hne. split.
  - intros track Htrack.
    now apply findGpxSegmentForCoordinates_completes with track.
  - intros Hraise. destruct (firstTrack g) as [track|] eqn:Htrack;
      [|reflexivity].
    destruct (findGpxSegmentForCoordinates_completes variant g allPoints track
                startCoords endCoords Hne Htrack) as [result Hresult].
    congruence.
Qed.

(** X13. The size of a matched path.  Every path the matcher returns has two
    points or more.  It has 300 points at most when it comes from approach 1
    or 2; from approach 3 it has 11 points or more and no more than the
    first track of the parser. *)
Theorem matched_path_size (allPoints : list GpxPoint)
  (startCoords endCoords : Coord) (path : list Coord) :
  findGpxSegmentForCoordinates variant g allPoints startCoords endCoords
  = Normal (Some path) ->
  (2 <= length path)%nat /\
  ((length path <= 300)%nat \/
   exists track, firstTrack g = Some track /\
     (11 <= length path <= length (points track))%nat).
Proof.
  intros H. apply findGpxSegmentForCoordinates_sources in H
    as [(si & ei & H)|(track & Htrack & H)].
  - apply extract_size in H. split; [lia | left; lia].
  - apply findSegmentByDistance_inv in H as (i & j & Hij & _ & _ & Hlen & ->).
    rewrite adjustEndpoints_length.
    split; [lia|]. right. exists track. split; [exact Htrack|].
    split; [exact Hlen|].
    unfold segmentCoords. rewrite length_map, slice_length_min. lia.
Qed.

(** X14. With equal targets no approach of the matcher returns a path: the
    winding ratio of approaches 1 and 2 and the distance ratio of approach 3
    are both divisions by the zero (or [NaN]) distance between the targets.
    The matcher then returns [null], or raises where it raises for other
    targets. *)
Theorem equal_targets_never_matched (allPoints : list GpxPoint)
  (target : Coord) :
  findGpxSegmentForCoordinates variant g allPoints target target = Normal None
  \/
  findGpxSegmentForCoordinates variant g allPoints target target = TypeError.
Proof.
  destruct (findGpxSegmentForCoordinates variant g allPoints target target)
    as [[path|]|] eqn:H; [exfalso | now left | now right].
  apply findGpxSegmentForCoordinates_sources in H
    as [(si & ei & H)|(track & Htrack & H)].
  - rewrite extract_equal_targets in H. discriminate.
  - rewrite findSegmentByDistance_zero_budget in H
      by apply calculateDistance_diag.
    discriminate.
Qed.

(** X15. On a track of fewer than 2000 points approach 2 has nothing to
    try.  The search is then exhaustive, so that when a nearest point is out
    of tolerance no point is within it: one of the two lists of nearby
    points is empty and the matcher answers as approach 3 does.  Otherwise
    the answer is that of approach 1. *)
Theorem approach2_idle_on_short_tracks (allPoints : list GpxPoint)
  (startCoords endCoords : Coord) :
  allPoints <> [] -> (length allPoints < 2000)%nat ->
  validDistances startCoords (map coordOf allPoints) ->
  validDistances endCoords (map coordOf allPoints) ->
  findGpxSegmentForCoordinates variant g allPoints startCoords endCoords
  = Normal (extractGpsTrackBetweenPoints variant (map coordOf allPoints)
              (findClosestPointIndex (map coordOf allPoints) startCoords)
              (findClosestPointIndex (map coordOf allPoints) endCoords)
              startCoords endCoords) \/
  ((findNearbyIndices (map coordOf allPoints) startCoords maxDistance = [] \/
    findNearbyIndices (map coordOf allPoints) endCoords maxDistance = []) /\
   findGpxSegmentForCoordinates variant g allPoints startCoords endCoords
   = distanceApproach variant g startCoords endCoords).
Proof.
  intros Hne Hshort Hvs Hve.
  set (gpxCoords := map coordOf allPoints) in *.
  assert (gpxCoords <> []) as Hne'
      by (subst gpxCoords; destruct allPoints; [congruence | discriminate]).
  assert (length gpxCoords < 2000)%nat as Hshort'
      by (subst gpxCoords; now rewrite length_map).
  destruct (nearest_on_short_track gpxCoords startCoords Hne' Hvs Hshort')
    as (cs & Hcs & Hmins).
  destruct (nearest_on_short_track gpxCoords endCoords Hne' Hve Hshort')
    as (ce & Hce & Hmine).
  destruct ((calculateDistance cs startCoords <=? maxDistance)
            && (calculateDistance ce endCoords <=? maxDistance)) eqn:Htol.
  - left. apply andb_prop in Htol as [Hs He].
    now apply (tolerance_pass_is_final variant g allPoints startCoords
                 endCoords cs ce).
  - right.
    assert (findNearbyIndices gpxCoords startCoords maxDistance = [] \/
            findNearbyIndices gpxCoords endCoords maxDistance = []) as Hnone.
    { apply andb_false_iff in Htol as [Hfar|Hfar]; [left | right];
        eapply nothing_nearby; eauto. }
    split; [exact Hnone|].
    unfold findGpxSegmentForCoordinates, read. fold gpxCoords.
    rewrite Hcs, Hce. cbn [bind]. rewrite Htol.
    destruct Hnone as [-> | ->]; cbn [firstn length Nat.ltb Nat.leb andb];
      [reflexivity|].
    now rewrite andb_false_r.
Qed.

End MatcherWhole.

Section MatcherWholeExamples.

Open Scope float_scope.

Lemma findGpxSegmentForCoordinates_exceptions_witness :
  exists result,
    findGpxSegmentForCoordinates main_js meridianGlobals
      (points meridianTrack) (40, -105) (40.1, -105)
    = Normal result.
Proof.
  apply (proj1 (proj2 (findGpxSegmentForCoordinates_exceptions main_js
                         meridianGlobals (points meridianTrack)
                         (40, -105) (40.1, -105))
                  ltac:(discriminate)) meridianTrack).
  reflexivity.
Defined.

Lemma matched_path_size_witness :
  Nat.le 2 (length [(0, 0.125); (0, 0.5); (0, 0.875)]).
Proof.
  apply (matched_path_size main_js (mkGlobals None []) straightTrack
           (0, 0) (0, 1) [(0, 0.125); (0, 0.5); (0, 0.875)]).
  vm_compute. reflexivity.
Defined.

(** The targets forty degrees away from the meridian track: nothing is
    within tolerance, and the answer is that of approach 3. *)
Lemma approach2_idle_on_short_tracks_witness :
  findGpxSegmentForCoordinates part_000 meridianGlobals
    (points meridianTrack) (0, -105) (0.1, -105)
  = Normal (extractGpsTrackBetweenPoints part_000
              (map coordOf (points meridianTrack))
              (findClosestPointIndex (map coordOf (points meridianTrack))
                 (0, -105))
              (findClosestPointIndex (map coordOf (points meridianTrack))
                 (0.1, -105))
              (0, -105) (0.1, -105)) \/
  ((findNearbyIndices (map coordOf (points meridianTrack)) (0, -105)
      maxDistance = [] \/
    findNearbyIndices (map coordOf (points meridianTrack)) (0.1, -105)
      maxDistance = []) /\
   findGpxSegmentForCoordinates part_000 meridianGlobals
     (points meridianTrack) (0, -105) (0.1, -105)
   = distanceApproach part_000 meridianGlobals (0, -105) (0.1, -105)).
Proof.
  apply (approach2_idle_on_short_tracks part_000 meridianGlobals
           (points meridianTrack) (0, -105) (0.1, -105)).
  - discriminate.
  - apply (proj1 (Nat.ltb_lt 11 2000)). reflexivity.
  - repeat constructor.
  - repeat constructor.
Defined.

End MatcherWholeExamples.

(** ** What the assembled segments are made of *)

Section Contents.

Lemma assemble_each (Q : nat -> RouteSegment -> Segment -> Prop)
  (step : Completion Tally -> nat * RouteSegment -> Completion Tally)
  (routeData : list RouteSegment) :
  pushesEach Q step ->
  exists t,
    fold_left step (entries routeData) (Normal (mkTally [] 0 0)) = Normal t /\
    length (segments t) = length routeData /\
    forall i spec, nth_error routeData i = Some spec ->
      exists seg, nth_error (segments t) i = Some seg /\ Q i spec seg.
Proof.
  intros Hstep. induction routeData as [|spec routeData IH] using rev_ind.
  - exists (mkTally [] 0 0). split; [reflexivity|]. split; [reflexivity|].
    intros [|i] spec H; discriminate.
  - destruct IH as (t & Hfold & Hlen & Hseg).
    rewrite entries_app_singleton, fold_left_app, Hfold. simpl.
    destruct (Hstep t (length routeData) spec) as (seg & HQ & [E|E]);
      rewrite E; eexists; (split; [reflexivity|]);
      unfold pushMatched, pushInterpolated; simpl;
      rewrite !length_app; simpl.
    all: split; [lia|].
    all: intros i spec' Hi.
    all: destruct (Nat.lt_ge_cases i (length routeData)) as [Hlt|Hge].
    all: try (rewrite nth_error_app1 in Hi by lia;
              rewrite nth_error_app1 by lia; now apply Hseg).
    all: rewrite nth_error_app2 in Hi by lia;
      rewrite nth_error_app2 by lia; rewrite Hlen.
    all: destruct (i - length routeData) as [|d] eqn:Ed; simpl in *;
      [|destruct d; discriminate].
    all: injection Hi as <-; replace i with (length routeData) by lia;
      eauto.
Qed.

Lemma createInterpolatedPath_ends (startCoords endCoords : Coord) :
  firstPoint (createInterpolatedPath startCoords endCoords)
  = Some startCoords /\
  lastPoint (createInterpolatedPath startCoords endCoords) = Some endCoords.
Proof. split; reflexivity. Qed.

(** A path returned by the matcher of [unnamed/part_000] runs from one
    target to the other. *)
Lemma part_000_path_ends (g : Globals) (allPoints : list GpxPoint)
  (s e : Coord) (path : list Coord) :
  findGpxSegmentForCoordinates part_000 g allPoints s e = Normal (Some path) ->
  firstPoint path = Some s /\ lastPoint path = Some e.
Proof.
  intros H. apply findGpxSegmentForCoordinates_sources in H
    as [(si & ei & H)|(track & Htrack & H)].
  - apply extract_inv in H as [Hlen ->]. unfold finalPath.
    apply adjustEndpoints_part_000. now apply sampled_shape.
  - apply findSegmentByDistance_inv in H as (i & j & _ & _ & _ & Hlen & ->).
    apply adjustEndpoints_part_000. lia.
Qed.

Lemma matcher_path_length (variant : Variant) (g : Globals)
  (allPoints : list GpxPoint) (s e : Coord) (path : list Coord) :
  findGpxSegmentForCoordinates variant g allPoints s e = Normal (Some path) ->
  2 <= length path.
Proof.
  intros H. apply findGpxSegmentForCoordinates_sources in H
    as [(si & ei & H)|(track & Htrack & H)].
  - now apply extract_length in H.
  - apply findSegmentByDistance_inv in H as (i & j & _ & _ & _ & Hlen & ->).
    rewrite adjustEndpoints_length. lia.
Qed.

(** X16. In [unnamed/part_000], with a loaded track that is not empty and a
    route list that is not empty, the assembler completes, and the segment
    made for each entry runs from the entry's start coordinate to its end
    coordinate, whether it is matched or interpolated: its first and last
    points and its [startCoords] and [endCoords] are the entry's, and it has
    two points or more.  Its coordinates are the path of the matcher when
    the matcher returns one, and the interpolated path when it returns
    [null]. *)
Theorem Part000_segments_span_route (g : Globals) (parser : GpxParser)
  (track : Track) (routeData : list RouteSegment) :
  trailGpxParser g = Some parser -> gpxTrailPoints g <> [] ->
  nth_error (tracks parser) 0 = Some track -> points track <> [] ->
  routeData <> [] ->
  exists out,
    Part000.processSegmentData g routeData = Normal out /\
    forall i spec, nth_error routeData i = Some spec ->
      exists seg,
        nth_error (coloradoTrailSegments out) i = Some seg /\
        firstPoint (coordinates seg) = Some (startCoordsOf spec) /\
        lastPoint (coordinates seg) = Some (endCoordsOf spec) /\
        startCoords seg = startCoordsOf spec /\
        endCoords seg = endCoordsOf spec /\
        2 <= length (coordinates seg) /\
        (forall path,
           findGpxSegmentForCoordinates part_000 g (points track)
             (startCoordsOf spec) (endCoordsOf spec) = Normal (Some path) ->
           seg = buildSegmentObject spec i path
                   (startCoordsOf spec) (endCoordsOf spec)) /\
        (findGpxSegmentForCoordinates part_000 g (points track)
           (startCoordsOf spec) (endCoordsOf spec) = Normal None ->
         seg = interpolatedSegment spec i).
Proof.
  intros Hparser Hpts Htrack Hne Hroute. unfold Part000.processSegmentData.
  rewrite Hparser.
  destruct (gpxTrailPoints g) as [|c0 cs] eqn:Eg; [congruence|]. simpl length.
  cbv iota beta. unfold read at 1. rewrite Htrack. simpl bind.
  assert (forall {A : Type} (l : list A), l <> [] ->
            (exists x, read l 0 = Normal x) /\
            (exists x, read l (length l - 1) = Normal x)) as Hread.
  { intros A l Hl. unfold read. split.
    - destruct l; [congruence|]. simpl. eauto.
    - destruct (nth_error l (length l - 1)) eqn:E; [eauto|].
      apply nth_error_None in E. destruct l; [congruence|]. simpl in E. lia. }
  destruct (Hread _ _ Hne) as [[x1 ->] [x2 ->]].
  destruct (Hread _ _ Hroute) as [[x3 ->] [x4 ->]]. simpl bind.
  assert (firstTrack g = Some track) as Hfirst
      by (unfold firstTrack; now rewrite Hparser).
  set (Q := fun (i : nat) (spec : RouteSegment) (seg : Segment) =>
              firstPoint (coordinates seg) = Some (startCoordsOf spec) /\
              lastPoint (coordinates seg) = Some (endCoordsOf spec) /\
              startCoords seg = startCoordsOf spec /\
              endCoords seg = endCoordsOf spec /\
              2 <= length (coordinates seg) /\
              (forall path,
                 findGpxSegmentForCoordinates part_000 g (points track)
                   (startCoordsOf spec) (endCoordsOf spec)
                 = Normal (Some path) ->
                 seg = buildSegmentObject spec i path
                         (startCoordsOf spec) (endCoordsOf spec)) /\
              (findGpxSegmentForCoordinates part_000 g (points track)
                 (startCoordsOf spec) (endCoordsOf spec) = Normal None ->
               seg = interpolatedSegment spec i)).
  destruct (assemble_each Q (Part000.processOne g (points track)) routeData)
    as (t & -> & _ & Hseg).
  2: { exists (summarize t). split; [reflexivity|]. exact Hseg. }
  intros t i spec. unfold Part000.processOne. cbn [bind].
  destruct (findGpxSegmentForCoordinates_completes part_000 g (points track)
              track (startCoordsOf spec) (endCoordsOf spec) Hne Hfirst)
    as [r Hr].
  rewrite Hr. cbn [bind].
  assert (Q i spec (interpolatedSegment spec i)
          \/ exists path, r = Some path) as Hinterp.
  { destruct r as [path|]; [right; eauto|]. left. subst Q. cbv beta.
    split; [reflexivity|]. split; [reflexivity|]. split; [reflexivity|].
    split; [reflexivity|].
    split; [apply (Nat.leb_le 2 11); reflexivity|].
    split; [intros path Hpath; congruence | reflexivity]. }
  destruct r as [path|].
  2: { destruct Hinterp as [HQ|[path [=]]].
       exists (interpolatedSegment spec i). split; [exact HQ | now right]. }
  clear Hinterp.
  destruct (part_000_path_ends _ _ _ _ _ Hr) as [Hfirstp Hlastp].
  pose proof (matcher_path_length _ _ _ _ _ _ Hr) as Hlen.
  destruct path as [|first rest]; [simpl in Hlen; lia|].
  destruct (Nat.leb_spec 2 (length (first :: rest))) as [_|]; [|lia].
  assert (first = startCoordsOf spec) as Efirst
      by (unfold firstPoint in Hfirstp; simpl in Hfirstp; congruence).
  subst first.
  assert (last rest (startCoordsOf spec) = endCoordsOf spec) as Elast.
  { rewrite (lastPoint_last _ (startCoordsOf spec)) in Hlastp by discriminate.
    assert (last rest (startCoordsOf spec)
            = last (startCoordsOf spec :: rest) (startCoordsOf spec)) as ->
        by (destruct rest; reflexivity).
    congruence. }
  eexists. split; [|left; reflexivity]. subst Q. cbv beta.
  rewrite Elast. cbn [coordinates startCoords endCoords buildSegmentObject].
  split; [exact Hfirstp|]. split; [exact Hlastp|].
  split; [reflexivity|]. split; [reflexivity|]. split; [exact Hlen|].
  split; [|intros Hnone; congruence].
  intros path Hpath. rewrite Hr in Hpath. now injection Hpath as <-.
Qed.

Lemma Part000_segments_span_route_witness :
  exists out,
    Part000.processSegmentData meridianGlobals exampleRoute = Normal out /\
    forall i spec, nth_error exampleRoute i = Some spec ->
      exists seg,
        nth_error (coloradoTrailSegments out) i = Some seg /\
        firstPoint (coordinates seg) = Some (startCoordsOf spec) /\
        lastPoint (coordinates seg) = Some (endCoordsOf spec) /\
        startCoords seg = startCoordsOf spec /\
        endCoords seg = endCoordsOf spec /\
        2 <= length (coordinates seg) /\
        (forall path,
           findGpxSegmentForCoordinates part_000 meridianGlobals
             (points meridianTrack)
             (startCoordsOf spec) (endCoordsOf spec) = Normal (Some path) ->
           seg = buildSegmentObject spec i path
                   (startCoordsOf spec) (endCoordsOf spec)) /\
        (findGpxSegmentForCoordinates part_000 meridianGlobals
           (points meridianTrack)
           (startCoordsOf spec) (endCoordsOf spec) = Normal None ->
         seg = interpolatedSegment spec i).
Proof.
  apply (Part000_segments_span_route meridianGlobals
           (mkGpxParser [meridianTrack]) meridianTrack exampleRoute).
  - reflexivity.
  - discriminate.
  - reflexivity.
  - discriminate.
  - discriminate.
Defined.

Lemma last_rest (c : Coord) (rest : list Coord) :
  lastPoint (c :: rest) = Some (last rest c).
Proof.
  rewrite (lastPoint_last _ c) by discriminate.
  destruct rest; reflexivity.
Qed.

Lemma namedTrack_beyond (parser : GpxParser) (i : nat) :
  15 <= i -> namedTrack parser i = None.
Proof.
  intros Hi. unfold namedTrack.
  destruct (nth_error MainJs.SEGMENT_ORDER i) eqn:E; [|reflexivity].
  assert (i < length MainJs.SEGMENT_ORDER) as Hlt
      by (apply nth_error_Some; congruence).
  simpl in Hlt. lia.
Qed.

(** One iteration of the loop of [scripts/main.js], read on the track mapped
    to the entry. *)
Lemma MainJs_pushesEach (parser : GpxParser) :
  pushesEach
    (fun i spec seg =>
       (forall track, namedTrack parser i = Some track ->
          2 <= length (points track) ->
          seg = buildSegmentObject spec i (map coordOf (points track))
                  (startCoords seg) (endCoords seg) /\
          firstPoint (map coordOf (points track)) = Some (startCoords seg) /\
          lastPoint (map coordOf (points track)) = Some (endCoords seg)) /\
       (forall track, namedTrack parser i = Some track ->
          length (points track) < 2 -> seg = interpolatedSegment spec i) /\
       (namedTrack parser i = None -> seg = interpolatedSegment spec i))
    (fun acc e => t <- acc ;; Normal (MainJs.processOne parser t e)).
Proof.
  intros t i spec. cbn [bind]. unfold MainJs.processOne, namedTrack.
  unfold MainJs.CORRECT_TRACK_ORDER. rewrite nth_error_map.
  destruct (nth_error MainJs.SEGMENT_ORDER i) as [targetSegment|];
    cbn [option_map].
  2: { exists (interpolatedSegment spec i).
       split; [|now right]. split; [discriminate|]. split; [discriminate|].
       reflexivity. }
  destruct (find (MainJs.nameMatches targetSegment) (entries (tracks parser)))
    as [[foundTrackIndex track]|] eqn:Hfind; cbn [option_map snd].
  2: { exists (interpolatedSegment spec i).
       split; [|now right]. split; [discriminate|]. split; [discriminate|].
       reflexivity. }
  apply find_some in Hfind as [Hin _]. apply in_entries in Hin.
  cbn [MainJs.gpxTrackIndex]. rewrite Hin.
  pose proof (length_map coordOf (points track)) as Hlen.
  destruct (map coordOf (points track)) as [|gpxStartCoords rest] eqn:Ecoords.
  { exists (interpolatedSegment spec i). split; [|now right].
    split; [|split; [reflexivity | discriminate]].
    intros track' [= <-] Htwo. simpl in Hlen. lia. }
  destruct (Nat.leb_spec 2 (length (gpxStartCoords :: rest))) as [Htwo|Hone].
  - eexists. split; [|left; reflexivity].
    split; [|split; [|discriminate]].
    + intros track' [= <-] _.
      cbn [startCoords endCoords buildSegmentObject]. rewrite Ecoords.
      split; [reflexivity|]. split; [reflexivity | apply last_rest].
    + intros track' [= <-] Hshort. lia.
  - exists (interpolatedSegment spec i). split; [|now right].
    split; [|split; [reflexivity | discriminate]].
    intros track' [= <-] Htwo. lia.
Qed.

(** X17. In [scripts/main.js], with a parser object, the assembler completes
    for every route list, and the segment of the entry at position [i] is
    made from the track mapped to that position alone: when the first track
    whose name starts with [SEGMENT_ORDER[i]] (case ignored) has two points
    or more, the segment is all the recorded coordinates of that track, with
    its first and last points as [startCoords] and [endCoords]; when that
    track has fewer than two points, when no track has such a name, and for
    every position from 15 on, the segment is the interpolated one. *)
Theorem MainJs_segments_from_named_tracks (g : Globals) (parser : GpxParser)
  (routeData : list RouteSegment) :
  trailGpxParser g = Some parser ->
  exists out,
    MainJs.processSegmentData g routeData = Normal out /\
    forall i spec, nth_error routeData i = Some spec ->
      exists seg,
        nth_error (coloradoTrailSegments out) i = Some seg /\
        (forall track, namedTrack parser i = Some track ->
           2 <= length (points track) ->
           seg = buildSegmentObject spec i (map coordOf (points track))
                   (startCoords seg) (endCoords seg) /\
           firstPoint (map coordOf (points track)) = Some (startCoords seg) /\
           lastPoint (map coordOf (points track)) = Some (endCoords seg)) /\
        (forall track, namedTrack parser i = Some track ->
           length (points track) < 2 -> seg = interpolatedSegment spec i) /\
        (namedTrack parser i = None -> seg = interpolatedSegment spec i) /\
        (15 <= i -> seg = interpolatedSegment spec i).
Proof.
  intros Hparser. unfold MainJs.processSegmentData. rewrite Hparser.
  destruct (assemble_each _ _ routeData (MainJs_pushesEach parser))
    as (t & Hfold & _ & Hseg).
  rewrite fold_left_lift in Hfold. injection Hfold as Hfold.
  exists (summarize t). split; [now rewrite Hfold|].
  intros i spec Hi. destruct (Hseg i spec Hi) as (seg & Hnth & H1 & H2 & H3).
  exists seg. split; [exact Hnth|]. split; [exact H1|]. split; [exact H2|].
  split; [exact H3|]. intros Hbeyond. now apply H3, namedTrack_beyond.
Qed.

Lemma MainJs_segments_from_named_tracks_witness :
  exists out,
    MainJs.processSegmentData meridianGlobals exampleRoute = Normal out /\
    forall i spec, nth_error exampleRoute i = Some spec ->
      exists seg,
        nth_error (coloradoTrailSegments out) i = Some seg /\
        (forall track,
           namedTrack (mkGpxParser [meridianTrack]) i = Some track ->
           2 <= length (points track) ->
           seg = buildSegmentObject spec i (map coordOf (points track))
                   (startCoords seg) (endCoords seg) /\
           firstPoint (map coordOf (points track)) = Some (startCoords seg) /\
           lastPoint (map coordOf (points track)) = Some (endCoords seg)) /\
        (forall track,
           namedTrack (mkGpxParser [meridianTrack]) i = Some track ->
           length (points track) < 2 -> seg = interpolatedSegment spec i) /\
        (namedTrack (mkGpxParser [meridianTrack]) i = None ->
         seg = interpolatedSegment spec i) /\
        (15 <= i -> seg = interpolatedSegment spec i).
Proof.
  apply (MainJs_segments_from_named_tracks meridianGlobals
           (mkGpxParser [meridianTrack]) exampleRoute).
  reflexivity.
Defined.

(** A track named after the twelfth entry of [SEGMENT_ORDER], in upper
    case, is the one mapped to position 11. *)
Example namedTrack_ignores_case :
  namedTrack
    (mkGpxParser
       [meridianTrack;
        mkTrack (Some "CW01 Collegiate West"%string) straightTrack
          (mkTrackDistance 0 [])]) 11
  = Some (mkTrack (Some "CW01 Collegiate West"%string) straightTrack
            (mkTrackDistance 0 [])).
Proof. reflexivity. Qed.

End Contents.

(** ** Waypoints *)

Section WaypointSearch.

Open Scope float_scope.

Variable g : Globals.
Variable waypoints : list Waypoint.
Variable targetCoords : Coord.

(** The state of the loop of [findClosestWaypoint] after the waypoints
    [seen]. *)
Lemma closerWaypoint_invariant :
  let st :=
    fold_left (closerWaypoint targetCoords) waypoints
      (None, Number.MAX_VALUE) in
  is_number (snd st) /\
  (forall w, In w waypoints ->
     (waypointDistance targetCoords w <? snd st) = false) /\
  match fst st with
  | Some w => In w waypoints /\ snd st = waypointDistance targetCoords w
  | None => snd st = Number.MAX_VALUE
  end.
Proof.
  apply (fold_left_visited
           (fun seen st =>
              is_number (snd st) /\
              (forall w, In w seen ->
                 (waypointDistance targetCoords w <? snd st) = false) /\
              match fst st with
              | Some w => In w seen /\ snd st = waypointDistance targetCoords w
              | None => snd st = Number.MAX_VALUE
              end)).
  - split; [exact MAX_VALUE_is_number|]. split; [intros w []|reflexivity].
  - intros seen w [closest minDistance] (Hnum & Hleast & Hwho).
    cbn [fst snd] in *. unfold closerWaypoint.
    fold (waypointDistance targetCoords w). cbn [snd].
    destruct (waypointDistance targetCoords w <? minDistance) eqn:Hlt;
      cbn [fst snd].
    + split; [eapply ltb_is_number_l; exact Hlt|]. split.
      * intros w' Hw'. apply in_app_or in Hw' as [Hw'|[<-|[]]];
          [|apply ltb_irrefl].
        destruct (waypointDistance targetCoords w'
                  <? waypointDistance targetCoords w) eqn:E; [|reflexivity].
        rewrite <- (Hleast w' Hw'). symmetry.
        now apply ltb_trans with (waypointDistance targetCoords w).
      * split; [apply in_or_app; right; now left | reflexivity].
    + split; [exact Hnum|]. split.
      * intros w' Hw'. apply in_app_or in Hw' as [Hw'|[<-|[]]];
          [now apply Hleast | exact Hlt].
      * destruct closest as [w0|]; [|exact Hwho].
        destruct Hwho as [Hin Heq]. split; [|exact Heq].
        apply in_or_app. now left.
Qed.

Lemma half_is_number : is_number 0.5.
Proof. unfold is_number. vm_compute. discriminate. Qed.

(** X18. [findClosestWaypoint] raises a [TypeError] when there is no parser
    object.  With one it completes, and a waypoint it returns is one of the
    list, less than 0.5 degrees from the target and with no waypoint
    strictly nearer; it returns [null] exactly when no waypoint of the list
    is less than 0.5 degrees from the target. *)
Theorem findClosestWaypoint_nearest :
  (trailGpxParser g = None ->
   findClosestWaypoint g waypoints targetCoords = TypeError) /\
  (trailGpxParser g <> None ->
   exists result,
     findClosestWaypoint g waypoints targetCoords = Normal result /\
     (forall waypoint, result = Some waypoint ->
        In waypoint waypoints /\
        (waypointDistance targetCoords waypoint <? 0.5) = true /\
        forall other, In other waypoints ->
          (waypointDistance targetCoords other
           <? waypointDistance targetCoords waypoint) = false) /\
     (result = None <->
      forall other, In other waypoints ->
        (waypointDistance targetCoords other <? 0.5) = false)).
Proof.
  unfold findClosestWaypoint. split; [now intros ->|].
  destruct (trailGpxParser g) as [parser|]; [intros _ | congruence].
  destruct waypoints as [|w0 ws] eqn:Ews.
  { exists None. split; [reflexivity|]. split; [discriminate|].
    split; [intros _ other [] | reflexivity]. }
  rewrite <- Ews. replace (length waypoints =? 0)%nat with false
    by (rewrite Ews; reflexivity).
  eexists. split; [reflexivity|]. unfold closestWaypoint.
  pose proof closerWaypoint_invariant as Hinv. cbv zeta in Hinv.
  destruct (fold_left (closerWaypoint targetCoords) waypoints
              (None, Number.MAX_VALUE)) as [closest minDistance].
  cbn [fst snd] in Hinv. destruct Hinv as (Hnum & Hleast & Hwho).
  assert ((minDistance <? 0.5) = false ->
          forall other, In other waypoints ->
            (waypointDistance targetCoords other <? 0.5) = false) as Hfar.
  { intros Hge other Hother.
    destruct (waypointDistance targetCoords other <? 0.5) eqn:E;
      [|reflexivity].
    rewrite <- (Hleast other Hother). symmetry.
    apply ltb_leb_trans with 0.5; [exact E|].
    apply not_ltb_leb; [exact Hnum | exact half_is_number | exact Hge]. }
  destruct (minDistance <? 0.5) eqn:Hclose.
  - destruct closest as [w|].
    + destruct Hwho as [Hin ->]. split.
      * intros waypoint [= <-]. auto.
      * split; [discriminate|]. intros Hnone.
        rewrite (Hnone w Hin) in Hclose. discriminate.
    + subst minDistance. vm_compute in Hclose. discriminate.
  - split; [discriminate|]. split; [intros _; now apply Hfar | reflexivity].
Qed.

End WaypointSearch.

Section WaypointSegments.

Open Scope float_scope.

(** A path returned by the matcher of [scripts/main.js] starts and ends at
    recorded points of the track it was cut from. *)
Lemma main_js_path_ends (g : Globals) (allPoints : list GpxPoint)
  (s e : Coord) (path : list Coord) :
  findGpxSegmentForCoordinates main_js g allPoints s e = Normal (Some path) ->
  recordedEndpoints allPoints path \/
  exists track, firstTrack g = Some track /\
                recordedEndpoints (points track) path.
Proof.
  intros H. apply findGpxSegmentForCoordinates_sources in H
    as [(si & ei & H)|(track & Htrack & H)].
  - left. apply extract_inv in H as [Hlen ->]. unfold finalPath. simpl.
    destruct (sampled_shape _ Hlen) as (_ & Hf & Hl).
    apply (recordedEndpoints_same _ _ _ Hf Hl).
    destruct (rawGpsSegment_slice (map coordOf allPoints) si ei)
      as (a & b & _ & E).
    rewrite E in *. now apply slice_endpoints.
  - right. exists track. split; [exact Htrack|].
    apply findSegmentByDistance_inv in H as (i & j & _ & _ & _ & Hlen & ->).
    simpl. unfold segmentCoords in *. rewrite <- slice_map in *.
    apply slice_endpoints. lia.
Qed.

(** X19. [extractSegmentUsingWaypoints] raises a [TypeError] when there is no
    parser object, and otherwise completes for every list of waypoints and
    every pair of targets.  It returns [null] when the parser has no track
    or its first track has no point.  A path it returns, by the waypoints or
    by the fallback to the matcher, has two points or more and starts and
    ends at recorded points of the first track, in track order. *)
Theorem extractSegmentUsingWaypoints_result (g : Globals)
  (waypoints : list Waypoint) (startCoords endCoords : Coord) :
  (trailGpxParser g = None ->
   extractSegmentUsingWaypoints g waypoints startCoords endCoords
   = TypeError) /\
  (forall parser, trailGpxParser g = Some parser ->
   exists result,
     extractSegmentUsingWaypoints g waypoints startCoords endCoords
     = Normal result /\
     (tracks parser = [] -> result = None) /\
     (forall track, firstTrack g = Some track -> points track = [] ->
        result = None) /\
     (forall path, result = Some path ->
        (2 <= length path)%nat /\
        exists track, firstTrack g = Some track /\
          recordedEndpoints (points track) path)).
Proof.
  unfold extractSegmentUsingWaypoints, firstTrack.
  split; [now intros ->|]. intros parser Hparser. rewrite Hparser.
  destruct (tracks parser) as [|mainTrack others] eqn:Etracks.
  { exists None. split; [reflexivity|]. split; [reflexivity|].
    split; [reflexivity | discriminate]. }
  cbn [nth_error].
  destruct (points mainTrack) as [|p0 ps] eqn:Epoints.
  { exists None. split; [reflexivity|]. split; [reflexivity|].
    split; [reflexivity | discriminate]. }
  rewrite <- Epoints.
  replace (length (points mainTrack) =? 0)%nat with false
    by (rewrite Epoints; reflexivity).
  assert (points mainTrack <> []) as Hne by (rewrite Epoints; discriminate).
  assert (firstTrack g = Some mainTrack) as Hfirst
      by (unfold firstTrack; now rewrite Hparser, Etracks).
  assert (exists result,
            findGpxSegmentForCoordinates main_js g (points mainTrack)
              startCoords endCoords = Normal result /\
            (tracks parser = [] -> result = None) /\
            (forall track, Some mainTrack = Some track -> points track = [] ->
               result = None) /\
            (forall path, result = Some path ->
               (2 <= length path)%nat /\
               exists track, Some mainTrack = Some track /\
                 recordedEndpoints (points track) path)) as Hfallback.
  { destruct (findGpxSegmentForCoordinates_completes main_js g
                (points mainTrack) mainTrack startCoords endCoords Hne Hfirst)
      as [result Hresult].
    exists result. split; [exact Hresult|]. split; [congruence|].
    split; [intros track [= <-] E; congruence|].
    intros path ->. split; [eapply matcher_path_length; exact Hresult|].
    exists mainTrack. split; [reflexivity|].
    apply main_js_path_ends in Hresult
      as [Hends|(track & Htrack & Hends)]; [exact Hends|].
    rewrite Hfirst in Htrack. now injection Htrack as <-. }
  rewrite Etracks in Hfallback.
  unfold findClosestWaypoint. rewrite Hparser.
  set (startWaypoint :=
         if (length waypoints =? 0)%nat then None
         else closestWaypoint waypoints startCoords).
  set (endWaypoint :=
         if (length waypoints =? 0)%nat then None
         else closestWaypoint waypoints endCoords).
  replace (if (length waypoints =? 0)%nat then Normal None
           else Normal (closestWaypoint waypoints startCoords))
    with (Normal startWaypoint)
    by (subst startWaypoint; now destruct (length waypoints =? 0)%nat).
  replace (if (length waypoints =? 0)%nat then Normal None
           else Normal (closestWaypoint waypoints endCoords))
    with (Normal endWaypoint)
    by (subst endWaypoint; now destruct (length waypoints =? 0)%nat).
  cbn [bind].
  destruct startWaypoint as [sw|]; [|exact Hfallback].
  destruct endWaypoint as [ew|]; [|exact Hfallback].
  set (trackCoords := map coordOf (points mainTrack)).
  set (startIdx := findClosestPointIndex trackCoords (wp_lat sw, wp_lon sw)).
  set (endIdx := findClosestPointIndex trackCoords (wp_lat ew, wp_lon ew)).
  destruct (Nat.ltb_spec startIdx endIdx) as [Hlt|_]; [|exact Hfallback].
  assert (endIdx < length trackCoords)%nat as Hend.
  { subst endIdx. apply findClosestPointIndex_lt. subst trackCoords.
    rewrite Epoints. discriminate. }
  assert (length (slice trackCoords startIdx (endIdx + 1))
          = endIdx + 1 - startIdx)%nat as Hlen
      by (apply slice_length; lia).
  assert (forall k, (k < length (slice trackCoords startIdx (endIdx + 1)))%nat ->
            exists c, read (slice trackCoords startIdx (endIdx + 1)) k
                      = Normal c) as Hread.
  { intros k Hk. unfold read.
    destruct (nth_error (slice trackCoords startIdx (endIdx + 1)) k) eqn:E;
      [eauto|].
    apply nth_error_None in E. lia. }
  destruct (Hread 0%nat) as [c0 ->]; [lia|].
  destruct (Hread (length (slice trackCoords startIdx (endIdx + 1)) - 1)%nat)
    as [c1 ->]; [lia|].
  cbn [bind]. eexists. split; [reflexivity|]. split; [discriminate|].
  split; [intros track [= <-] E; congruence|].
  intros path [= <-]. split; [lia|].
  exists mainTrack. split; [reflexivity|].
  apply slice_endpoints. fold trackCoords. lia.
Qed.

Lemma extractSegmentUsingWaypoints_result_witness :
  exists result,
    extractSegmentUsingWaypoints meridianGlobals
      [mkWaypoint (Some "Trailhead"%string) 40 (-105);
       mkWaypoint None 40.1 (-105)] (40, -105) (40.1, -105)
    = Normal result /\
    result = Some (map coordOf (points meridianTrack)).
Proof.
  destruct (proj2 (extractSegmentUsingWaypoints_result meridianGlobals
                     [mkWaypoint (Some "Trailhead"%string) 40 (-105);
                      mkWaypoint None 40.1 (-105)] (40, -105) (40.1, -105))
              (mkGpxParser [meridianTrack]) eq_refl) as (result & Hresult & _).
  exists result. split; [exact Hresult|].
  vm_compute in Hresult. now injection Hresult as <-.
Defined.

End WaypointSegments.

Section WaypointSearchExample.

Open Scope float_scope.

Lemma findClosestWaypoint_nearest_witness :
  exists result,
    findClosestWaypoint meridianGlobals
      [mkWaypoint None 41 (-105); mkWaypoint None 40.25 (-105)] (40, -105)
    = Normal result /\
    result = Some (mkWaypoint None 40.25 (-105)).
Proof.
  destruct (proj2 (findClosestWaypoint_nearest meridianGlobals
                     [mkWaypoint None 41 (-105); mkWaypoint None 40.25 (-105)]
                     (40, -105)) ltac:(discriminate))
    as (result & Hresult & _).
  exists result. split; [exact Hresult|].
  vm_compute in Hresult. now injection Hresult as <-.
Defined.

End WaypointSearchExample.

(** ** Great-circle distances *)

Section Cumulative.

Open Scope float_scope.

Variable Math_sin : float -> float.
Variable Math_cos : float -> float.
Variable Math_asin : float -> float.

Lemma is_nan_false_number (x : float) : is_nan x = false -> is_number x.
Proof.
  unfold is_nan, is_number. rewrite FloatAxioms.eqb_spec.
  destruct (Prim2SF x) as [s|s| |s m e]; intros H;
    try (destruct s; discriminate).
  discriminate H.
Qed.

(** A square root is never below zero: it is [NaN], a zero, or positive. *)
Lemma sqrt_not_below_zero (x : float) : (sqrt x <? 0) = false.
Proof.
  rewrite ltb_spec, sqrt_spec.
  replace (Prim2SF 0) with (S754_zero false) by reflexivity.
  unfold SF64sqrt, SFsqrt.
  destruct (Prim2SF x) as [s|[|]| |[|] m e]; try reflexivity.
  destruct (SFsqrt_core_binary prec emax (Z.pos m) e) as [[mz ez] lz].
  pose proof (binary_round_aux_not_negative mz ez lz) as H.
  unfold SFltb.
  destruct (binary_round_aux prec emax false mz ez lz) as [s|s| |s m' e'];
    simpl in *; try subst s; reflexivity.
Qed.

Lemma Math_min_one (r : float) :
  (r <? 0) = false ->
  is_nan (Math_min 1 r) = true \/
  ((Math_min 1 r <=? 1) = true /\ (Math_min 1 r <? 0) = false).
Proof.
  intros Hr. unfold Math_min.
  replace (is_nan 1) with false by reflexivity. cbn [orb].
  destruct (is_nan r) eqn:Hnan; [left; reflexivity|]. right.
  destruct (r <? 1) eqn:Hlt; [split; [now apply ltb_leb | exact Hr]|].
  destruct (1 <? r) eqn:Hgt; [split; reflexivity|].
  replace (get_sign 1) with false by reflexivity.
  split; [|exact Hr].
  apply not_ltb_leb; [| |exact Hgt].
  - unfold is_number. vm_compute. discriminate.
  - now apply is_nan_false_number.
Qed.

(** X20. The clamp of [haversineMeters]: whatever the two coordinates, and
    whatever the engine's sine, cosine and arc sine compute, the number
    handed to [Math.asin] is [NaN] or lies between 0 and 1. *)
Theorem haversineMeters_clamped (a b : Coord) :
  exists m,
    haversineMeters Math_sin Math_cos Math_asin a b
    = 2 * 6371000 * Math_asin m /\
    (is_nan m = true \/ ((m <=? 1) = true /\ (m <? 0) = false)).
Proof.
  unfold haversineMeters. cbv zeta. eexists. split; [reflexivity|].
  apply Math_min_one, sqrt_not_below_zero.
Qed.

Lemma fold_left_prefix {S X : Type} (P : list X -> S -> Prop)
  (f : S -> X -> S) (l : list X) (s0 : S) :
  P [] s0 ->
  (forall seen x rest s, l = seen ++ x :: rest -> P seen s ->
     P (seen ++ [x]) (f s x)) ->
  P l (fold_left f l s0).
Proof.
  intros H0 Hstep.
  assert (forall todo seen s, l = seen ++ todo -> P seen s ->
            P l (fold_left f todo s)) as H.
  { induction todo as [|x todo IH]; intros seen s E Hs; simpl.
    - rewrite E, app_nil_r. exact Hs.
    - apply (IH (seen ++ [x])).
      + rewrite <- app_assoc. exact E.
      + now apply (Hstep seen x todo). }
  now apply (H l []).
Qed.

Lemma nth_error_combine_tl {A : Type} (l : list A) (i : nat) (c c' : A) :
  nth_error (combine l (tl l)) i = Some (c, c') <->
  nth_error l i = Some c /\ nth_error l (i + 1) = Some c'.
Proof.
  revert i. induction l as [|a l IH]; intros i.
  - destruct i; simpl; split; [discriminate | intros [H _]; discriminate
                              | discriminate | intros [H _]; discriminate].
  - destruct l as [|b l].
    + destruct i as [|[|i]]; simpl; split; try discriminate;
        intros [_ H]; discriminate.
    + destruct i as [|i].
      * simpl. split; [intros [= <- <-]; auto | intros [[= <-] [= <-]]; auto].
      * change (nth_error (combine (a :: b :: l) (tl (a :: b :: l))) (S i))
          with (nth_error (combine (b :: l) (tl (b :: l))) i).
        rewrite IH. reflexivity.
Qed.

(** X21. [computeCumulativeMeters] returns the running sum of the
    great-circle steps: an array with one entry for each coordinate, [0] at
    index 0, and at each later index the entry before it plus
    [haversineMeters] of the step that leads there (the sum of two doubles,
    taken in that order); for an empty array it returns an empty array. *)
Theorem computeCumulativeMeters_running_sum (coords : list Coord) :
  let cum := computeCumulativeMeters Math_sin Math_cos Math_asin coords in
  length cum = length coords /\
  (coords <> [] -> nth_error cum 0 = Some 0) /\
  forall i c c',
    nth_error coords i = Some c -> nth_error coords (i + 1)%nat = Some c' ->
    exists previous,
      nth_error cum i = Some previous /\
      nth_error cum (i + 1)%nat
      = Some (previous + haversineMeters Math_sin Math_cos Math_asin c c').
Proof.
  intros cum. subst cum. unfold computeCumulativeMeters.
  destruct coords as [|c0 rest] eqn:Ecoords.
  { split; [reflexivity|]. split; [congruence|].
    intros [|i] c c' H; discriminate. }
  rewrite <- Ecoords.
  replace (length coords =? 0)%nat with false by (rewrite Ecoords; reflexivity).
  set (pairs := combine coords (tl coords)).
  set (n := length coords).
  assert (length pairs = n - 1)%nat as Hpairs.
  { subst pairs n. rewrite length_combine, Ecoords. cbn [tl length]. lia. }
  assert (let cum :=
            fold_left (accumulate Math_sin Math_cos Math_asin)
              (entries pairs) (repeat 0 n) in
          length cum = n /\ nth_error cum 0 = Some 0 /\
          forall i c c', (i < length (entries pairs))%nat ->
            nth_error pairs i = Some (c, c') ->
            exists previous,
              nth_error cum i = Some previous /\
              nth_error cum (i + 1)%nat
              = Some (previous
                      + haversineMeters Math_sin Math_cos Math_asin c c'))
    as Hloop.
  { apply (fold_left_prefix
             (fun seen cum =>
                length cum = n /\ nth_error cum 0 = Some 0 /\
                forall i c c', (i < length seen)%nat ->
                  nth_error pairs i = Some (c, c') ->
                  exists previous,
                    nth_error cum i = Some previous /\
                    nth_error cum (i + 1)%nat
                    = Some (previous
                            + haversineMeters Math_sin Math_cos Math_asin
                                c c'))).
    - split; [apply repeat_length|]. split.
      + subst n. rewrite Ecoords. reflexivity.
      + intros i c c' Hi. simpl in Hi. lia.
    - intros seen [k [c c']] todo cum Esplit (Hlen & Hzero & Hsum).
      assert (nth_error (entries pairs) (length seen) = Some (k, (c, c')))
        as Hk.
      { rewrite Esplit, nth_error_app2, Nat.sub_diag by lia. reflexivity. }
      rewrite entries_nth_error in Hk.
      destruct (nth_error pairs (length seen)) as [p|] eqn:Ep;
        [|discriminate].
      cbn [option_map] in Hk. injection Hk as <- ->.
      assert (length seen < n - 1)%nat as Hbound
          by (rewrite <- Hpairs; apply nth_error_Some; congruence).
      unfold accumulate. cbn [fst snd].
      assert (exists previous, nth_error cum (length seen) = Some previous)
        as [previous Hprev].
      { destruct (nth_error cum (length seen)) eqn:E; [eauto|].
        apply nth_error_None in E. lia. }
      rewrite (nth_error_nth _ _ nan Hprev).
      split; [now rewrite assign_length|]. split.
      + rewrite assign_nth_error by lia.
        destruct (Nat.eqb_spec 0 (length seen + 1)); [lia | exact Hzero].
      + intros i c1 c1' Hi Hpair. rewrite length_app in Hi. simpl in Hi.
        rewrite !assign_nth_error by lia.
        destruct (Nat.eqb_spec i (length seen + 1)) as [|_]; [lia|].
        destruct (Nat.eqb_spec (i + 1) (length seen + 1)) as [Heq|Hne].
        * assert (i = length seen) by lia. subst i.
          rewrite Ep in Hpair. injection Hpair as <- <-.
          exists previous. split; [exact Hprev | reflexivity].
        * apply Hsum; [lia | exact Hpair]. }
  cbv zeta in Hloop. destruct Hloop as (Hlen & Hzero & Hsum).
  split; [exact Hlen|]. split; [intros _; exact Hzero|].
  intros i c c' Hc Hc'.
  assert (nth_error pairs i = Some (c, c')) as Hpair
      by (apply nth_error_combine_tl; auto).
  apply Hsum; [|exact Hpair].
  rewrite entries_length. apply nth_error_Some. congruence.
Qed.

End Cumulative.

Section CumulativeExample.

Open Scope float_scope.

(** With an arc sine that returns its argument and a sine and a cosine that
    return 1, each step adds [2 * 6371000 * 1]. *)
Lemma computeCumulativeMeters_running_sum_witness :
  nth_error
    (computeCumulativeMeters (fun _ => 1) (fun _ => 1) (fun x => x)
       [(0, 0); (0, 1); (1, 1)]) 0
  = Some 0.
Proof.
  apply (proj1 (proj2 (computeCumulativeMeters_running_sum
                         (fun _ => 1) (fun _ => 1) (fun x => x)
                         [(0, 0); (0, 1); (1, 1)]))).
  discriminate.
Defined.

End CumulativeExample.

(** ** Presentation *)

Section PresentationFacts.

Open Scope float_scope.

Lemma colors_NoDup : NoDup colors.
Proof.
  unfold colors.
  repeat (constructor;
          [simpl; intros H;
           repeat (destruct H as [H|H]; [discriminate H|]); exact H|]).
  constructor.
Qed.

(** X22. The colour of a segment is always defined, and two segments are
    drawn in the same colour exactly when their indices are equal modulo 15:
    the palette has 15 colours, all different. *)
Theorem getSegmentColor_same_iff (index index' : nat) :
  (exists color, getSegmentColor index = Some color) /\
  (getSegmentColor index = getSegmentColor index'
   <-> index mod 15 = index' mod 15)%nat.
Proof.
  unfold getSegmentColor. change (length colors) with 15%nat.
  assert (forall i, i mod 15 < length colors)%nat as Hlt
      by (intros i; apply Nat.mod_upper_bound; discriminate).
  split.
  - destruct (nth_error colors (index mod 15)) as [c|] eqn:E; [eauto|].
    apply nth_error_None in E. specialize (Hlt index). lia.
  - split; [|now intros ->].
    apply (proj1 (NoDup_nth_error colors) colors_NoDup). apply Hlt.
Qed.

Lemma elevationRecords_all (variant : Variant) (segmentId : nat) :
  In (getSegmentElevationData variant segmentId) elevationRecords.
Proof.
  assert (forall id, getSegmentElevationData variant id
                     = getSegmentElevationData variant (Nat.min id 16))
    as Hdefault.
  { intros id. do 16 (destruct id as [|id]; [reflexivity|]). reflexivity. }
  rewrite Hdefault. unfold elevationRecords. apply in_or_app.
  destruct variant; [left | right]; apply in_map; apply in_range; lia.
Qed.

Lemma chartPoints_checked :
  forallb
    (fun elevation =>
       forallb inFrame (chartPoints elevation)
       && (minElevation elevation <? maxElevation elevation)
       && (snd (chartPoint elevation 0) =? chartHeight)
       && (snd (chartPoint elevation 12) =? 0))
    elevationRecords = true.
Proof. vm_compute. reflexivity. Qed.

(** X23. The elevation chart stays in its frame.  For the elevation record
    of every segment identifier, in both files, the minimum elevation is
    below the maximum (the profile divides by their difference), and each of
    the 21 points of the profile has [0 <= x <= chartWidth] and
    [0 <= y <= chartHeight]; the profile starts on the bottom line and
    touches the top line at [i = 12]. *)
Theorem createElevationChart_in_frame (variant : Variant) (segmentId : nat) :
  let elevation := getSegmentElevationData variant segmentId in
  (minElevation elevation <? maxElevation elevation) = true /\
  length (chartPoints elevation) = 21%nat /\
  (forall i, (i <= numPoints)%nat ->
     let '(x, y) := chartPoint elevation i in
     (0 <=? x) = true /\ (x <=? chartWidth) = true /\
     (0 <=? y) = true /\ (y <=? chartHeight) = true) /\
  (snd (chartPoint elevation 0) =? chartHeight) = true /\
  (snd (chartPoint elevation 12) =? 0) = true.
Proof.
  intros elevation.
  pose proof chartPoints_checked as Hall.
  rewrite forallb_forall in Hall.
  specialize (Hall elevation (elevationRecords_all variant segmentId)).
  apply andb_prop in Hall as [Hall Htop].
  apply andb_prop in Hall as [Hall Hbottom].
  apply andb_prop in Hall as [Hframe Hrange].
  split; [exact Hrange|]. split; [reflexivity|].
  split; [|split; [exact Hbottom | exact Htop]].
  intros i Hi. rewrite forallb_forall in Hframe.
  assert (In (chartPoint elevation i) (chartPoints elevation)) as Hin.
  { unfold chartPoints. apply in_map. apply in_range. unfold numPoints in *.
    lia. }
  specialize (Hframe _ Hin). destruct (chartPoint elevation i) as [x y].
  unfold inFrame in Hframe. cbn [fst snd] in Hframe.
  apply andb_prop in Hframe as [Hframe Hy2].
  apply andb_prop in Hframe as [Hframe Hy1].
  apply andb_prop in Hframe as [Hx1 Hx2].
  auto.
Qed.

End PresentationFacts.

(** ** The exceptions of the assembler of [unnamed/part_000] *)

Section AssemblerExceptions.

(** X24. With a parser object and recorded trail points,
    [processSegmentData] of [unnamed/part_000] raises a [TypeError] in three
    cases and no other: the parser has no first track, the first track has
    no point, or the route list is empty.  Each is a read of an array that
    has no element, made before the loop starts. *)
Theorem Part000_raises_iff (g : Globals) (parser : GpxParser)
  (routeData : list RouteSegment) :
  trailGpxParser g = Some parser -> gpxTrailPoints g <> [] ->
  (Part000.processSegmentData g routeData = TypeError <->
   firstTrack g = None \/
   (exists track, firstTrack g = Some track /\ points track = []) \/
   routeData = []).
Proof.
  intros Hparser Hpts. unfold firstTrack. rewrite Hparser.
  destruct (nth_error (tracks parser) 0) as [track|] eqn:Htrack.
  2: { split; [now left|]. intros _. unfold Part000.processSegmentData.
       rewrite Hparser.
       destruct (gpxTrailPoints g) as [|c0 cs]; [congruence|].
       cbn [length Nat.eqb]. unfold read at 1. now rewrite Htrack. }
  destruct (points track) as [|p0 ps] eqn:Epoints.
  { split; [intros _; right; left; eauto|]. intros _.
    unfold Part000.processSegmentData. rewrite Hparser.
    destruct (gpxTrailPoints g) as [|c0 cs]; [congruence|].
    cbn [length Nat.eqb]. unfold read at 1. rewrite Htrack. cbn [bind].
    now rewrite Epoints. }
  destruct routeData as [|spec rest] eqn:Eroute.
  { split; [intros _; right; now right|]. intros _.
    unfold Part000.processSegmentData. rewrite Hparser.
    destruct (gpxTrailPoints g) as [|c0 cs]; [congruence|].
    cbn [length Nat.eqb]. unfold read at 1. rewrite Htrack. cbn [bind].
    rewrite Epoints. unfold read at 1. cbn [nth_error bind].
    assert (exists x, read (p0 :: ps) (length (p0 :: ps) - 1) = Normal x)
      as [x ->].
    { unfold read.
      destruct (nth_error (p0 :: ps) (length (p0 :: ps) - 1)) eqn:E;
        [eauto|].
      apply nth_error_None in E. simpl in E. lia. }
    reflexivity. }
  split.
  - intros Hraise.
    destruct (Part000_assembles g parser track (spec :: rest) Hparser Hpts
                Htrack) as (t & Ht & _);
      [rewrite Epoints; discriminate | discriminate |].
    congruence.
  - intros [H|[(track' & [= <-] & H)|H]]; congruence.
Qed.

Lemma Part000_raises_iff_witness :
  Part000.processSegmentData
    (mkGlobals (Some (mkGpxParser [])) [(0, 0)%float]) exampleRoute
  = TypeError.
Proof.
  apply (proj2 (Part000_raises_iff
                  (mkGlobals (Some (mkGpxParser [])) [(0, 0)%float])
                  (mkGpxParser []) exampleRoute eq_refl ltac:(discriminate))).
  left. reflexivity.
Defined.

End AssemblerExceptions.
